(** * Dynamic page-size allocation simulator: MMU, TLB, policy engine

    A shallow embedding of the C++ sources
      - [OrderedDict.h]          (class template [OrderedDict])
      - [memory_system_tlb.h]    (class [TLB])
      - [policy_engine.h]        (class [PolicyEngine])
      - [constants.h]            (the four simulation constants)
      - [memory_system_mmu.h]    (class [MMU])
      - [main.cpp]               (the workloads and [run_simulation])
    followed by the properties of the translation path, of the
    dictionary, of the allocator and of the driver.

    Conventions.
      - A C++ [int] is a [Z] in the range of a 32-bit two's-complement
        integer; every arithmetic operation of the source is followed by
        [Int.wrap].  The language leaves signed overflow undefined, the
        wrap-around is what the usual targets compute.
      - [std::unordered_map] is a [gmap], [std::vector] a [list].
      - A member function becomes a function from the object to the new
        object and the returned value; an exception is an [outcome].
      - Library calls whose behaviour is undefined ([front()] of an empty
        vector, [erase(end())]) make the embedding return [None]. *)

From Stdlib Require Import ZArith List String Lia.
From stdpp Require Import gmap strings list fin_maps.

Local Open Scope Z_scope.

(** ** Machine integers *)

Module Int.

Definition min_signed : Z := -2147483648.
Definition max_signed : Z := 2147483647.
Definition modulus : Z := 4294967296.

(** The representative of [z] modulo [2^32] in the signed range. *)
Definition wrap (z : Z) : Z := (z + 2147483648) mod 4294967296 - 2147483648.

Definition in_range (z : Z) : Prop := min_signed <= z <= max_signed.

Definition add (a b : Z) : Z := wrap (a + b).
Definition sub (a b : Z) : Z := wrap (a - b).
Definition mul (a b : Z) : Z := wrap (a * b).
(** C++ division truncates toward zero. *)
Definition div (a b : Z) : Z := wrap (a ÷ b).

(** Conversion of an [int] to [size_t] (64 bits), as done by the usual
    arithmetic conversions when an [int] meets a [size_t]. *)
Definition to_size_t (z : Z) : Z := z mod 18446744073709551616.

End Int.

(** ** constants.h *)

Definition SMALL_PAGE_SIZE : Z := 4 * 1024.
Definition LARGE_PAGE_SIZE : Z := 2 * 1024 * 1024.
Definition PHYSICAL_MEMORY_SIZE : Z := 1 * 1024 * 1024 * 1024.
Definition TLB_SIZE : Z := 64.

(** ** Exceptions *)

Inductive outcome (A : Type) : Type :=
| Normal (a : A)
| Throws (what : string).
Arguments Normal {A} a.
Arguments Throws {A} what.

(** ** policy_engine.h *)

Record PolicyEngine : Type := mkPolicyEngine {
  mode : string;
  threshold : Z
}.

(** The constructor with its default arguments. *)
Definition PolicyEngine_new (input_mode : option string)
    (input_threshold : option Z) : PolicyEngine :=
  {| mode := default "dynamic"%string input_mode;
     threshold := default (1 * 1024 * 1024) input_threshold |}.

Definition decide_page_size (pe : PolicyEngine) (request_size : Z) : Z :=
  if String.eqb (mode pe) "small" then SMALL_PAGE_SIZE
  else if String.eqb (mode pe) "large" then LARGE_PAGE_SIZE
  else if String.eqb (mode pe) "dynamic" then
    (if request_size >? threshold pe then LARGE_PAGE_SIZE else SMALL_PAGE_SIZE)
  else SMALL_PAGE_SIZE.

(** ** OrderedDict.h *)

Module OrderedDict.
Section Template.
Context {K : Type} `{Countable K} {V : Type}.

Record t : Type := mk {
  map : gmap K V;
  order : list K
}.

Definition empty : t := {| map := ∅; order := [] |}.

(** [std::find] followed by [vector::erase] of the position found. *)
Fixpoint erase_first (key : K) (l : list K) : list K :=
  match l with
  | [] => []
  | x :: l' => if decide (x = key) then l' else x :: erase_first key l'
  end.

Definition insert (key : K) (value : V) (d : t) : t :=
  {| map := <[key := value]> (map d);
     order := if decide (map d !! key = None) then order d ++ [key]
              else order d |}.

(** [operator[]]: a key that is absent is created with the
    value-initialised [dflt]. *)
Definition subscript (dflt : V) (key : K) (d : t) : t * V :=
  match map d !! key with
  | Some v => (d, v)
  | None => ({| map := <[key := dflt]> (map d); order := order d ++ [key] |},
             dflt)
  end.

(** [erase]: when the key is in [map] but [std::find] does not find it in
    [order], the source erases [order.end()], which is undefined. *)
Definition erase (key : K) (d : t) : option t :=
  match map d !! key with
  | None => Some d
  | Some _ =>
      if decide (key ∈ order d)
      then Some {| map := delete key (map d);
                   order := erase_first key (order d) |}
      else None
  end.

Definition get_order (d : t) : list K := order d.

Definition contains (key : K) (d : t) : bool :=
  bool_decide (is_Some (map d !! key)).

Definition move_to_end (key : K) (d : t) : t :=
  if decide (key ∈ order d)
  then {| map := map d; order := erase_first key (order d) ++ [key] |}
  else d.

(** [size()] is the size of [map], a [size_t]. *)
Definition size (d : t) : Z := Z.of_nat (base.size (map d)).

End Template.
Arguments t K {_ _} V.
End OrderedDict.

(** ** memory_system_tlb.h *)

Module TLB.

Record t : Type := mk {
  tlb_size : Z;                 (* the member [size] *)
  cache : OrderedDict.t Z Z;
  hits : Z;
  misses : Z
}.

Definition new (tlb_size : Z) : t :=
  {| tlb_size := tlb_size; cache := OrderedDict.empty; hits := 0; misses := 0 |}.

(** Returns the new object and the frame found, [-1] for a miss. *)
Definition lookup (virtual_page_number : Z) (tl : t) : t * Z :=
  if OrderedDict.contains virtual_page_number (cache tl) then
    let c1 := OrderedDict.move_to_end virtual_page_number (cache tl) in
    let '(c2, v) := OrderedDict.subscript 0 virtual_page_number c1 in
    ({| tlb_size := tlb_size tl; cache := c2;
        hits := Int.add (hits tl) 1; misses := misses tl |}, v)
  else
    ({| tlb_size := tlb_size tl; cache := cache tl;
        hits := hits tl; misses := Int.add (misses tl) 1 |}, -1).

Definition with_cache (tl : t) (c : OrderedDict.t Z Z) : t :=
  {| tlb_size := tlb_size tl; cache := c;
     hits := hits tl; misses := misses tl |}.

(** [cache.size() >= size] compares a [size_t] with an [int]: the [int]
    is converted to [size_t].  [front()] of an empty vector is
    undefined. *)
Definition insert (virtual_page_number physical_frame_number : Z) (tl : t)
    : option t :=
  if OrderedDict.contains virtual_page_number (cache tl) then
    c1 ← OrderedDict.erase virtual_page_number (cache tl);
    Some (with_cache tl
            (OrderedDict.insert virtual_page_number physical_frame_number
               c1))
  else if OrderedDict.size (cache tl) >=? Int.to_size_t (tlb_size tl) then
    lru_key ← head (OrderedDict.get_order (cache tl));
    c1 ← OrderedDict.erase lru_key (cache tl);
    Some (with_cache tl
            (OrderedDict.insert virtual_page_number physical_frame_number
               c1))
  else
    Some (with_cache tl
            (OrderedDict.insert virtual_page_number physical_frame_number
               (cache tl))).

Definition hit_rate (tl : t) : Z :=
  let total := Int.add (hits tl) (misses tl) in
  if total =? 0 then 0 else Int.div (Int.mul (hits tl) 100) total.

End TLB.

(** ** memory_system_mmu.h *)

Module MMU.

Record t : Type := mk {
  tlb : TLB.t;
  (* virtual page number -> (physical frame number, page size) *)
  page_table : gmap Z (Z * Z);
  policy_engine : PolicyEngine;
  (* false: the frame is free; true: it is allocated *)
  physical_frames : list bool;
  internal_fragmentation : Z
}.

Definition new (pe : PolicyEngine) : t :=
  {| tlb := TLB.new TLB_SIZE;
     page_table := ∅;
     policy_engine := pe;
     physical_frames :=
       replicate (Z.to_nat (PHYSICAL_MEMORY_SIZE ÷ SMALL_PAGE_SIZE)) false;
     internal_fragmentation := 0 |}.

Definition with_tlb (m : t) (tl : TLB.t) : t :=
  {| tlb := tl; page_table := page_table m;
     policy_engine := policy_engine m;
     physical_frames := physical_frames m;
     internal_fragmentation := internal_fragmentation m |}.

Definition with_frames (m : t) (frames : list bool) : t :=
  {| tlb := tlb m; page_table := page_table m;
     policy_engine := policy_engine m;
     physical_frames := frames;
     internal_fragmentation := internal_fragmentation m |}.

Definition with_page (m : t) (vpn : Z) (entry : Z * Z) : t :=
  {| tlb := tlb m; page_table := <[vpn := entry]> (page_table m);
     policy_engine := policy_engine m;
     physical_frames := physical_frames m;
     internal_fragmentation := internal_fragmentation m |}.

Definition with_fragmentation (m : t) (f : Z) : t :=
  {| tlb := tlb m; page_table := page_table m;
     policy_engine := policy_engine m;
     physical_frames := physical_frames m;
     internal_fragmentation := f |}.

(** The scan of the [else] branch: [rest] is what is left of the vector
    from index [i] on; the result is [start_index] once the count reaches
    [num_frames], [None] when the loop runs off the end. *)
Fixpoint scan (num_frames : Z) (rest : list bool) (i : nat)
    (consecutive_free_count start_index : Z) : option Z :=
  match rest with
  | [] => None
  | allocated :: rest' =>
      let '(count, start) :=
        if allocated then (0, -1)
        else (Int.add consecutive_free_count 1,
              if consecutive_free_count =? 0 then Int.wrap (Z.of_nat i)
              else start_index) in
      if count =? num_frames then Some start
      else scan num_frames rest' (S i) count start
  end.

(** [for (j = start_index; j < start_index + num_frames; j++)
       physical_frames[j] = true;]
    with [n] the number of iterations left. The loop is entered when the
    count has reached [num_frames], so it runs [num_frames] times, over
    indices of the vector. *)
Fixpoint mark_allocated (n : nat) (j : Z) (frames : list bool) : list bool :=
  match n with
  | O => frames
  | S n' => mark_allocated n' (Int.add j 1) (<[Z.to_nat j := true]> frames)
  end.

(** Returns the new bitmap and the start index, [-1] for a failure. *)
Definition find_and_allocate_physical_frames (num_frames : Z)
    (frames : list bool) : list bool * Z :=
  if num_frames =? 1 then
    match list_find (λ b, b = false) frames with
    | None => (frames, -1)
    | Some (i, _) => (<[i := true]> frames, Int.wrap (Z.of_nat i))
    end
  else
    match scan num_frames frames 0 0 (-1) with
    | Some start_index =>
        (mark_allocated (Z.to_nat num_frames) start_index frames,
         start_index)
    | None => (frames, -1)
    end.

(** The loop of [allocate]: [n] iterations are left and the loop variable
    is [i]. *)
Fixpoint allocate_pages (page_size virtual_address : Z) (n : nat) (i : Z)
    (m : t) : t * outcome unit :=
  match n with
  | O => (m, Normal tt)
  | S n' =>
      let virtual_page_number :=
        Int.add (Int.div virtual_address page_size) i in
      match page_table m !! virtual_page_number with
      | Some _ => allocate_pages page_size virtual_address n' (Int.add i 1) m
      | None =>
          let number_frames_per_page := Int.div page_size SMALL_PAGE_SIZE in
          let '(frames, physical_frame_number) :=
            find_and_allocate_physical_frames number_frames_per_page
              (physical_frames m) in
          if physical_frame_number =? -1 then
            (with_frames m frames, Throws "Out of physical memory")
          else
            allocate_pages page_size virtual_address n' (Int.add i 1)
              (with_page (with_frames m frames) virtual_page_number
                 (physical_frame_number, page_size))
      end
  end.

(** The loop runs [num_pages_needed] times, or not at all when that is
    not positive. *)
Definition allocate (virtual_address request_size : Z) (m : t)
    : t * outcome unit :=
  let page_size := decide_page_size (policy_engine m) request_size in
  let first_vpn := Int.div virtual_address page_size in
  let last_vpn :=
    Int.div (Int.sub (Int.add virtual_address request_size) 1) page_size in
  let num_pages_needed := Int.add (Int.sub last_vpn first_vpn) 1 in
  let allocated_memory := Int.mul num_pages_needed page_size in
  let m1 :=
    with_fragmentation m
      (Int.add (internal_fragmentation m)
         (Int.sub allocated_memory request_size)) in
  allocate_pages page_size virtual_address (Z.to_nat num_pages_needed) 0 m1.

(** [page_table.find(vpn) != page_table.end() &&
     page_table[vpn].second == page_size] *)
Definition mapped_with (m : t) (vpn page_size : Z) : bool :=
  match page_table m !! vpn with
  | Some (_, second) => second =? page_size
  | None => false
  end.

(** The virtual page number [translate] settles on, [None] when it
    throws. *)
Definition resolve (virtual_address : Z) (m : t) : option Z :=
  let large_vpn := Int.div virtual_address LARGE_PAGE_SIZE in
  if mapped_with m large_vpn LARGE_PAGE_SIZE then Some large_vpn
  else
    let small_vpn := Int.div virtual_address SMALL_PAGE_SIZE in
    if mapped_with m small_vpn SMALL_PAGE_SIZE then Some small_vpn
    else None.

(** [translate] is [void] in the source; the value given here with
    [Normal] is the final value of its local [physical_frame], the frame
    the call resolved.  [page_table[va_page_num]] reads a key that
    [resolve] found present. *)
Definition translate (virtual_address : Z) (m : t)
    : option (t * outcome Z) :=
  match resolve virtual_address m with
  | None => Some (m, Throws "Invalid virtual address")
  | Some va_page_num =>
      let '(tl, physical_frame) := TLB.lookup va_page_num (tlb m) in
      if physical_frame =? -1 then
        let physical_frame :=
          (default (0, 0) (page_table m !! va_page_num)).1 in
        tl' ← TLB.insert va_page_num physical_frame tl;
        Some (with_tlb m tl', Normal physical_frame)
      else Some (with_tlb m tl, Normal physical_frame)
  end.

Definition get_tlb_hit_rate (m : t) : Z := TLB.hit_rate (tlb m).
Definition get_internal_fragmentation (m : t) : Z :=
  internal_fragmentation m.
Definition get_page_table_size (m : t) : Z :=
  Z.of_nat (size (page_table m)).

End MMU.

(** ** main.cpp: the workloads and the allocation phase of the driver *)

Definition database_workload : list (Z * Z) :=
  [(268435456, Int.mul (Int.mul 512 1024) 1024)].

Definition web_server_workload : list (Z * Z) :=
  let base_va := 536870912 in
  (λ i, (Int.add base_va (Int.mul (Int.mul i 12) 1024), Int.mul 10 1024))
    <$> seqZ 0 20000.

(** The [try] block of [run_simulation]: the requests are allocated in
    order and the first exception ends the phase. *)
Fixpoint allocation_phase (workload : list (Z * Z)) (mmu : MMU.t)
    : MMU.t * outcome unit :=
  match workload with
  | [] => (mmu, Normal tt)
  | req :: rest =>
      match MMU.allocate req.1 req.2 mmu with
      | (mmu', Normal _) => allocation_phase rest mmu'
      | (mmu', Throws what) => (mmu', Throws what)
      end
  end.

(** ** Sequences of TLB operations *)

Inductive tlb_op : Type :=
| Lookup (virtual_page_number : Z)
| Insert (virtual_page_number physical_frame_number : Z).

Definition tlb_step (o : tlb_op) (tl : TLB.t) : option TLB.t :=
  match o with
  | Lookup v => Some (TLB.lookup v tl).1
  | Insert v f => TLB.insert v f tl
  end.

Fixpoint tlb_run (ops : list tlb_op) (tl : TLB.t) : option TLB.t :=
  match ops with
  | [] => Some tl
  | o :: ops' => tl' ← tlb_step o tl; tlb_run ops' tl'
  end.

(** ** main.cpp: the access phase and the report of the driver *)

(** The address of access [i]: [workload[i % workload.size()]] picks the
    request ([i] is converted to [size_t]; a remainder by zero is
    undefined), and [req_va + (i % req_size)] is the address. The loop
    variable [i] runs from 0 to 99999, so [i % req_size] is the remainder
    of a number that is not negative. *)
Definition access_address (workload : list (Z * Z)) (i : Z) : option Z :=
  if Z.of_nat (length workload) =? 0 then None
  else
    req ← workload !! Z.to_nat (Int.to_size_t i `rem` Z.of_nat (length workload));
    if req.2 =? 0 then None
    else Some (Int.add req.1 (i `rem` req.2)).

(** The access loop, [n] iterations being left and the loop variable being
    [i]; an exception of [translate] is caught and reported, and the loop
    goes on. The list holds the addresses reported, latest first. *)
Fixpoint access_phase (n : nat) (i : Z) (workload : list (Z * Z))
    (mmu : MMU.t) (errors : list Z) : option (MMU.t * list Z) :=
  match n with
  | O => Some (mmu, errors)
  | S n' =>
      access_va ← access_address workload i;
      r ← MMU.translate access_va mmu;
      match r.2 with
      | Normal _ => access_phase n' (Int.add i 1) workload r.1 errors
      | Throws _ =>
          access_phase n' (Int.add i 1) workload r.1 (access_va :: errors)
      end
  end.

(** What [run_simulation] prints: the allocation error that ends it, or
    the addresses whose translation failed and the three metrics (the
    fragmentation as the [int] handed to the conversion to [double]). *)
Inductive simulation_output : Type :=
| AllocationError (what : string)
| Report (errors : list Z)
         (tlb_hit_rate internal_fragmentation page_table_size : Z).

Definition run_simulation (policy_mode : string) (workload : list (Z * Z))
    : option simulation_output :=
  let policy_engine := PolicyEngine_new (Some policy_mode) None in
  let mmu := MMU.new policy_engine in
  match allocation_phase workload mmu with
  | (_, Throws what) => Some (AllocationError what)
  | (mmu1, Normal _) =>
      r ← access_phase (Z.to_nat 100000) 0 workload mmu1 [];
      Some (Report r.2 (MMU.get_tlb_hit_rate r.1)
              (MMU.get_internal_fragmentation r.1)
              (MMU.get_page_table_size r.1))
  end.

(** ** Sequences of operations *)

Inductive od_op (K V : Type) : Type :=
| OdInsert (key : K) (value : V)
| OdSubscript (key : K)
| OdErase (key : K)
| OdMoveToEnd (key : K).
Arguments OdInsert {K V} key value.
Arguments OdSubscript {K V} key.
Arguments OdErase {K V} key.
Arguments OdMoveToEnd {K V} key.

Definition od_step `{Countable K} {V : Type} (dflt : V) (o : od_op K V)
    (d : OrderedDict.t K V) : option (OrderedDict.t K V) :=
  match o with
  | OdInsert k v => Some (OrderedDict.insert k v d)
  | OdSubscript k => Some (OrderedDict.subscript dflt k d).1
  | OdErase k => OrderedDict.erase k d
  | OdMoveToEnd k => Some (OrderedDict.move_to_end k d)
  end.

Fixpoint od_run `{Countable K} {V : Type} (dflt : V) (ops : list (od_op K V))
    (d : OrderedDict.t K V) : option (OrderedDict.t K V) :=
  match ops with
  | [] => Some d
  | o :: ops' => d' ← od_step dflt o d; od_run dflt ops' d'
  end.

(** The number of lookups in a sequence of TLB operations. *)
Fixpoint lookups (ops : list tlb_op) : nat :=
  match ops with
  | [] => O
  | Lookup _ :: ops' => S (lookups ops')
  | Insert _ _ :: ops' => lookups ops'
  end.

Inductive mmu_op : Type :=
| Allocate (virtual_address request_size : Z)
| Translate (virtual_address : Z).

Definition mmu_step (o : mmu_op) (m : MMU.t) : option MMU.t :=
  match o with
  | Allocate va size => Some (MMU.allocate va size m).1
  | Translate a => fst <$> MMU.translate a m
  end.

Fixpoint mmu_run (ops : list mmu_op) (m : MMU.t) : option MMU.t :=
  match ops with
  | [] => Some m
  | o :: ops' => m' ← mmu_step o m; mmu_run ops' m'
  end.

Fixpoint translations (ops : list mmu_op) : nat :=
  match ops with
  | [] => O
  | Translate _ :: ops' => S (translations ops')
  | Allocate _ _ :: ops' => translations ops'
  end.

(** ** Vocabulary of the further statements *)

(** Frame [j] belongs to the page-table entry [e]: a page of size
    [e.2] starting at frame [e.1] spans [e.2 / SMALL_PAGE_SIZE] frames. *)
Definition owns (e : Z * Z) (j : nat) : Prop :=
  e.1 <= Z.of_nat j < e.1 + e.2 ÷ SMALL_PAGE_SIZE.

(** The bitmap and the page table agree: every entry has one of the two
    page sizes and owns allocated frames of the bitmap, no frame belongs to
    two entries, and every allocated frame belongs to an entry. *)
Definition frames_inv (m : MMU.t) : Prop :=
  Z.of_nat (length (MMU.physical_frames m))
    = PHYSICAL_MEMORY_SIZE ÷ SMALL_PAGE_SIZE
  ∧ (∀ v e, MMU.page_table m !! v = Some e →
       (e.2 = SMALL_PAGE_SIZE ∨ e.2 = LARGE_PAGE_SIZE)
       ∧ 0 <= e.1
       ∧ ∀ j : nat, owns e j → MMU.physical_frames m !! j = Some true)
  ∧ (∀ v1 v2 e1 e2 (j : nat),
       MMU.page_table m !! v1 = Some e1 → MMU.page_table m !! v2 = Some e2 →
       owns e1 j → owns e2 j → v1 = v2)
  ∧ (∀ j : nat, MMU.physical_frames m !! j = Some true →
       ∃ v e, MMU.page_table m !! v = Some e ∧ owns e j).

(** A request of at least one byte whose addresses are not negative and
    fit an [int], as its size does. *)
Definition plain_request (request : Z * Z) : Prop :=
  0 <= request.1 ∧ 1 <= request.2 <= Int.max_signed
  ∧ request.1 + request.2 - 1 <= Int.max_signed.

(** Every address of the request has a page with the size [page_size]. *)
Definition covered (page_size : Z) (m : MMU.t) (request : Z * Z) : Prop :=
  ∀ a, request.1 <= a <= request.1 + request.2 - 1 →
       ∃ f, MMU.page_table m !! (a ÷ page_size) = Some (f, page_size).

(** The number of frames that the pages of the page table take, a page of
    size [page_size] taking [page_size / SMALL_PAGE_SIZE] of them, and the
    number of frames that the bitmap marks allocated. *)
Definition mapped_frames (m : MMU.t) : nat :=
  sum_list_with (λ entry : Z * (Z * Z),
                   Z.to_nat (entry.2.2 ÷ SMALL_PAGE_SIZE))
    (map_to_list (MMU.page_table m)).

Definition allocated_frames (m : MMU.t) : nat :=
  length (filter (λ allocated : bool, allocated = true)
            (MMU.physical_frames m)).

(** ** Vocabulary of the statements *)

(** The representation invariant of [OrderedDict]: [order] lists the keys
    of [map], each once. *)
Definition od_wf `{Countable K} {V : Type} (d : OrderedDict.t K V) : Prop :=
  NoDup (OrderedDict.order d)
  ∧ ∀ k, k ∈ OrderedDict.order d ↔ is_Some (OrderedDict.map d !! k).

(** The frames [s], ..., [s + k - 1] exist and are free. *)
Definition free_run (frames : list bool) (s k : nat) : Prop :=
  ∀ j : nat, (s <= j < s + k)%nat → frames !! j = Some false.

(** The invariant of a TLB of capacity [c]. *)
Definition tlb_inv (c : Z) (tl : TLB.t) : Prop :=
  TLB.tlb_size tl = c ∧ od_wf (TLB.cache tl)
  ∧ OrderedDict.size (TLB.cache tl) <= c.

(** The invariant of the scan of [find_and_allocate_physical_frames] when
    it reaches index [i] with [cnt] in [consecutive_free_count]: the [cnt]
    frames before [i] are free, the one before them is not, [start_index]
    is the first of them, and no run of [k] free frames ends before [i]. *)
Definition scan_inv (frames : list bool) (k i cnt : nat) (start : Z) : Prop :=
  (cnt <= i)%nat ∧ (cnt < k)%nat
  ∧ (∀ j : nat, (i - cnt <= j < i)%nat → frames !! j = Some false)
  ∧ ((cnt < i)%nat → frames !! (i - cnt - 1)%nat = Some true)
  ∧ ((0 < cnt)%nat → start = Z.of_nat (i - cnt))
  ∧ (∀ s : nat, (s + k <= i)%nat → ¬ free_run frames s k).

(** The virtual page number of iteration [i] of the loop of [allocate]. *)
Definition request_vpn (page_size virtual_address : Z) (i : nat) : Z :=
  Int.add (Int.div virtual_address page_size) (Z.of_nat i).

(** What [allocate] may change between two states of an MMU: page-table
    entries are added, frames become allocated, nothing else moves. *)
Definition mmu_extends (m m' : MMU.t) : Prop :=
  MMU.tlb m' = MMU.tlb m
  ∧ MMU.policy_engine m' = MMU.policy_engine m
  ∧ MMU.internal_fragmentation m' = MMU.internal_fragmentation m
  ∧ length (MMU.physical_frames m') = length (MMU.physical_frames m)
  ∧ (∀ v e, MMU.page_table m !! v = Some e → MMU.page_table m' !! v = Some e)
  ∧ (∀ idx : nat, MMU.physical_frames m !! idx = Some true →
       MMU.physical_frames m' !! idx = Some true).

(** What [allocate] adds to the fragmentation counter (lines 119 to 123),
    in the arithmetic of [int]. *)
Definition fragmentation_charge (page_size virtual_address request_size : Z)
    : Z :=
  let first_vpn := Int.div virtual_address page_size in
  let last_vpn :=
    Int.div (Int.sub (Int.add virtual_address request_size) 1) page_size in
  let num_pages_needed := Int.add (Int.sub last_vpn first_vpn) 1 in
  let allocated_memory := Int.mul num_pages_needed page_size in
  Int.sub allocated_memory request_size.

(** The number of iterations of the loop of [allocate] and the state in
    which the loop starts, the fragmentation being charged. *)
Definition request_pages (m : MMU.t) (virtual_address request_size : Z) : nat :=
  let page_size := decide_page_size (MMU.policy_engine m) request_size in
  let first_vpn := Int.div virtual_address page_size in
  let last_vpn :=
    Int.div (Int.sub (Int.add virtual_address request_size) 1) page_size in
  Z.to_nat (Int.add (Int.sub last_vpn first_vpn) 1).

Definition charged (m : MMU.t) (virtual_address request_size : Z) : MMU.t :=
  MMU.with_fragmentation m
    (Int.add (MMU.internal_fragmentation m)
       (fragmentation_charge
          (decide_page_size (MMU.policy_engine m) request_size)
          virtual_address request_size)).

(** The loop of [allocate] went through the pages before the [j]-th one of
    the request, reaching the state [m'], where the [j]-th page has no entry
    and the allocator has no frames for it. *)
Definition out_of_memory_at (m : MMU.t) (virtual_address request_size : Z)
    (j : nat) (m' : MMU.t) : Prop :=
  let page_size := decide_page_size (MMU.policy_engine m) request_size in
  (j < request_pages m virtual_address request_size)%nat
  ∧ MMU.allocate_pages page_size virtual_address j 0
      (charged m virtual_address request_size) = (m', Normal tt)
  ∧ MMU.page_table m' !! request_vpn page_size virtual_address j = None
  ∧ (MMU.find_and_allocate_physical_frames (Int.div page_size SMALL_PAGE_SIZE)
       (MMU.physical_frames m')).2 = -1.

(** A sequence of calls of [allocate], the caller going on after an
    exception. *)
Definition allocate_all (requests : list (Z * Z)) (m : MMU.t) : MMU.t :=
  foldl (λ m request, (MMU.allocate request.1 request.2 m).1) m requests.

(** The contribution of a request as the specification words it, in
    mathematical integers. *)
Definition contribution (pe : PolicyEngine) (request : Z * Z) : Z :=
  let page_size := decide_page_size pe request.2 in
  let first_vpn := request.1 ÷ page_size in
  let last_vpn := (request.1 + request.2 - 1) ÷ page_size in
  let num_pages := last_vpn - first_vpn + 1 in
  num_pages * page_size - request.2.

Definition total_contribution (pe : PolicyEngine) (requests : list (Z * Z))
    : Z :=
  foldr (λ request acc, contribution pe request + acc) 0 requests.

(** The TLB of an MMU only caches frames that the page table records. *)
Definition tlb_coherent (m : MMU.t) : Prop :=
  ∀ v f, OrderedDict.map (TLB.cache (MMU.tlb m)) !! v = Some f →
         ∃ page_size, MMU.page_table m !! v = Some (f, page_size).

Definition mmu_ok (m : MMU.t) : Prop :=
  tlb_inv TLB_SIZE (MMU.tlb m) ∧ tlb_coherent m.

(** Every entry of the page table has the page size [page_size]. *)
Definition uniform_pages (page_size : Z) (m : MMU.t) : Prop :=
  ∀ v e, MMU.page_table m !! v = Some e → e.2 = page_size.

(** * Properties *)

(** ** Machine integers *)

Section IntFacts.

Lemma wrap_id z : Int.in_range z → Int.wrap z = z.
Proof.
  unfold Int.in_range, Int.min_signed, Int.max_signed, Int.wrap.
  intros ?. rewrite Z.mod_small; lia.
Qed.

Lemma wrap_in_range z : Int.in_range (Int.wrap z).
Proof.
  unfold Int.in_range, Int.min_signed, Int.max_signed, Int.wrap.
  pose proof (Z.mod_pos_bound (z + 2147483648) 4294967296). lia.
Qed.

(** [wrap] only depends on the class modulo [2^32]. *)
Lemma wrap_congr a b :
  (a - b) mod Int.modulus = 0 → Int.wrap a = Int.wrap b.
Proof.
  unfold Int.wrap, Int.modulus. intros Hab. f_equal.
  apply Z.mod_divide in Hab; [|lia]. destruct Hab as [q Hq].
  replace (a + 2147483648) with (b + 2147483648 + q * 4294967296) by lia.
  apply Z_mod_plus_full.
Qed.

Lemma wrap_diff z : ∃ q, Int.wrap z = z + q * Int.modulus.
Proof.
  unfold Int.wrap, Int.modulus.
  exists (- ((z + 2147483648) / 4294967296)).
  pose proof (Z.div_mod (z + 2147483648) 4294967296). lia.
Qed.

Lemma wrap_add_l a b : Int.wrap (Int.wrap a + b) = Int.wrap (a + b).
Proof.
  apply wrap_congr. destruct (wrap_diff a) as [q ->].
  replace (a + q * Int.modulus + b - (a + b)) with (q * Int.modulus) by lia.
  apply Z_mod_mult.
Qed.

Lemma wrap_add_r a b : Int.wrap (a + Int.wrap b) = Int.wrap (a + b).
Proof. rewrite Z.add_comm, wrap_add_l. f_equal; lia. Qed.

Lemma wrap_sub_l a b : Int.wrap (Int.wrap a - b) = Int.wrap (a - b).
Proof. apply (wrap_add_l a (- b)). Qed.

Lemma wrap_mul_l a b : Int.wrap (Int.wrap a * b) = Int.wrap (a * b).
Proof.
  apply wrap_congr. destruct (wrap_diff a) as [q ->].
  replace ((a + q * Int.modulus) * b - a * b) with (q * b * Int.modulus)
    by lia.
  apply Z_mod_mult.
Qed.

(** Division of an [int] by a positive [int] never overflows. *)
Lemma div_pos_exact a b :
  Int.in_range a → 0 < b → Int.div a b = a ÷ b.
Proof.
  unfold Int.div, Int.in_range, Int.min_signed, Int.max_signed.
  intros Ha Hb. apply wrap_id.
  unfold Int.in_range, Int.min_signed, Int.max_signed.
  destruct (Z.le_gt_cases 0 a) as [H0|H0].
  - pose proof (Z.quot_pos a b H0 Hb).
    pose proof (Z.quot_le_upper_bound a b a Hb). nia.
  - pose proof (Z.quot_opp_l a b ltac:(lia)) as Hopp.
    assert (0 <= - a) as Hna by lia.
    pose proof (Z.quot_pos (- a) b Hna Hb).
    pose proof (Z.quot_le_upper_bound (- a) b (- a) Hb). nia.
Qed.

End IntFacts.

(** ** The page-size policy *)

(** C8: [decide_page_size] gives the small size in mode "small", the large
    size in mode "large", in mode "dynamic" the large size when the request
    is larger than the threshold and the small size otherwise, and the small
    size for every other mode string; it is a function of the engine and the
    request size alone and returns no new engine. *)
Theorem decide_page_size_modes (threshold request_size : Z) :
  decide_page_size (mkPolicyEngine "small" threshold) request_size
    = SMALL_PAGE_SIZE
  ∧ decide_page_size (mkPolicyEngine "large" threshold) request_size
    = LARGE_PAGE_SIZE
  ∧ (request_size > threshold →
     decide_page_size (mkPolicyEngine "dynamic" threshold) request_size
       = LARGE_PAGE_SIZE)
  ∧ (request_size <= threshold →
     decide_page_size (mkPolicyEngine "dynamic" threshold) request_size
       = SMALL_PAGE_SIZE)
  ∧ (∀ other : string,
       other ≠ "small"%string → other ≠ "large"%string →
       other ≠ "dynamic"%string →
       decide_page_size (mkPolicyEngine other threshold) request_size
         = SMALL_PAGE_SIZE).
Proof.
  unfold decide_page_size. repeat split.
  - intros Hgt. cbn. destruct (Z.gtb_spec request_size threshold); [done|lia].
  - intros Hle. cbn. destruct (Z.gtb_spec request_size threshold); [lia|done].
  - intros other Hs Hl Hd. cbn [mode].
    apply String.eqb_neq in Hs, Hl, Hd. by rewrite Hs, Hl, Hd.
Qed.

Lemma decide_page_size_modes_witness :
  decide_page_size (mkPolicyEngine "dynamic" 1048576) 2097152
    = LARGE_PAGE_SIZE
  ∧ decide_page_size (mkPolicyEngine "dynamic" 1048576) 10240
    = SMALL_PAGE_SIZE
  ∧ decide_page_size (mkPolicyEngine "huge" 1048576) 2097152
    = SMALL_PAGE_SIZE.
Proof.
  destruct (decide_page_size_modes 1048576 2097152) as (_ & _ & Hl & _ & Ho).
  destruct (decide_page_size_modes 1048576 10240) as (_ & _ & _ & Hs & _).
  split; [|split].
  - apply Hl. lia.
  - apply Hs. lia.
  - apply Ho; discriminate.
Defined.

(** The page size chosen is always one of the two constants. *)
Lemma decide_page_size_cases pe request_size :
  decide_page_size pe request_size = SMALL_PAGE_SIZE
  ∨ decide_page_size pe request_size = LARGE_PAGE_SIZE.
Proof.
  unfold decide_page_size.
  repeat match goal with |- context [if ?b then _ else _] => destruct b end;
    auto.
Qed.

(** ** The hit rate *)

(** While [hits * 100] and [hits + misses] fit an [int], the hit rate is
    the rounded-down percentage, and lies between 0 and 100. *)
Lemma hit_rate_exact tl :
  0 <= TLB.hits tl → 0 <= TLB.misses tl →
  TLB.hits tl * 100 <= Int.max_signed →
  TLB.hits tl + TLB.misses tl <= Int.max_signed →
  TLB.hit_rate tl
    = (if TLB.hits tl + TLB.misses tl =? 0 then 0
       else (100 * TLB.hits tl) / (TLB.hits tl + TLB.misses tl))
  ∧ 0 <= TLB.hit_rate tl <= 100.
Proof.
  unfold TLB.hit_rate, Int.add, Int.mul, Int.max_signed.
  set (h := TLB.hits tl). set (m := TLB.misses tl). intros Hh Hm Hmul Hsum.
  rewrite (wrap_id (h + m)), (wrap_id (h * 100))
    by (unfold Int.in_range, Int.min_signed, Int.max_signed; lia).
  destruct (Z.eqb_spec (h + m) 0) as [?|Hne]; [lia|].
  rewrite div_pos_exact
    by (unfold Int.in_range, Int.min_signed, Int.max_signed; lia).
  rewrite Z.quot_div_nonneg by lia.
  replace (h * 100) with (100 * h) by lia.
  split; [done|]. split.
  - apply Z.div_pos; lia.
  - apply Z.div_le_upper_bound; lia.
Qed.

Lemma lookup_hit v f tl :
  OrderedDict.map (TLB.cache tl) !! v = Some f →
  TLB.lookup v tl
    = ({| TLB.tlb_size := TLB.tlb_size tl;
          TLB.cache := OrderedDict.move_to_end v (TLB.cache tl);
          TLB.hits := Int.add (TLB.hits tl) 1;
          TLB.misses := TLB.misses tl |}, f).
Proof.
  intros Hv. unfold TLB.lookup, OrderedDict.contains.
  rewrite bool_decide_eq_true_2 by (rewrite Hv; eauto).
  unfold OrderedDict.subscript.
  replace (OrderedDict.map (OrderedDict.move_to_end v (TLB.cache tl)))
    with (OrderedDict.map (TLB.cache tl))
    by (unfold OrderedDict.move_to_end; by case_decide).
  by rewrite Hv.
Qed.

Lemma lookup_miss v tl :
  OrderedDict.map (TLB.cache tl) !! v = None →
  TLB.lookup v tl
    = ({| TLB.tlb_size := TLB.tlb_size tl;
          TLB.cache := TLB.cache tl;
          TLB.hits := TLB.hits tl;
          TLB.misses := Int.add (TLB.misses tl) 1 |}, -1).
Proof.
  intros Hv. unfold TLB.lookup, OrderedDict.contains.
  rewrite bool_decide_eq_false_2; [done|].
  rewrite Hv. by intros [? ?].
Qed.

(** Looking up [n] times the only entry of a cache counts [n] hits. *)
Lemma repeated_hits v f n : ∀ tl,
  TLB.cache tl = {| OrderedDict.map := {[v := f]}; OrderedDict.order := [v] |} →
  tlb_run (replicate n (Lookup v)) tl
    = Some {| TLB.tlb_size := TLB.tlb_size tl;
              TLB.cache := TLB.cache tl;
              TLB.hits := Nat.iter n (λ h, Int.add h 1) (TLB.hits tl);
              TLB.misses := TLB.misses tl |}.
Proof.
  induction n as [|n IH]; intros tl Hc.
  - by destruct tl.
  - cbn [replicate tlb_run tlb_step mbind option_bind].
    rewrite (lookup_hit v f) by (rewrite Hc; apply lookup_singleton_eq).
    cbn [fst]. rewrite IH; cbn [TLB.cache TLB.hits TLB.misses TLB.tlb_size].
    + rewrite Hc. unfold OrderedDict.move_to_end. cbn.
      rewrite decide_True by set_solver. rewrite decide_True by done.
      cbn. f_equal. f_equal.
      exact (eq_sym (Nat.iter_succ_r n (λ h, Int.add h 1) (TLB.hits tl))).
    + rewrite Hc. unfold OrderedDict.move_to_end. cbn.
      rewrite decide_True by set_solver. by rewrite decide_True by done.
Qed.

Lemma iter_incr n h :
  Int.in_range h → Nat.iter n (λ h, Int.add h 1) h = Int.wrap (h + Z.of_nat n).
Proof.
  intros Hh. induction n as [|n IH].
  - cbn. rewrite Z.add_0_r. by rewrite wrap_id.
  - change (Nat.iter (S n) (λ h, Int.add h 1) h)
      with (Int.add (Nat.iter n (λ h, Int.add h 1) h) 1).
    rewrite IH. unfold Int.add. rewrite wrap_add_l. f_equal. lia.
Qed.

(** One insertion followed by [n] lookups of the same page. *)
Lemma insert_then_hits n :
  tlb_run (Insert 0 0 :: replicate n (Lookup 0)) (TLB.new TLB_SIZE)
    = Some {| TLB.tlb_size := TLB_SIZE;
              TLB.cache := OrderedDict.insert 0 0 OrderedDict.empty;
              TLB.hits := Int.wrap (Z.of_nat n);
              TLB.misses := 0 |}.
Proof.
  change (tlb_run (Insert 0 0 :: replicate n (Lookup 0)) (TLB.new TLB_SIZE))
    with (tlb_run (replicate n (Lookup 0))
            (TLB.with_cache (TLB.new TLB_SIZE)
               (OrderedDict.insert 0 0 OrderedDict.empty))).
  rewrite (repeated_hits 0 0) by reflexivity.
  cbn [TLB.hits TLB.misses TLB.with_cache TLB.new TLB.cache TLB.tlb_size].
  rewrite iter_incr
    by (unfold Int.in_range, Int.min_signed, Int.max_signed; lia).
  reflexivity.
Qed.

(** C7 at 21474837 hits: one entry is inserted into the TLB of the MMU and
    looked up 21474837 times; every lookup hits, [hits * 100] leaves the
    range of [int] and the hit rate returned is -99, whereas
    [100 * 21474837 / (21474837 + 0)] is 100. *)
Theorem hit_rate_after_21474837_hits :
  ∃ tl,
    tlb_run (Insert 0 0 :: replicate (Z.to_nat 21474837) (Lookup 0))
      (TLB.new TLB_SIZE) = Some tl
    ∧ TLB.hits tl = 21474837 ∧ TLB.misses tl = 0
    ∧ TLB.hit_rate tl = -99
    ∧ (100 * TLB.hits tl) / (TLB.hits tl + TLB.misses tl) = 100.
Proof.
  assert (Z.of_nat (Z.to_nat 21474837) = 21474837) as Hn
    by (apply Z2Nat.id; lia).
  revert Hn. generalize (Z.to_nat 21474837) as n. intros n Hn.
  eexists. split; [apply insert_then_hits|].
  rewrite Hn. repeat split; reflexivity.
Qed.

(** ** The ordered dictionary *)

Section OrderedDictFacts.
Context {K : Type} `{Countable K} {V : Type}.
Implicit Types (d : OrderedDict.t K V) (l : list K) (k : K).

Lemma erase_first_notin k l : k ∉ l → OrderedDict.erase_first k l = l.
Proof.
  induction l as [|x l IH]; [done|]. intros Hk. cbn.
  rewrite decide_False by set_solver. f_equal. apply IH. set_solver.
Qed.

Lemma erase_first_head k l : OrderedDict.erase_first k (k :: l) = l.
Proof. cbn. by rewrite decide_True. Qed.

Lemma elem_of_erase_first k x l :
  NoDup l → x ∈ OrderedDict.erase_first k l ↔ x ∈ l ∧ x ≠ k.
Proof.
  induction l as [|y l IH]; intros Hnd; cbn.
  - set_solver.
  - apply NoDup_cons in Hnd as [Hy Hnd]. case_decide as Hyk.
    + subst y. split.
      * intros Hx. split; [set_solver|]. by intros ->.
      * intros [[?|?]%elem_of_cons ?]; done.
    + rewrite !elem_of_cons, IH by done. naive_solver.
Qed.

Lemma NoDup_erase_first k l : NoDup l → NoDup (OrderedDict.erase_first k l).
Proof.
  induction l as [|y l IH]; intros Hnd; cbn; [done|].
  apply NoDup_cons in Hnd as [Hy Hnd]. case_decide; [done|].
  apply NoDup_cons. split; [|by apply IH].
  rewrite elem_of_erase_first by done. naive_solver.
Qed.

Lemma od_wf_empty : od_wf (OrderedDict.empty : OrderedDict.t K V).
Proof.
  split; cbn; [constructor|]. intros k. rewrite lookup_empty.
  split; [by intros ?%elem_of_nil | by intros [? ?]].
Qed.

Lemma od_wf_size d :
  od_wf d → size (OrderedDict.map d) = length (OrderedDict.order d).
Proof.
  intros [Hnd Hk]. rewrite <- size_dom.
  replace (dom (OrderedDict.map d)) with
    (list_to_set (OrderedDict.order d) : gset K).
  - by apply size_list_to_set.
  - apply set_eq. intros k.
    by rewrite elem_of_list_to_set, elem_of_dom.
Qed.

Lemma od_wf_insert k v d : od_wf d → od_wf (OrderedDict.insert k v d).
Proof.
  intros [Hnd Hk]. unfold OrderedDict.insert. split; cbn.
  - case_decide as Hm; [|done]. apply NoDup_app. split_and!; [done| |].
    + intros x Hx ->%list_elem_of_singleton.
      apply Hk in Hx. rewrite Hm in Hx. by destruct Hx.
    + apply NoDup_singleton.
  - intros x. rewrite lookup_insert. case_decide as Hm.
    + rewrite elem_of_app, list_elem_of_singleton, Hk.
      case_decide; naive_solver.
    + rewrite Hk. case_decide as Hkx; [|done]. subst x.
      split; [eauto|]. intros _. by apply not_eq_None_Some.
Qed.

Lemma od_wf_erase k d :
  od_wf d →
  ∃ d', OrderedDict.erase k d = Some d' ∧ od_wf d'
    ∧ OrderedDict.map d' = delete k (OrderedDict.map d)
    ∧ OrderedDict.order d' = OrderedDict.erase_first k (OrderedDict.order d).
Proof.
  intros [Hnd Hk]. unfold OrderedDict.erase.
  destruct (OrderedDict.map d !! k) as [v|] eqn:Hm.
  - rewrite decide_True by (apply Hk; rewrite Hm; eauto).
    eexists. split; [done|]. split_and!; cbn; [|done|done].
    split; cbn; [by apply NoDup_erase_first|].
    intros x. rewrite elem_of_erase_first, Hk, lookup_delete by done.
    case_decide; [|naive_solver]. subst x. split; [naive_solver|].
    by intros [? ?].
  - exists d. split; [done|]. split_and!; [done| |].
    + by rewrite delete_id.
    + rewrite erase_first_notin; [done|].
      intros Hin%Hk. rewrite Hm in Hin. by destruct Hin.
Qed.

Lemma od_wf_move_to_end k d : od_wf d → od_wf (OrderedDict.move_to_end k d).
Proof.
  intros [Hnd Hk]. unfold OrderedDict.move_to_end.
  case_decide as Hin; [|done]. split; cbn.
  - apply NoDup_app. split_and!.
    + by apply NoDup_erase_first.
    + intros x Hx ->%list_elem_of_singleton.
      apply elem_of_erase_first in Hx; naive_solver.
    + apply NoDup_singleton.
  - intros x. rewrite elem_of_app, list_elem_of_singleton,
      elem_of_erase_first, <- Hk by done.
    destruct (decide (x = k)); naive_solver.
Qed.

Lemma map_move_to_end k d :
  OrderedDict.map (OrderedDict.move_to_end k d) = OrderedDict.map d.
Proof. unfold OrderedDict.move_to_end. by case_decide. Qed.

End OrderedDictFacts.

(** ** The TLB: capacity and eviction *)

Lemma to_size_t_le c : 0 <= c → Int.to_size_t c <= c.
Proof. intros Hc. unfold Int.to_size_t. apply Z.mod_le; lia. Qed.

Lemma to_size_t_id c : 0 <= c <= Int.max_signed → Int.to_size_t c = c.
Proof.
  unfold Int.to_size_t, Int.max_signed. intros Hc.
  apply Z.mod_small. lia.
Qed.

Lemma with_cache_id tl : TLB.with_cache tl (TLB.cache tl) = tl.
Proof. by destruct tl. Qed.

(** What [insert] does in each of its three branches, on a well-formed
    cache. *)
Lemma insert_cached v f f' tl :
  od_wf (TLB.cache tl) →
  OrderedDict.map (TLB.cache tl) !! v = Some f' →
  TLB.insert v f tl
    = Some (TLB.with_cache tl
        {| OrderedDict.map := <[v := f]> (OrderedDict.map (TLB.cache tl));
           OrderedDict.order :=
             OrderedDict.erase_first v (OrderedDict.order (TLB.cache tl))
               ++ [v] |}).
Proof.
  intros Hwf Hv. unfold TLB.insert, OrderedDict.contains.
  rewrite bool_decide_eq_true_2 by (rewrite Hv; eauto).
  destruct (od_wf_erase v _ Hwf) as (d' & -> & _ & Hm & Ho). cbn.
  unfold OrderedDict.insert. rewrite Hm, Ho, lookup_delete_eq.
  rewrite decide_True by done. by rewrite insert_delete_eq.
Qed.

Lemma insert_evicts v f k o tl :
  od_wf (TLB.cache tl) →
  OrderedDict.map (TLB.cache tl) !! v = None →
  OrderedDict.size (TLB.cache tl) >= Int.to_size_t (TLB.tlb_size tl) →
  OrderedDict.order (TLB.cache tl) = k :: o →
  TLB.insert v f tl
    = Some (TLB.with_cache tl
        {| OrderedDict.map :=
             <[v := f]> (delete k (OrderedDict.map (TLB.cache tl)));
           OrderedDict.order := o ++ [v] |}).
Proof.
  intros Hwf Hv Hfull Ho. unfold TLB.insert, OrderedDict.contains.
  rewrite bool_decide_eq_false_2 by (rewrite Hv; by intros [? ?]).
  destruct (Z.geb_spec (OrderedDict.size (TLB.cache tl))
              (Int.to_size_t (TLB.tlb_size tl))); [|lia].
  unfold OrderedDict.get_order. rewrite Ho. cbn [head mbind option_bind].
  destruct (od_wf_erase k _ Hwf) as (d' & -> & _ & Hm & Ho').
  cbn [mbind option_bind].
  unfold OrderedDict.insert. rewrite Hm, Ho', Ho, erase_first_head.
  assert (v ≠ k) as Hvk.
  { intros ->. destruct Hwf as [_ Hk].
    assert (k ∈ OrderedDict.order (TLB.cache tl)) as Hin
      by (rewrite Ho; set_solver).
    apply Hk in Hin. rewrite Hv in Hin. by destruct Hin. }
  rewrite lookup_delete_ne by done. rewrite Hv.
  by rewrite decide_True by done.
Qed.

Lemma insert_below_capacity v f tl :
  OrderedDict.map (TLB.cache tl) !! v = None →
  OrderedDict.size (TLB.cache tl) < Int.to_size_t (TLB.tlb_size tl) →
  TLB.insert v f tl
    = Some (TLB.with_cache tl
        {| OrderedDict.map := <[v := f]> (OrderedDict.map (TLB.cache tl));
           OrderedDict.order := OrderedDict.order (TLB.cache tl) ++ [v] |}).
Proof.
  intros Hv Hroom. unfold TLB.insert, OrderedDict.contains.
  rewrite bool_decide_eq_false_2 by (rewrite Hv; by intros [? ?]).
  destruct (Z.geb_spec (OrderedDict.size (TLB.cache tl))
              (Int.to_size_t (TLB.tlb_size tl))); [lia|].
  unfold OrderedDict.insert. rewrite Hv. by rewrite decide_True by done.
Qed.

Lemma tlb_inv_new c : 0 <= c → tlb_inv c (TLB.new c).
Proof.
  intros Hc. split_and!; [done|apply od_wf_empty|].
  unfold OrderedDict.size. cbn. rewrite map_size_empty. lia.
Qed.

Lemma tlb_inv_lookup c v tl : tlb_inv c tl → tlb_inv c (TLB.lookup v tl).1.
Proof.
  intros (Hc & Hwf & Hsz).
  destruct (OrderedDict.map (TLB.cache tl) !! v) as [f|] eqn:Hv.
  - rewrite (lookup_hit v f) by done. split_and!; cbn.
    + done.
    + by apply od_wf_move_to_end.
    + unfold OrderedDict.size in *. by rewrite map_move_to_end.
  - rewrite lookup_miss by done. by split_and!.
Qed.

Lemma tlb_inv_insert c v f tl tl' :
  0 <= c → tlb_inv c tl → TLB.insert v f tl = Some tl' → tlb_inv c tl'.
Proof.
  intros Hc0 (Hc & Hwf & Hsz) Hins.
  pose proof (od_wf_size _ Hwf) as Hlen.
  destruct (OrderedDict.map (TLB.cache tl) !! v) as [f'|] eqn:Hv.
  - rewrite (insert_cached v f f') in Hins by done.
    injection Hins as <-.
    split_and!; cbn; [done| |].
    + destruct (od_wf_erase v _ Hwf) as (d' & _ & Hwf' & Hm & Ho).
      pose proof (od_wf_insert v f _ Hwf') as Hwf''.
      unfold OrderedDict.insert in Hwf''.
      rewrite Hm, Ho, lookup_delete_eq, insert_delete_eq in Hwf''.
      by rewrite decide_True in Hwf'' by done.
    + unfold OrderedDict.size in *. cbn.
      rewrite map_size_insert_Some by eauto. done.
  - destruct (Z.lt_ge_cases (OrderedDict.size (TLB.cache tl))
                (Int.to_size_t (TLB.tlb_size tl))) as [Hroom|Hfull].
    + rewrite insert_below_capacity in Hins by done. injection Hins as <-.
      split_and!; cbn; [done| |].
      * pose proof (od_wf_insert v f _ Hwf) as Hwf'.
        unfold OrderedDict.insert in Hwf'. rewrite Hv in Hwf'.
        by rewrite decide_True in Hwf' by done.
      * unfold OrderedDict.size in *. cbn.
        rewrite map_size_insert_None by done.
        pose proof (to_size_t_le c Hc0). rewrite Hc in Hroom. lia.
    + destruct (OrderedDict.order (TLB.cache tl)) as [|k o] eqn:Ho.
      * unfold TLB.insert, OrderedDict.contains in Hins.
        rewrite bool_decide_eq_false_2 in Hins
          by (rewrite Hv; by intros [? ?]).
        destruct (Z.geb_spec (OrderedDict.size (TLB.cache tl))
                    (Int.to_size_t (TLB.tlb_size tl))); [|lia].
        unfold OrderedDict.get_order in Hins. by rewrite Ho in Hins.
      * rewrite (insert_evicts v f k o) in Hins by (done || lia).
        injection Hins as <-.
        destruct (od_wf_erase k _ Hwf) as (d' & _ & Hwf' & Hm & Ho').
        assert (OrderedDict.map d' !! v = None) as Hv'.
        { rewrite Hm, lookup_delete. by case_decide. }
        pose proof (od_wf_insert v f _ Hwf') as Hwf''.
        unfold OrderedDict.insert in Hwf''.
        rewrite Hv', Hm, Ho', Ho in Hwf''. cbn in Hwf''.
        rewrite !decide_True in Hwf'' by done.
        split_and!; cbn; [done|done|].
        unfold OrderedDict.size in *. cbn.
        assert (is_Some (OrderedDict.map (TLB.cache tl) !! k)) as [fk Hk].
        { apply Hwf. rewrite Ho. set_solver. }
        rewrite map_size_insert_None
          by (rewrite lookup_delete; by case_decide).
        pose proof (map_size_delete_Some k (OrderedDict.map (TLB.cache tl))
                      (mk_is_Some _ _ Hk)) as Hd.
        assert (size (OrderedDict.map (TLB.cache tl)) ≠ 0%nat).
        { by rewrite Hlen. }
        lia.
Qed.

(** With a positive capacity, [insert] never reaches an undefined call. *)
Lemma insert_defined c v f tl :
  1 <= c <= Int.max_signed → tlb_inv c tl → is_Some (TLB.insert v f tl).
Proof.
  intros Hc1 (Hc & Hwf & Hsz).
  pose proof (od_wf_size _ Hwf) as Hlen.
  destruct (OrderedDict.map (TLB.cache tl) !! v) as [f'|] eqn:Hv.
  - rewrite (insert_cached v f f') by done. eauto.
  - destruct (Z.lt_ge_cases (OrderedDict.size (TLB.cache tl))
                (Int.to_size_t (TLB.tlb_size tl))) as [Hroom|Hfull].
    + rewrite insert_below_capacity by done. eauto.
    + destruct (OrderedDict.order (TLB.cache tl)) as [|k o] eqn:Ho.
      * rewrite Hc, to_size_t_id in Hfull by lia.
        unfold OrderedDict.size in Hfull. rewrite Hlen in Hfull.
        cbn in Hfull. lia.
      * rewrite (insert_evicts v f k o) by (done || lia). eauto.
Qed.

Lemma tlb_run_app ops1 ops2 tl :
  tlb_run (ops1 ++ ops2) tl = tlb_run ops1 tl ≫= tlb_run ops2.
Proof.
  revert tl. induction ops1 as [|o ops1 IH]; intros tl; cbn; [done|].
  destruct (tlb_step o tl) as [tl1|]; cbn; [apply IH|done].
Qed.

Lemma tlb_run_inv c ops : ∀ tl tl',
  0 <= c → tlb_inv c tl → tlb_run ops tl = Some tl' → tlb_inv c tl'.
Proof.
  induction ops as [|o ops IH]; intros tl tl' Hc Hinv Hrun; cbn in Hrun.
  - by injection Hrun as <-.
  - destruct (tlb_step o tl) as [tl1|] eqn:Hstep; cbn in Hrun; [|done].
    apply (IH tl1 tl' Hc); [|done].
    destruct o as [v|v f]; cbn in Hstep.
    + injection Hstep as <-. by apply tlb_inv_lookup.
    + by apply (tlb_inv_insert c v f tl).
Qed.

Lemma tlb_run_defined c ops : ∀ tl,
  1 <= c <= Int.max_signed → tlb_inv c tl → is_Some (tlb_run ops tl).
Proof.
  induction ops as [|o ops IH]; intros tl Hc Hinv; cbn; [eauto|].
  destruct o as [v|v f]; cbn.
  - apply IH; [done|]. by apply tlb_inv_lookup.
  - destruct (insert_defined c v f tl Hc Hinv) as [tl1 Hins].
    rewrite Hins. cbn. apply IH; [done|].
    apply (tlb_inv_insert c v f tl); [lia|done..].
Qed.

(** C3: whatever lookups and insertions are applied to a TLB constructed
    with capacity [c], after any number of them the cache holds at most [c]
    entries (in its map and in its order sequence alike); and with a positive
    capacity every such sequence runs to its end. *)
Theorem tlb_capacity_never_exceeded (c : Z) (ops : list tlb_op) :
  0 <= c →
  (∀ (n : nat) (tl : TLB.t),
     tlb_run (take n ops) (TLB.new c) = Some tl →
     OrderedDict.size (TLB.cache tl) <= c
     ∧ Z.of_nat (length (OrderedDict.get_order (TLB.cache tl))) <= c)
  ∧ (1 <= c <= Int.max_signed →
     ∀ n : nat, is_Some (tlb_run (take n ops) (TLB.new c))).
Proof.
  intros Hc. split.
  - intros n tl Hrun.
    destruct (tlb_run_inv c _ _ _ Hc (tlb_inv_new c Hc) Hrun)
      as (_ & Hwf & Hsz).
    split; [done|]. unfold OrderedDict.get_order.
    rewrite <- (od_wf_size _ Hwf). exact Hsz.
  - intros Hc1 n. apply (tlb_run_defined c); [done|by apply tlb_inv_new].
Qed.

Lemma tlb_capacity_never_exceeded_witness :
  ∃ tl,
    tlb_run [Insert 1 10; Insert 2 20; Lookup 1; Insert 3 30; Insert 4 40]
      (TLB.new 2) = Some tl
    ∧ OrderedDict.size (TLB.cache tl) <= 2.
Proof.
  pose proof (tlb_capacity_never_exceeded 2
    [Insert 1 10; Insert 2 20; Lookup 1; Insert 3 30; Insert 4 40]
    ltac:(lia)) as [Hle Hdef].
  destruct (Hdef ltac:(unfold Int.max_signed; lia) 5%nat) as [tl Htl].
  exists tl. split; [exact Htl|]. exact (proj1 (Hle 5%nat tl Htl)).
Defined.

(** Insertions of fresh pages while there is room: nothing is evicted, the
    pages are appended to the order sequence. *)
Lemma fill_below_capacity (ps : list (Z * Z)) : ∀ tl,
  od_wf (TLB.cache tl) →
  NoDup (OrderedDict.order (TLB.cache tl) ++ ps.*1) →
  OrderedDict.size (TLB.cache tl) + Z.of_nat (length ps)
    <= Int.to_size_t (TLB.tlb_size tl) →
  tlb_run ((λ p, Insert p.1 p.2) <$> ps) tl
    = Some (TLB.with_cache tl
        {| OrderedDict.map := list_to_map ps ∪ OrderedDict.map (TLB.cache tl);
           OrderedDict.order := OrderedDict.order (TLB.cache tl) ++ ps.*1 |}).
Proof.
  induction ps as [|[v f] ps IH]; intros tl Hwf Hnd Hroom.
  - cbn. rewrite (left_id_L ∅ (∪)), app_nil_r. f_equal.
    destruct tl as [? [? ?] ? ?]; done.
  - cbn [fmap list_fmap tlb_run tlb_step fst snd].
    assert (OrderedDict.map (TLB.cache tl) !! v = None) as Hv.
    { apply eq_None_not_Some. intros Hin%Hwf.
      apply NoDup_app in Hnd as (_ & Hdisj & _).
      apply (Hdisj v Hin). cbn. set_solver. }
    rewrite insert_below_capacity by (done || cbn [length] in Hroom; lia).
    cbn [mbind option_bind].
    rewrite IH; cbn [TLB.with_cache TLB.cache TLB.tlb_size TLB.hits
                     TLB.misses OrderedDict.map OrderedDict.order].
    + f_equal. f_equal. f_equal.
      * cbn [list_to_map foldr fst snd uncurry].
        rewrite <- insert_union_l. symmetry. apply insert_union_r.
        apply not_elem_of_list_to_map_1.
        apply NoDup_app in Hnd as (_ & _ & Hps). cbn in Hps.
        by apply NoDup_cons in Hps as [? _].
      * by rewrite <- app_assoc.
    + pose proof (od_wf_insert v f _ Hwf) as Hwf'.
      unfold OrderedDict.insert in Hwf'. rewrite Hv in Hwf'.
      by rewrite decide_True in Hwf' by done.
    + by rewrite <- app_assoc.
    + unfold OrderedDict.size in *. cbn [OrderedDict.map].
      rewrite map_size_insert_None by done. cbn [length] in Hroom. lia.
Qed.

(** C4: [c + 1] distinct pages are inserted into an empty TLB of capacity
    [c], the first being [v0]. The insertions run to their end; afterwards
    the cache holds exactly the [c] later pages, in the order of their
    insertion, so [v0] and only [v0] was evicted, and a lookup of [v0]
    misses (it returns -1 and counts one miss). More generally, an insertion
    of a page that is not cached into a full, well-formed cache removes the
    front of the order sequence and nothing else, and a lookup that hits
    moves its page to the back of that sequence. *)
Theorem lru_evicts_first_inserted (c v0 f0 : Z) (rest : list (Z * Z)) :
  1 <= c <= Int.max_signed →
  NoDup (v0 :: rest.*1) →
  Z.of_nat (length rest) = c →
  (∃ tl,
     tlb_run (Insert v0 f0 :: ((λ p, Insert p.1 p.2) <$> rest)) (TLB.new c)
       = Some tl
     ∧ OrderedDict.get_order (TLB.cache tl) = rest.*1
     ∧ OrderedDict.map (TLB.cache tl) = list_to_map rest
     ∧ OrderedDict.contains v0 (TLB.cache tl) = false
     ∧ TLB.lookup v0 tl
         = ({| TLB.tlb_size := c; TLB.cache := TLB.cache tl;
               TLB.hits := 0; TLB.misses := 1 |}, -1))
  ∧ (∀ (tl : TLB.t) (v f k : Z) (o : list Z),
       od_wf (TLB.cache tl) →
       OrderedDict.contains v (TLB.cache tl) = false →
       OrderedDict.size (TLB.cache tl) >= Int.to_size_t (TLB.tlb_size tl) →
       OrderedDict.get_order (TLB.cache tl) = k :: o →
       TLB.insert v f tl
         = Some (TLB.with_cache tl
             {| OrderedDict.map :=
                  <[v := f]> (delete k (OrderedDict.map (TLB.cache tl)));
                OrderedDict.order := o ++ [v] |}))
  ∧ (∀ (tl : TLB.t) (v : Z),
       od_wf (TLB.cache tl) →
       OrderedDict.contains v (TLB.cache tl) = true →
       OrderedDict.get_order (TLB.cache (TLB.lookup v tl).1)
         = OrderedDict.erase_first v (OrderedDict.get_order (TLB.cache tl))
             ++ [v]).
Proof.
  intros Hc Hnd Hlen. split; [|split].
  - revert Hnd Hlen.
    destruct rest as [|[vl fl] rest' _] using rev_ind; intros Hnd Hlen.
    { cbn in Hlen. lia. }
    rewrite fmap_app, app_comm_cons, tlb_run_app.
    change (Insert v0 f0 :: ((λ p, Insert p.1 p.2) <$> rest'))
      with ((λ p, Insert p.1 p.2) <$> ((v0, f0) :: rest')).
    rewrite length_app in Hlen. cbn [length] in Hlen.
    rewrite fmap_app in Hnd. cbn [fmap list_fmap fst] in Hnd.
    rewrite fill_below_capacity; cbn [TLB.new TLB.cache TLB.tlb_size
      OrderedDict.empty OrderedDict.order OrderedDict.map app].
    2: apply od_wf_empty.
    2: { cbn [fmap list_fmap fst].
         rewrite app_comm_cons in Hnd. by apply NoDup_app in Hnd as [? _]. }
    2: { unfold OrderedDict.size, OrderedDict.empty.
         cbn [OrderedDict.map length].
         rewrite map_size_empty, to_size_t_id by lia. lia. }
    cbn [mbind option_bind fmap list_fmap tlb_run tlb_step fst snd].
    rewrite (right_id_L ∅ (∪)).
    set (tl1 := TLB.with_cache _ _).
    assert (od_wf (TLB.cache tl1)) as Hwf1.
    { subst tl1. split;
        cbn [TLB.cache TLB.with_cache OrderedDict.order OrderedDict.map].
      - rewrite app_comm_cons in Hnd. by apply NoDup_app in Hnd as [? _].
      - intros k. rewrite <- elem_of_dom, dom_list_to_map_L.
        by rewrite elem_of_list_to_set. }
    assert (vl ∉ v0 :: rest'.*1) as Hvl.
    { rewrite app_comm_cons in Hnd. apply NoDup_app in Hnd as (_ & Hd & _).
      intros Hin. apply (Hd vl Hin). set_solver. }
    rewrite (insert_evicts vl fl v0 (rest'.*1) tl1); [| done | | | done].
    2: { apply not_elem_of_list_to_map_1. exact Hvl. }
    2: { unfold OrderedDict.size. rewrite (od_wf_size _ Hwf1). cbn.
         rewrite to_size_t_id by lia. rewrite length_fmap. lia. }
    eexists. split; [reflexivity|].
    cbn [TLB.with_cache TLB.cache TLB.tlb_size TLB.hits TLB.misses TLB.new
         tl1 OrderedDict.get_order OrderedDict.map OrderedDict.order].
    assert (<[vl:=fl]> (delete v0 (list_to_map ((v0, f0) :: rest')))
            = (list_to_map (rest' ++ [(vl, fl)]) : gmap Z Z)) as Hmap.
    { cbn [list_to_map foldr uncurry fst snd].
      rewrite delete_insert_eq.
      assert (v0 ∉ rest'.*1) as Hv0.
      { apply NoDup_cons in Hnd as [Hv0 _]. set_solver. }
      rewrite delete_id by by apply not_elem_of_list_to_map_1.
      apply map_eq. intros k.
      rewrite list_to_map_app. cbn [list_to_map foldr uncurry fst snd].
      rewrite lookup_insert, lookup_union, lookup_insert, lookup_empty.
      case_decide as Hk.
      - subst k. rewrite (not_elem_of_list_to_map_1 rest' vl) by set_solver.
        done.
      - by destruct (list_to_map rest' !! k). }
    assert (v0 ≠ vl) as Hne by set_solver.
    split_and!; [by rewrite fmap_app|exact Hmap| |].
    + unfold OrderedDict.contains. cbn [OrderedDict.map].
      apply bool_decide_eq_false_2.
      rewrite lookup_insert_ne by done.
      rewrite lookup_delete_eq. by intros [? ?].
    + rewrite lookup_miss; cbn [TLB.cache TLB.with_cache OrderedDict.map
        TLB.tlb_size TLB.hits TLB.misses tl1 TLB.new]; [done|].
      rewrite lookup_insert_ne by done.
      apply lookup_delete_eq.
  - intros tl v f k o Hwf Hv Hfull Ho.
    apply insert_evicts; [done| |done|done].
    unfold OrderedDict.contains in Hv.
    apply bool_decide_eq_false_1 in Hv. by apply eq_None_not_Some.
  - intros tl v Hwf Hv. unfold OrderedDict.contains in Hv.
    apply bool_decide_eq_true_1 in Hv. pose proof Hv as [f Hf].
    rewrite (lookup_hit v f) by done. cbn.
    unfold OrderedDict.get_order, OrderedDict.move_to_end.
    by rewrite decide_True by by apply Hwf.
Qed.

Lemma lru_evicts_first_inserted_witness :
  ∃ tl,
    tlb_run [Insert 1 10; Insert 2 20; Insert 3 30] (TLB.new 2) = Some tl
    ∧ OrderedDict.get_order (TLB.cache tl) = [2; 3]
    ∧ OrderedDict.contains 1 (TLB.cache tl) = false
    ∧ (TLB.lookup 1 tl).2 = -1.
Proof.
  assert (NoDup (1 :: [(2, 20); (3, 30)].*1)) as Hnd
    by (apply (bool_decide_unpack _); vm_compute; exact I).
  destruct (lru_evicts_first_inserted 2 1 10 [(2, 20); (3, 30)]
              ltac:(unfold Int.max_signed; lia) Hnd ltac:(reflexivity))
    as [(tl & Hrun & Horder & _ & Hgone & Hmiss) _].
  exists tl. split_and!; [exact Hrun|exact Horder|exact Hgone|].
  by rewrite Hmiss.
Defined.

(** ** The physical frame allocator *)

Lemma free_run_bound frames s k j :
  free_run frames s k → (s <= j < s + k)%nat → (j < length frames)%nat.
Proof. intros Hrun Hj. eapply lookup_lt_Some. by apply Hrun. Qed.

Lemma wrap_index (i : nat) (frames : list bool) :
  Z.of_nat (length frames) <= Int.max_signed →
  (i <= length frames)%nat → Int.wrap (Z.of_nat i) = Z.of_nat i.
Proof.
  intros Hlen Hi. apply wrap_id.
  unfold Int.in_range, Int.min_signed, Int.max_signed in *. lia.
Qed.

Lemma scan_inv_start frames k : (1 <= k)%nat → scan_inv frames k 0 0 (-1).
Proof.
  intros Hk. unfold scan_inv. split_and!; lia.
Qed.

(** One more allocated frame. *)
Lemma scan_inv_allocated frames k i cnt start :
  scan_inv frames k i cnt start → frames !! i = Some true →
  scan_inv frames k (S i) 0 (-1).
Proof.
  intros (Hci & Hck & Hfree & Hbefore & Hstart & Hnone) Hi.
  unfold scan_inv. split_and!; try lia.
  - intros _. by replace (S i - 0 - 1)%nat with i by lia.
  - intros s Hs Hrun. destruct (decide (s + k <= i)%nat) as [Hin|Hout].
    + by apply (Hnone s).
    + specialize (Hrun i ltac:(lia)). congruence.
Qed.

(** One more free frame, the count staying below [k]. *)
Lemma scan_inv_free frames k i cnt start :
  scan_inv frames k i cnt start → frames !! i = Some false →
  (S cnt < k)%nat →
  scan_inv frames k (S i) (S cnt)
    (if Z.of_nat cnt =? 0 then Z.of_nat i else start).
Proof.
  intros (Hci & Hck & Hfree & Hbefore & Hstart & Hnone) Hi Hlt.
  unfold scan_inv. split_and!; try lia.
  - intros j Hj. destruct (decide (j = i)) as [->|Hne]; [done|].
    apply Hfree. lia.
  - intros Hc. replace (S i - S cnt - 1)%nat with (i - cnt - 1)%nat by lia.
    apply Hbefore. lia.
  - intros _. destruct (Z.eqb_spec (Z.of_nat cnt) 0) as [H0|Hn0].
    + f_equal; lia.
    + rewrite Hstart by lia. f_equal; lia.
  - intros s Hs Hrun. destruct (decide (s + k <= i)%nat) as [Hin|Hout].
    + by apply (Hnone s).
    + destruct (decide (cnt < i)%nat) as [Hc|Hc]; [|lia].
      specialize (Hbefore Hc).
      specialize (Hrun (i - cnt - 1)%nat ltac:(lia)). congruence.
Qed.

(** The run found when the count reaches [k]. *)
Lemma scan_inv_found frames k i cnt start :
  scan_inv frames k i cnt start → frames !! i = Some false →
  S cnt = k →
  free_run frames (i - cnt) k
  ∧ ∀ s' : nat, (s' < i - cnt)%nat → ¬ free_run frames s' k.
Proof.
  intros (Hci & Hck & Hfree & Hbefore & Hstart & Hnone) Hi Hk. split.
  - intros j Hj. destruct (decide (j = i)) as [->|Hne]; [done|].
    apply Hfree. lia.
  - intros s' Hs'. apply Hnone. lia.
Qed.

Lemma scan_spec frames (k : nat) :
  (1 <= k)%nat → Z.of_nat (length frames) <= Int.max_signed →
  ∀ (n i cnt : nat) (start : Z),
    n = (length frames - i)%nat → (i <= length frames)%nat →
    scan_inv frames k i cnt start →
    match MMU.scan (Z.of_nat k) (drop i frames) i (Z.of_nat cnt) start with
    | Some st =>
        ∃ s : nat, st = Z.of_nat s ∧ free_run frames s k
          ∧ ∀ s' : nat, (s' < s)%nat → ¬ free_run frames s' k
    | None => ∀ s : nat, ¬ free_run frames s k
    end.
Proof.
  intros Hk Hlen. induction n as [|n IH]; intros i cnt start Hn Hi Hinv.
  - rewrite drop_ge by lia. cbn. intros s Hrun.
    destruct Hinv as (_ & _ & _ & _ & _ & Hnone).
    apply (Hnone s); [|done].
    pose proof (free_run_bound frames s k (s + k - 1)%nat Hrun). lia.
  - destruct (lookup_lt_is_Some_2 frames i ltac:(lia)) as [b Hb].
    rewrite (drop_S _ _ _ Hb). cbn [MMU.scan].
    pose proof Hinv as (Hci & Hck & _).
    destruct b.
    + destruct (Z.eqb_spec 0 (Z.of_nat k)) as [?|_]; [lia|].
      apply (IH (S i) 0%nat (-1)); [lia|lia|].
      by apply (scan_inv_allocated frames k i cnt start).
    + unfold Int.add. rewrite (wrap_index i frames) by (done || lia).
      rewrite wrap_id
        by (unfold Int.in_range, Int.min_signed, Int.max_signed in *; lia).
      destruct (Z.eqb_spec (Z.of_nat cnt + 1) (Z.of_nat k)) as [Heq|Hne].
      * destruct (scan_inv_found frames k i cnt start Hinv Hb ltac:(lia))
          as [Hrun Hleft].
        exists (i - cnt)%nat. split; [|done].
        destruct (Z.eqb_spec (Z.of_nat cnt) 0) as [H0|Hn0].
        -- f_equal; lia.
        -- destruct Hinv as (_ & _ & _ & _ & Hstart & _). apply Hstart. lia.
      * replace (Z.of_nat cnt + 1) with (Z.of_nat (S cnt)) by lia.
        apply (IH (S i) (S cnt)); [lia|lia|].
        apply scan_inv_free; [done|done|lia].
Qed.

Lemma mark_allocated_spec (n : nat) : ∀ (s : nat) (frames : list bool),
  Z.of_nat (length frames) <= Int.max_signed →
  (s + n <= length frames)%nat →
  length (MMU.mark_allocated n (Z.of_nat s) frames) = length frames
  ∧ ∀ j : nat,
      MMU.mark_allocated n (Z.of_nat s) frames !! j
        = if decide (s <= j < s + n)%nat then Some true else frames !! j.
Proof.
  induction n as [|n IH]; intros s frames Hlen Hs; cbn [MMU.mark_allocated].
  - split; [done|]. intros j. by rewrite decide_False by lia.
  - unfold Int.add. rewrite Nat2Z.id.
    rewrite wrap_id
      by (unfold Int.in_range, Int.min_signed, Int.max_signed in *; lia).
    replace (Z.of_nat s + 1) with (Z.of_nat (S s)) by lia.
    destruct (IH (S s) (<[s := true]> frames)) as [IHlen IHj].
    { by rewrite length_insert. }
    { rewrite length_insert. lia. }
    rewrite length_insert in IHlen. split; [done|].
    intros j. rewrite IHj.
    destruct (decide (j = s)) as [->|Hne].
    + rewrite decide_False by lia. rewrite decide_True by lia.
      apply list_lookup_insert_eq. lia.
    + rewrite list_lookup_insert_ne by done.
      destruct (decide (S s <= j < S s + n)%nat);
        [by rewrite decide_True by lia|by rewrite decide_False by lia].
Qed.

(** What the allocator returns and does to the bitmap. *)
Lemma find_and_allocate_spec (k : Z) (frames : list bool) :
  1 <= k →
  Z.of_nat (length frames) <= Int.max_signed →
  let frames' := (MMU.find_and_allocate_physical_frames k frames).1 in
  let r := (MMU.find_and_allocate_physical_frames k frames).2 in
  ((∃ s : nat, free_run frames s (Z.to_nat k)) ↔ r ≠ -1)
  ∧ (r = -1 → frames' = frames)
  ∧ (r ≠ -1 →
     ∃ s : nat,
       r = Z.of_nat s
       ∧ free_run frames s (Z.to_nat k)
       ∧ (∀ s' : nat, (s' < s)%nat → ¬ free_run frames s' (Z.to_nat k))
       ∧ length frames' = length frames
       ∧ (∀ j : nat, (s <= j < s + Z.to_nat k)%nat →
            frames' !! j = Some true)
       ∧ (∀ j : nat, ¬ (s <= j < s + Z.to_nat k)%nat →
            frames' !! j = frames !! j)).
Proof.
  intros Hk Hlen.
  assert (∀ s : nat, Z.of_nat s ≠ -1) as Hneg by lia.
  unfold MMU.find_and_allocate_physical_frames.
  destruct (Z.eqb_spec k 1) as [->|Hk1].
  - (* one frame: the first free one *)
    change (Z.to_nat 1) with 1%nat.
    destruct (list_find (λ b, b = false) frames) as [[i b]|] eqn:Hfind.
    + apply list_find_Some in Hfind as (Hi & -> & Hfirst).
      pose proof (lookup_lt_Some _ _ _ Hi) as Hilen.
      cbn [fst snd]. rewrite (wrap_index i frames) by (done || lia).
      assert (free_run frames i 1) as Hrun.
      { intros j Hj. by replace j with i by lia. }
      split_and!; [split; [done|eauto] | by intros ?%Hneg |].
      intros _. exists i. split_and!; [done|done| |by rewrite length_insert| |].
      * intros s' Hs' Hrun'. specialize (Hrun' s' ltac:(lia)).
        by apply (Hfirst s' false).
      * intros j Hj. replace j with i by lia.
        by apply list_lookup_insert_eq.
      * intros j Hj. apply list_lookup_insert_ne. lia.
    + apply list_find_None in Hfind. cbn [fst snd].
      split_and!; [|done|done].
      split; [|done]. intros [s Hrun]. exfalso.
      specialize (Hrun s ltac:(lia)).
      apply list_elem_of_lookup_2 in Hrun.
      by apply (proj1 (Forall_forall _ _) Hfind false Hrun).
  - (* several frames: the scan *)
    pose proof (scan_spec frames (Z.to_nat k) ltac:(lia) Hlen
                  (length frames) 0 0 (-1) ltac:(lia) ltac:(lia)
                  (scan_inv_start frames (Z.to_nat k) ltac:(lia))) as Hscan.
    rewrite drop_0, Z2Nat.id in Hscan by lia.
    change (Z.of_nat 0) with 0 in Hscan.
    destruct (MMU.scan k frames 0 0 (-1)) as [st|]; cbn [fst snd].
    + destruct Hscan as (s & -> & Hrun & Hleft).
      destruct (mark_allocated_spec (Z.to_nat k) s frames Hlen) as [Hl Hj].
      { pose proof (free_run_bound frames s (Z.to_nat k)
                      (s + Z.to_nat k - 1)%nat Hrun). lia. }
      split_and!; [split; [done|eauto] | by intros ?%Hneg |].
      intros _. exists s. split_and!; [done|done|done|done| |].
      * intros j Hin. rewrite Hj. by rewrite decide_True.
      * intros j Hout. rewrite Hj. by rewrite decide_False.
    + split_and!; [|done|done].
      split; [|done]. intros [s Hrun]. exfalso. by apply (Hscan s).
Qed.

(** C5: for [k >= 1] consecutive frames, the allocator succeeds exactly
    when the bitmap has a run of [k] free frames; it then returns the start
    of the leftmost such run, all of whose frames were free before the call,
    marks exactly those [k] frames allocated and leaves every other frame as
    it was; otherwise it returns -1 and leaves the bitmap unchanged. *)
Theorem find_and_allocate_first_fit (k : Z) (frames : list bool) :
  1 <= k →
  Z.of_nat (length frames) <= Int.max_signed →
  let frames' := (MMU.find_and_allocate_physical_frames k frames).1 in
  let r := (MMU.find_and_allocate_physical_frames k frames).2 in
  ((∃ s : nat, free_run frames s (Z.to_nat k)) ↔ r ≠ -1)
  ∧ (r = -1 → frames' = frames)
  ∧ (r ≠ -1 →
     ∃ s : nat,
       r = Z.of_nat s
       ∧ free_run frames s (Z.to_nat k)
       ∧ (∀ s' : nat, (s' < s)%nat → ¬ free_run frames s' (Z.to_nat k))
       ∧ length frames' = length frames
       ∧ (∀ j : nat, (s <= j < s + Z.to_nat k)%nat →
            frames' !! j = Some true)
       ∧ (∀ j : nat, ¬ (s <= j < s + Z.to_nat k)%nat →
            frames' !! j = frames !! j)).
Proof. exact (find_and_allocate_spec k frames). Qed.

Lemma find_and_allocate_first_fit_witness :
  MMU.find_and_allocate_physical_frames 2
    [true; false; true; false; false; false]
    = ([true; false; true; true; true; false], 3)
  ∧ ∃ s : nat, 3 = Z.of_nat s
      ∧ free_run [true; false; true; false; false; false] s 2
      ∧ ∀ s' : nat, (s' < s)%nat →
          ¬ free_run [true; false; true; false; false; false] s' 2.
Proof.
  split; [reflexivity|].
  assert (1 <= 2) as Hk by lia.
  assert (Z.of_nat (length [true; false; true; false; false; false])
          <= Int.max_signed) as Hlen by (vm_compute; discriminate).
  destruct (find_and_allocate_first_fit 2 _ Hk Hlen) as (_ & _ & Hfound).
  assert ((MMU.find_and_allocate_physical_frames 2
             [true; false; true; false; false; false]).2 ≠ -1) as Hr
    by (vm_compute; discriminate).
  destruct (Hfound Hr) as (s & Hs & Hrun & Hleft & _).
  exists s. split_and!; [exact Hs|exact Hrun|exact Hleft].
Defined.

(** ** Allocation *)

Lemma find_fails_unchanged k frames :
  1 <= k → Z.of_nat (length frames) <= Int.max_signed →
  (MMU.find_and_allocate_physical_frames k frames).2 = -1 →
  (MMU.find_and_allocate_physical_frames k frames).1 = frames.
Proof.
  intros Hk Hlen Hr.
  destruct (find_and_allocate_spec k frames Hk Hlen) as (_ & Hfail & _).
  by apply Hfail.
Qed.

Lemma find_succeeds_grows k frames :
  1 <= k → Z.of_nat (length frames) <= Int.max_signed →
  (MMU.find_and_allocate_physical_frames k frames).2 ≠ -1 →
  length (MMU.find_and_allocate_physical_frames k frames).1 = length frames
  ∧ ∀ idx : nat, frames !! idx = Some true →
      (MMU.find_and_allocate_physical_frames k frames).1 !! idx = Some true.
Proof.
  intros Hk Hlen Hr.
  destruct (find_and_allocate_spec k frames Hk Hlen) as (_ & _ & Hok).
  destruct (Hok Hr) as (s & _ & _ & _ & Hl & Hin & Hout).
  split; [done|]. intros idx Hidx.
  destruct (decide (s <= idx < s + Z.to_nat k)%nat) as [Hrun|Hrun].
  - by apply Hin.
  - by rewrite Hout.
Qed.

Lemma frames_per_page_cases pe request_size :
  Int.div (decide_page_size pe request_size) SMALL_PAGE_SIZE = 1
  ∨ Int.div (decide_page_size pe request_size) SMALL_PAGE_SIZE = 512.
Proof.
  destruct (decide_page_size_cases pe request_size) as [-> | ->];
    [by left|by right].
Qed.

Lemma mmu_extends_refl m : mmu_extends m m.
Proof. by unfold mmu_extends. Qed.

Lemma mmu_extends_trans m1 m2 m3 :
  mmu_extends m1 m2 → mmu_extends m2 m3 → mmu_extends m1 m3.
Proof.
  intros (Ht & Hp & Hf & Hl & He & Hb) (Ht' & Hp' & Hf' & Hl' & He' & Hb').
  unfold mmu_extends. split_and!; try congruence; eauto.
Qed.

Lemma with_frames_id m : MMU.with_frames m (MMU.physical_frames m) = m.
Proof. by destruct m. Qed.

(** One iteration of the loop on a page that has an entry: it is skipped. *)
Lemma allocate_pages_present page_size va n i m e :
  MMU.page_table m !! Int.add (Int.div va page_size) i = Some e →
  MMU.allocate_pages page_size va (S n) i m
    = MMU.allocate_pages page_size va n (Int.add i 1) m.
Proof. intros He. cbn [MMU.allocate_pages]. by rewrite He. Qed.

(** One iteration on a page without entry, the allocator failing. *)
Lemma allocate_pages_fails page_size va n i m :
  1 <= Int.div page_size SMALL_PAGE_SIZE →
  Z.of_nat (length (MMU.physical_frames m)) <= Int.max_signed →
  MMU.page_table m !! Int.add (Int.div va page_size) i = None →
  (MMU.find_and_allocate_physical_frames (Int.div page_size SMALL_PAGE_SIZE)
     (MMU.physical_frames m)).2 = -1 →
  MMU.allocate_pages page_size va (S n) i m
    = (m, Throws "Out of physical memory").
Proof.
  intros Hk Hlen Hnone Hfail. cbn [MMU.allocate_pages]. rewrite Hnone.
  pose proof (find_fails_unchanged _ _ Hk Hlen Hfail) as Hsame.
  destruct (MMU.find_and_allocate_physical_frames _ _) as [frames r].
  cbn [fst snd] in *. subst r frames. cbn. by rewrite with_frames_id.
Qed.

(** One iteration on a page without entry, the allocator succeeding. *)
Lemma allocate_pages_creates page_size va n i m :
  MMU.page_table m !! Int.add (Int.div va page_size) i = None →
  (MMU.find_and_allocate_physical_frames (Int.div page_size SMALL_PAGE_SIZE)
     (MMU.physical_frames m)).2 ≠ -1 →
  MMU.allocate_pages page_size va (S n) i m
    = MMU.allocate_pages page_size va n (Int.add i 1)
        (MMU.with_page
           (MMU.with_frames m
              (MMU.find_and_allocate_physical_frames
                 (Int.div page_size SMALL_PAGE_SIZE)
                 (MMU.physical_frames m)).1)
           (Int.add (Int.div va page_size) i)
           ((MMU.find_and_allocate_physical_frames
               (Int.div page_size SMALL_PAGE_SIZE)
               (MMU.physical_frames m)).2, page_size)).
Proof.
  intros Hnone Hok. cbn [MMU.allocate_pages]. rewrite Hnone.
  destruct (MMU.find_and_allocate_physical_frames _ _) as [frames r].
  cbn [fst snd] in *. by destruct (Z.eqb_spec r (-1)).
Qed.

Lemma created_extends page_size m vpn :
  1 <= Int.div page_size SMALL_PAGE_SIZE →
  Z.of_nat (length (MMU.physical_frames m)) <= Int.max_signed →
  MMU.page_table m !! vpn = None →
  (MMU.find_and_allocate_physical_frames (Int.div page_size SMALL_PAGE_SIZE)
     (MMU.physical_frames m)).2 ≠ -1 →
  mmu_extends m
    (MMU.with_page
       (MMU.with_frames m
          (MMU.find_and_allocate_physical_frames
             (Int.div page_size SMALL_PAGE_SIZE) (MMU.physical_frames m)).1)
       vpn
       ((MMU.find_and_allocate_physical_frames
           (Int.div page_size SMALL_PAGE_SIZE) (MMU.physical_frames m)).2,
        page_size)).
Proof.
  intros Hk Hlen Hnone Hok.
  destruct (find_succeeds_grows _ _ Hk Hlen Hok) as [Hl Hb].
  unfold mmu_extends. cbn. split_and!; try done.
  intros v e Hv. rewrite lookup_insert_ne; [done|]. intros ->. congruence.
Qed.

Lemma allocate_pages_extends page_size va n : ∀ i m,
  1 <= Int.div page_size SMALL_PAGE_SIZE →
  Z.of_nat (length (MMU.physical_frames m)) <= Int.max_signed →
  mmu_extends m (MMU.allocate_pages page_size va n i m).1.
Proof.
  induction n as [|n IH]; intros i m Hk Hlen; [apply mmu_extends_refl|].
  destruct (MMU.page_table m !! Int.add (Int.div va page_size) i)
    as [e|] eqn:He.
  - rewrite (allocate_pages_present _ _ _ _ _ e) by done. by apply IH.
  - destruct (decide ((MMU.find_and_allocate_physical_frames
        (Int.div page_size SMALL_PAGE_SIZE) (MMU.physical_frames m)).2 = -1))
      as [Hfail|Hok].
    + rewrite allocate_pages_fails by done. apply mmu_extends_refl.
    + rewrite allocate_pages_creates by done.
      pose proof (created_extends page_size m _ Hk Hlen He Hok) as Hext.
      eapply mmu_extends_trans; [exact Hext|]. apply IH; [done|].
      destruct Hext as (_ & _ & _ & -> & _). done.
Qed.

Lemma loop_var_succ (i : nat) :
  Z.of_nat (S i) <= Int.max_signed →
  Int.add (Z.of_nat i) 1 = Z.of_nat (S i).
Proof.
  intros Hi. unfold Int.add. rewrite wrap_id; [lia|].
  unfold Int.in_range, Int.min_signed, Int.max_signed in *. lia.
Qed.

(** A loop that ends normally has given an entry to each of its pages, and
    every entry it added is one of theirs, with the page size of the
    request. *)
Lemma allocate_pages_normal page_size va n : ∀ (i : nat) m m',
  1 <= Int.div page_size SMALL_PAGE_SIZE →
  Z.of_nat (length (MMU.physical_frames m)) <= Int.max_signed →
  Z.of_nat (i + n) <= Int.max_signed →
  MMU.allocate_pages page_size va n (Z.of_nat i) m = (m', Normal tt) →
  (∀ j : nat, (i <= j < i + n)%nat →
     is_Some (MMU.page_table m' !! request_vpn page_size va j))
  ∧ (∀ v, MMU.page_table m' !! v = MMU.page_table m !! v
        ∨ (MMU.page_table m !! v = None
           ∧ ∃ (j : nat) (f : Z), (i <= j < i + n)%nat
               ∧ v = request_vpn page_size va j
               ∧ MMU.page_table m' !! v = Some (f, page_size))).
Proof.
  induction n as [|n IH]; intros i m m' Hk Hlen Hin Hrun.
  - cbn in Hrun. injection Hrun as <-. split; [lia|]. by left.
  - pose proof (allocate_pages_extends page_size va n (Z.of_nat (S i))) as Hext.
    destruct (MMU.page_table m !! Int.add (Int.div va page_size) (Z.of_nat i))
      as [e|] eqn:He.
    + rewrite (allocate_pages_present _ _ _ _ _ e) in Hrun by done.
      rewrite loop_var_succ in Hrun by lia.
      destruct (IH (S i) m m' Hk Hlen ltac:(lia) Hrun) as [Hall Hnew].
      specialize (Hext m Hk Hlen). rewrite Hrun in Hext.
      destruct Hext as (_ & _ & _ & _ & Hpt & _). split.
      * intros j Hj. destruct (decide (j = i)) as [->|Hne].
        -- exists e. by apply Hpt.
        -- apply Hall. lia.
      * intros v. destruct (Hnew v) as [?|(? & j & f & ? & ? & ?)];
          [by left|right]. split; [done|]. exists j, f. split; [lia|by split].
    + destruct (decide ((MMU.find_and_allocate_physical_frames
          (Int.div page_size SMALL_PAGE_SIZE) (MMU.physical_frames m)).2 = -1))
        as [Hfail|Hok].
      { by rewrite allocate_pages_fails in Hrun by done. }
      rewrite allocate_pages_creates in Hrun by done.
      rewrite loop_var_succ in Hrun by lia.
      pose proof (created_extends page_size m _ Hk Hlen He Hok) as Hext1.
      set (m2 := MMU.with_page _ _ _) in *.
      assert (Z.of_nat (length (MMU.physical_frames m2)) <= Int.max_signed)
        as Hlen2 by (destruct Hext1 as (_ & _ & _ & -> & _); done).
      destruct (IH (S i) m2 m' Hk Hlen2 ltac:(lia) Hrun) as [Hall Hnew].
      specialize (Hext m2 Hk Hlen2). rewrite Hrun in Hext.
      destruct Hext as (_ & _ & _ & _ & Hpt & _).
      assert (MMU.page_table m2 !! request_vpn page_size va i
              = Some ((MMU.find_and_allocate_physical_frames
                         (Int.div page_size SMALL_PAGE_SIZE)
                         (MMU.physical_frames m)).2, page_size)) as Hi
        by apply lookup_insert_eq.
      split.
      * intros j Hj. destruct (decide (j = i)) as [->|Hne].
        -- eexists. by apply Hpt.
        -- apply Hall. lia.
      * intros v. destruct (decide (v = request_vpn page_size va i)) as [->|Hv].
        -- right. split; [done|]. eexists i, _. split; [lia|]. split; [done|].
           by apply Hpt.
        -- assert (MMU.page_table m2 !! v = MMU.page_table m !! v) as Hsame
             by by apply lookup_insert_ne.
           rewrite <- Hsame.
           destruct (Hnew v) as [?|(? & j & f & ? & ? & ?)]; [by left|right].
           split; [done|]. exists j, f. split; [lia|by split].
Qed.

(** A loop that throws has gone normally through a prefix of its pages, and
    stopped in the state it had reached, at a page without entry for which
    the allocator has no frames. *)
Lemma allocate_pages_throws page_size va n : ∀ (i : nat) m m' what,
  1 <= Int.div page_size SMALL_PAGE_SIZE →
  Z.of_nat (length (MMU.physical_frames m)) <= Int.max_signed →
  Z.of_nat (i + n) <= Int.max_signed →
  MMU.allocate_pages page_size va n (Z.of_nat i) m = (m', Throws what) →
  what = "Out of physical memory"%string
  ∧ ∃ d : nat, (d < n)%nat
      ∧ MMU.allocate_pages page_size va d (Z.of_nat i) m = (m', Normal tt)
      ∧ MMU.page_table m' !! request_vpn page_size va (i + d) = None
      ∧ (MMU.find_and_allocate_physical_frames
           (Int.div page_size SMALL_PAGE_SIZE) (MMU.physical_frames m')).2
        = -1.
Proof.
  induction n as [|n IH]; intros i m m' what Hk Hlen Hin Hrun; [done|].
  destruct (MMU.page_table m !! Int.add (Int.div va page_size) (Z.of_nat i))
    as [e|] eqn:He.
  - rewrite (allocate_pages_present _ _ _ _ _ e) in Hrun by done.
    rewrite loop_var_succ in Hrun by lia.
    destruct (IH (S i) m m' what Hk Hlen ltac:(lia) Hrun)
      as (-> & d & Hd & Hpre & Hnone & Hfail).
    split; [done|]. exists (S d). split_and!; [lia| |by rewrite Nat.add_succ_r|done].
    rewrite (allocate_pages_present _ _ _ _ _ e) by done.
    by rewrite loop_var_succ by lia.
  - destruct (decide ((MMU.find_and_allocate_physical_frames
        (Int.div page_size SMALL_PAGE_SIZE) (MMU.physical_frames m)).2 = -1))
      as [Hfail|Hok].
    + rewrite allocate_pages_fails in Hrun by done.
      injection Hrun as <- <-. split; [done|]. exists 0%nat.
      split_and!; [lia|done| |done]. by rewrite Nat.add_0_r.
    + rewrite allocate_pages_creates in Hrun by done.
      rewrite loop_var_succ in Hrun by lia.
      pose proof (created_extends page_size m _ Hk Hlen He Hok) as Hext1.
      set (m2 := MMU.with_page _ _ _) in *.
      assert (Z.of_nat (length (MMU.physical_frames m2)) <= Int.max_signed)
        as Hlen2 by (destruct Hext1 as (_ & _ & _ & -> & _); done).
      destruct (IH (S i) m2 m' what Hk Hlen2 ltac:(lia) Hrun)
        as (-> & d & Hd & Hpre & Hnone & Hfail).
      split; [done|]. exists (S d).
      split_and!; [lia| |by rewrite Nat.add_succ_r|done].
      rewrite allocate_pages_creates by done.
      by rewrite loop_var_succ by lia.
Qed.

(** The loop run for [d + r] pages is the loop run for [d] pages and then,
    if that ends normally, for [r] more. *)
Lemma allocate_pages_split page_size va d r : ∀ (i : nat) m md,
  Z.of_nat (i + d) <= Int.max_signed →
  MMU.allocate_pages page_size va d (Z.of_nat i) m = (md, Normal tt) →
  MMU.allocate_pages page_size va (d + r) (Z.of_nat i) m
    = MMU.allocate_pages page_size va r (Z.of_nat (i + d)) md.
Proof.
  induction d as [|d IH]; intros i m md Hin Hrun.
  - cbn in Hrun. injection Hrun as <-. by rewrite Nat.add_0_r.
  - cbn [MMU.allocate_pages Nat.add] in *.
    rewrite loop_var_succ in * by lia.
    replace (i + S d)%nat with (S i + d)%nat by lia.
    destruct (MMU.page_table m !! Int.add (Int.div va page_size) (Z.of_nat i)).
    + apply IH; [lia|done].
    + destruct (MMU.find_and_allocate_physical_frames _ _) as [frames f].
      destruct (f =? -1); [done|]. apply IH; [lia|done].
Qed.

(** The loop never touches the fragmentation counter, the policy or the
    TLB, whatever the bitmap is. *)
Lemma allocate_pages_fragmentation page_size va n : ∀ i m,
  MMU.internal_fragmentation (MMU.allocate_pages page_size va n i m).1
    = MMU.internal_fragmentation m.
Proof.
  induction n as [|n IH]; intros i m; cbn [MMU.allocate_pages]; [done|].
  destruct (MMU.page_table m !! _); [apply IH|].
  destruct (MMU.find_and_allocate_physical_frames _ _) as [frames f].
  destruct (f =? -1); [done|]. by rewrite IH.
Qed.

(** The loop keeps every entry it finds, and the entries it adds carry the
    page size of the request. *)
Lemma allocate_pages_keeps page_size va n : ∀ i m v e,
  MMU.page_table m !! v = Some e →
  MMU.page_table (MMU.allocate_pages page_size va n i m).1 !! v = Some e.
Proof.
  induction n as [|n IH]; intros i m v e Hv; cbn [MMU.allocate_pages]; [done|].
  destruct (MMU.page_table m !! Int.add (Int.div va page_size) i) eqn:Hi;
    [by apply IH|].
  destruct (MMU.find_and_allocate_physical_frames _ _) as [frames f].
  destruct (f =? -1); [done|]. apply IH. cbn.
  rewrite lookup_insert_ne; [done|]. intros <-. congruence.
Qed.

Lemma allocate_pages_entries page_size va n : ∀ i m v e,
  MMU.page_table (MMU.allocate_pages page_size va n i m).1 !! v = Some e →
  MMU.page_table m !! v = Some e
  ∨ (MMU.page_table m !! v = None ∧ e.2 = page_size).
Proof.
  induction n as [|n IH]; intros i m v e; cbn [MMU.allocate_pages];
    [by left|].
  destruct (MMU.page_table m !! Int.add (Int.div va page_size) i) eqn:Hi;
    [by apply IH|].
  destruct (MMU.find_and_allocate_physical_frames _ _) as [frames f].
  destruct (f =? -1); [by left|]. intros Hv.
  apply IH in Hv. cbn in Hv.
  destruct (decide (Int.add (Int.div va page_size) i = v)) as [<-|Hne].
  - rewrite lookup_insert_eq in Hv. right. split; [done|].
    destruct Hv as [[= <-]|[? _]]; done.
  - by rewrite lookup_insert_ne in Hv.
Qed.

(** When every page of the loop has an entry, the loop changes nothing. *)
Lemma allocate_pages_all_present page_size va n : ∀ (i : nat) m,
  Z.of_nat (i + n) <= Int.max_signed →
  (∀ j : nat, (i <= j < i + n)%nat →
     is_Some (MMU.page_table m !! request_vpn page_size va j)) →
  MMU.allocate_pages page_size va n (Z.of_nat i) m = (m, Normal tt).
Proof.
  induction n as [|n IH]; intros i m Hin Hall; [done|].
  destruct (Hall i ltac:(lia)) as [e He].
  rewrite (allocate_pages_present _ _ _ _ _ e) by done.
  rewrite loop_var_succ by lia. apply IH; [lia|].
  intros j Hj. apply Hall. lia.
Qed.

Lemma allocate_unfold va size m :
  MMU.allocate va size m
    = MMU.allocate_pages (decide_page_size (MMU.policy_engine m) size) va
        (request_pages m va size) (Z.of_nat 0) (charged m va size).
Proof. reflexivity. Qed.

Lemma request_pages_bound m va size :
  Z.of_nat (request_pages m va size) <= Int.max_signed.
Proof.
  unfold request_pages.
  set (np := Int.add _ 1). pose proof (wrap_in_range (Int.sub
    (Int.div (Int.sub (Int.add va size) 1)
       (decide_page_size (MMU.policy_engine m) size))
    (Int.div va (decide_page_size (MMU.policy_engine m) size)) + 1)) as Hr.
  fold (Int.add (Int.sub
    (Int.div (Int.sub (Int.add va size) 1)
       (decide_page_size (MMU.policy_engine m) size))
    (Int.div va (decide_page_size (MMU.policy_engine m) size))) 1) in Hr.
  fold np in Hr. unfold Int.in_range, Int.min_signed, Int.max_signed in *.
  lia.
Qed.

(** Every call charges the counter, whatever the outcome. *)
Lemma allocate_fragmentation va size m :
  MMU.internal_fragmentation (MMU.allocate va size m).1
    = Int.add (MMU.internal_fragmentation m)
        (fragmentation_charge
           (decide_page_size (MMU.policy_engine m) size) va size).
Proof. rewrite allocate_unfold. by rewrite allocate_pages_fragmentation. Qed.

(** The charge as a mathematical integer, when the last address of the
    request fits an [int]. *)
Lemma fragmentation_charge_exact page_size va size :
  page_size = SMALL_PAGE_SIZE ∨ page_size = LARGE_PAGE_SIZE →
  Int.in_range va → Int.in_range size → Int.in_range (va + size - 1) →
  fragmentation_charge page_size va size
    = ((va + size - 1) ÷ page_size - va ÷ page_size + 1) * page_size - size.
Proof.
  intros Hps Hva Hsize Hlast. unfold fragmentation_charge.
  assert (0 < page_size <= 2097152) as Hpos
    by (destruct Hps as [-> | ->]; done).
  assert (Int.sub (Int.add va size) 1 = va + size - 1) as ->.
  { unfold Int.sub, Int.add. rewrite wrap_sub_l. by apply wrap_id. }
  rewrite !div_pos_exact by (done || lia).
  unfold Int.mul, Int.sub, Int.add.
  rewrite wrap_add_l, wrap_mul_l, wrap_sub_l.
  apply wrap_id.
  pose proof (Z.quot_rem' va page_size) as Hq1.
  pose proof (Z.rem_bound_abs va page_size ltac:(lia)) as Hr1.
  pose proof (Z.quot_rem' (va + size - 1) page_size) as Hq2.
  pose proof (Z.rem_bound_abs (va + size - 1) page_size ltac:(lia)) as Hr2.
  unfold Int.in_range, Int.min_signed, Int.max_signed in *. lia.
Qed.

(** C6: [allocate] throws exactly when its loop, having gone normally
    through the pages before some page [j] of the request, finds that page
    without entry and the allocator without frames for it; the exception is
    "Out of physical memory"; the state left behind is the very state the
    loop had reached before page [j], so no later page is processed and
    nothing is undone: every entry the page table had before the call is
    still there with the same frame and page size, the pages of the request
    before [j] have their entries, the page table differs from the one
    before the call at those pages only, and no allocated frame was
    released. *)
Theorem allocate_out_of_memory (m m' : MMU.t) (va size : Z) :
  Z.of_nat (length (MMU.physical_frames m)) <= Int.max_signed →
  (∀ what : string,
     MMU.allocate va size m = (m', Throws what)
     ↔ what = "Out of physical memory"%string
       ∧ ∃ j : nat, out_of_memory_at m va size j m')
  ∧ (∀ j : nat, out_of_memory_at m va size j m' →
       let page_size := decide_page_size (MMU.policy_engine m) size in
       (∀ v e, MMU.page_table m !! v = Some e →
               MMU.page_table m' !! v = Some e)
       ∧ (∀ i : nat, (i < j)%nat →
            is_Some (MMU.page_table m' !! request_vpn page_size va i))
       ∧ (∀ v, MMU.page_table m' !! v = MMU.page_table m !! v
               ∨ ∃ i : nat, (i < j)%nat ∧ v = request_vpn page_size va i)
       ∧ (∀ idx : nat, MMU.physical_frames m !! idx = Some true →
            MMU.physical_frames m' !! idx = Some true)).
Proof.
  intros Hlen.
  set (page_size := decide_page_size (MMU.policy_engine m) size).
  assert (1 <= Int.div page_size SMALL_PAGE_SIZE) as Hk
    by (destruct (frames_per_page_cases (MMU.policy_engine m) size)
          as [Hc|Hc]; unfold page_size; rewrite Hc; lia).
  pose proof (request_pages_bound m va size) as Hn.
  assert (∀ j : nat, out_of_memory_at m va size j m' →
            mmu_extends (charged m va size) m') as Hext.
  { intros j (_ & Hpre & _).
    pose proof (allocate_pages_extends page_size va j 0
                  (charged m va size) Hk Hlen) as Hext.
    fold page_size in Hpre. by rewrite Hpre in Hext. }
  split.
  - intros what. rewrite allocate_unfold. fold page_size. split.
    + intros Hrun.
      destruct (allocate_pages_throws page_size va _ 0 (charged m va size)
                  _ _ Hk Hlen Hn Hrun) as (-> & d & Hd & Hpre & Hnone & Hfail).
      split; [done|]. exists d. unfold out_of_memory_at. fold page_size.
      by split_and!.
    + intros (-> & j & Hoom). pose proof (Hext j Hoom) as Hm'.
      destruct Hoom as (Hj & Hpre & Hnone & Hfail).
      fold page_size in Hpre, Hnone, Hfail.
      replace (request_pages m va size)
        with (j + S (request_pages m va size - S j))%nat by lia.
      rewrite (allocate_pages_split page_size va j _ 0 _ m')
        by (done || lia).
      apply allocate_pages_fails; [done| |done|done].
      destruct Hm' as (_ & _ & _ & -> & _). exact Hlen.
  - intros j Hoom. pose proof (Hext j Hoom) as (_ & _ & _ & _ & Hpt & Hfr).
    destruct Hoom as (Hj & Hpre & Hnone & Hfail).
    fold page_size in Hpre, Hnone, Hfail.
    assert (Z.of_nat (0 + j) <= Int.max_signed) as Hj0 by lia.
    destruct (allocate_pages_normal page_size va j 0 (charged m va size)
                _ Hk Hlen Hj0 Hpre) as [Hall Hnew].
    split_and!; [exact Hpt| |  |exact Hfr].
    + intros i Hi. apply Hall. lia.
    + intros v. destruct (Hnew v) as [?|(_ & i & f & Hi & -> & _)];
        [by left|right]. exists i. split; [lia|done].
Qed.

Lemma allocate_out_of_memory_witness :
  let m :=
    {| MMU.tlb := TLB.new TLB_SIZE;
       MMU.page_table := {[7 := (0, 4096)]};
       MMU.policy_engine := mkPolicyEngine "small" 1048576;
       MMU.physical_frames := [true; false];
       MMU.internal_fragmentation := 0 |} in
  ∃ m',
    MMU.allocate 0 12288 m = (m', Throws "Out of physical memory")
    ∧ MMU.page_table m' = {[7 := (0, 4096); 0 := (1, 4096)]}
    ∧ MMU.page_table m' !! 7 = Some (0, 4096)
    ∧ MMU.physical_frames m' = [true; true].
Proof.
  intros m. eexists. split; [reflexivity|].
  pose proof (allocate_out_of_memory m (MMU.allocate 0 12288 m).1 0 12288)
    as Hthm.
  assert (Z.of_nat (length (MMU.physical_frames m)) <= Int.max_signed)
    as Hlen by (vm_compute; discriminate).
  destruct (Hthm Hlen) as [Hiff Hkeep].
  destruct (proj1 (Hiff "Out of physical memory"%string) eq_refl)
    as (_ & j & Hoom).
  destruct (Hkeep j Hoom) as (Hpt & _).
  split_and!; [reflexivity|apply Hpt; reflexivity|reflexivity].
Defined.

(** The charge of a request that fails. When [allocate] throws, the
    fragmentation counter of the state it leaves is the counter before the
    call charged with the full contribution of the request (the [+=] of
    line 123, not undone); when the last address of the request and the
    charged counter fit an [int], that is
    [num_pages * page_size - request_size] more than before the call, with
    [num_pages] counted from the first and last page of the request. *)
Theorem failed_allocate_is_charged (m m' : MMU.t) (va size : Z)
    (what : string) :
  MMU.allocate va size m = (m', Throws what) →
  let page_size := decide_page_size (MMU.policy_engine m) size in
  let first_vpn := va ÷ page_size in
  let last_vpn := (va + size - 1) ÷ page_size in
  let num_pages := last_vpn - first_vpn + 1 in
  MMU.get_internal_fragmentation m'
    = Int.add (MMU.get_internal_fragmentation m)
        (fragmentation_charge page_size va size)
  ∧ (Int.in_range va → Int.in_range size → Int.in_range (va + size - 1) →
     Int.in_range (MMU.get_internal_fragmentation m
                   + (num_pages * page_size - size)) →
     MMU.get_internal_fragmentation m'
       = MMU.get_internal_fragmentation m + (num_pages * page_size - size)).
Proof.
  intros Hrun page_size first_vpn last_vpn num_pages.
  pose proof (allocate_fragmentation va size m) as Hfrag.
  rewrite Hrun in Hfrag. cbn [fst] in Hfrag.
  unfold MMU.get_internal_fragmentation. split; [exact Hfrag|].
  intros Hva Hsize Hlast Hsum. rewrite Hfrag.
  rewrite fragmentation_charge_exact
    by (done || apply decide_page_size_cases).
  unfold Int.add. by apply wrap_id.
Qed.

Lemma failed_allocate_is_charged_witness :
  let m :=
    {| MMU.tlb := TLB.new TLB_SIZE;
       MMU.page_table := ∅;
       MMU.policy_engine := mkPolicyEngine "small" 1048576;
       MMU.physical_frames := [true; false];
       MMU.internal_fragmentation := 100 |} in
  (MMU.allocate 4096 5000 m).2 = Throws "Out of physical memory"
  ∧ MMU.get_internal_fragmentation (MMU.allocate 4096 5000 m).1
    = 100 + (2 * 4096 - 5000).
Proof.
  intros m. split; [reflexivity|].
  assert (MMU.allocate 4096 5000 m
          = ((MMU.allocate 4096 5000 m).1, Throws "Out of physical memory"))
    as Hrun by reflexivity.
  destruct (failed_allocate_is_charged m _ 4096 5000 _ Hrun) as [_ Hexact].
  apply Hexact; vm_compute; split; discriminate.
Defined.

(** C10: [allocate] never changes an entry of the page table. Every entry
    present before the call is present after it with the same frame and the
    same page size, whatever page size the call selected; in the loop, a
    page that has an entry is passed over, the state being left as it is;
    when every page of the request has an entry, the call changes nothing
    but the fragmentation counter; an entry found after the call either was
    there before or is new and carries the page size the call selected; and
    [translate] leaves the page table as it is. *)
Theorem allocate_keeps_entries (m : MMU.t) (va size : Z) :
  let page_size := decide_page_size (MMU.policy_engine m) size in
  let m' := (MMU.allocate va size m).1 in
  (∀ v e, MMU.page_table m !! v = Some e → MMU.page_table m' !! v = Some e)
  ∧ (∀ (n : nat) (i : Z) (m1 : MMU.t) (e : Z * Z),
       MMU.page_table m1 !! Int.add (Int.div va page_size) i = Some e →
       MMU.allocate_pages page_size va (S n) i m1
         = MMU.allocate_pages page_size va n (Int.add i 1) m1)
  ∧ ((∀ j : nat, (j < request_pages m va size)%nat →
        is_Some (MMU.page_table m !! request_vpn page_size va j)) →
     MMU.allocate va size m = (charged m va size, Normal tt))
  ∧ (∀ v e, MMU.page_table m' !! v = Some e →
       MMU.page_table m !! v = Some e
       ∨ (MMU.page_table m !! v = None ∧ e.2 = page_size))
  ∧ (∀ (a : Z) (m2 : MMU.t) (r : outcome Z),
       MMU.translate a m = Some (m2, r) →
       MMU.page_table m2 = MMU.page_table m).
Proof.
  intros page_size m'. subst m'. rewrite allocate_unfold. fold page_size.
  split_and!.
  - intros v e Hv. by apply allocate_pages_keeps.
  - intros n i m1 e He. by apply (allocate_pages_present _ _ _ _ _ e).
  - intros Hall. apply allocate_pages_all_present.
    + pose proof (request_pages_bound m va size). lia.
    + intros j Hj. apply Hall. lia.
  - intros v e Hv. by apply allocate_pages_entries in Hv.
  - intros a m2 r. unfold MMU.translate.
    destruct (MMU.resolve a m) as [vpn|]; [|by intros [= <- _]].
    destruct (TLB.lookup vpn (MMU.tlb m)) as [tl pf].
    destruct (pf =? -1); [|by intros [= <- _]].
    destruct (TLB.insert _ _ tl); [|done]. by intros [= <- _].
Qed.

(** ** The fragmentation counter over a run *)

Lemma allocate_pages_policy page_size va n : ∀ i m,
  MMU.policy_engine (MMU.allocate_pages page_size va n i m).1
    = MMU.policy_engine m.
Proof.
  induction n as [|n IH]; intros i m; cbn [MMU.allocate_pages]; [done|].
  destruct (MMU.page_table m !! _); [apply IH|].
  destruct (MMU.find_and_allocate_physical_frames _ _) as [frames f].
  destruct (f =? -1); [done|]. by rewrite IH.
Qed.

Lemma allocate_policy va size m :
  MMU.policy_engine (MMU.allocate va size m).1 = MMU.policy_engine m.
Proof. rewrite allocate_unfold. by rewrite allocate_pages_policy. Qed.

(** After any sequence of calls whose requests fit an [int], the counter is
    the 32-bit wrap-around of the sum of the contributions. *)
Lemma cumulative_fragmentation requests : ∀ m,
  Int.in_range (MMU.internal_fragmentation m) →
  Forall (λ request : Z * Z,
            Int.in_range request.1 ∧ Int.in_range request.2
            ∧ Int.in_range (request.1 + request.2 - 1)) requests →
  MMU.internal_fragmentation (allocate_all requests m)
    = Int.wrap (MMU.internal_fragmentation m
                + total_contribution (MMU.policy_engine m) requests).
Proof.
  induction requests as [|[va size] requests IH]; intros m Hm Hreq.
  - cbn. rewrite Z.add_0_r. symmetry. by apply wrap_id.
  - apply Forall_cons in Hreq as [(Hva & Hsize & Hlast) Hreq].
    change (allocate_all ((va, size) :: requests) m)
      with (allocate_all requests (MMU.allocate va size m).1).
    cbn [fst snd] in *.
    rewrite IH by (done || rewrite allocate_fragmentation; apply wrap_in_range).
    rewrite allocate_policy, allocate_fragmentation.
    cbn [total_contribution foldr].
    rewrite fragmentation_charge_exact
      by (done || apply decide_page_size_cases).
    unfold Int.add. rewrite wrap_add_l. f_equal.
    fold (total_contribution (MMU.policy_engine m) requests).
    unfold contribution. cbn [fst snd]. lia.
Qed.

(** C2 on the driver's own run: policy "large", the requests of
    [web_server_workload] in order. The first 1025 calls return normally and
    leave the counter at 2147473408, the sum of their contributions. The
    next request of the workload is (549466112, 10240); its contribution is
    [1 * 2097152 - 10240 = 2086912]; the call returns normally and leaves
    the counter at -2145406976, which is [2^32] less than the sum. *)
Theorem fragmentation_counter_wraps :
  let pe := PolicyEngine_new (Some "large"%string) None in
  let requests := take 1025 web_server_workload in
  let before := allocation_phase requests (MMU.new pe) in
  let after := MMU.allocate 549466112 10240 before.1 in
  web_server_workload !! 1025%nat = Some (549466112, 10240)
  ∧ before.2 = Normal tt
  ∧ MMU.get_internal_fragmentation before.1 = 2147473408
  ∧ total_contribution pe requests = 2147473408
  ∧ contribution pe (549466112, 10240) = 2086912
  ∧ after.2 = Normal tt
  ∧ MMU.get_internal_fragmentation after.1 = -2145406976
  ∧ MMU.get_internal_fragmentation after.1
    ≠ MMU.get_internal_fragmentation before.1
      + contribution pe (549466112, 10240).
Proof.
  vm_compute. repeat split. discriminate.
Qed.

(** ** Translation *)

(** C1 on two requests under the default policy (mode "dynamic", threshold
    1 MiB). [allocate(0, 4096)] selects the small page size and creates the
    entry of page 0. [allocate(0, 2097152)] selects the large page size; its
    only page is again numbered 0, which has an entry, so the call returns
    normally without creating anything. The address 1048576 lies in the
    second request, yet [translate] finds page 0 with the small size, finds
    no entry for the small page 256, and throws. *)
Theorem translate_throws_inside_request :
  let pe := PolicyEngine_new None None in
  let first := MMU.allocate 0 4096 (MMU.new pe) in
  let second := MMU.allocate 0 2097152 first.1 in
  first.2 = Normal tt
  ∧ second.2 = Normal tt
  ∧ 0 <= 1048576 < 0 + 2097152
  ∧ MMU.page_table second.1 = {[0 := (0, 4096)]}
  ∧ MMU.resolve 1048576 second.1 = None
  ∧ snd <$> MMU.translate 1048576 second.1
    = Some (Throws "Invalid virtual address").
Proof.
  vm_compute. repeat split; discriminate.
Qed.

(** An insertion into the TLB adds its pair to the cached ones and nothing
    else. *)
Lemma insert_map_lookup v f tl tl' x y :
  od_wf (TLB.cache tl) →
  TLB.insert v f tl = Some tl' →
  OrderedDict.map (TLB.cache tl') !! x = Some y →
  (x = v ∧ y = f) ∨ OrderedDict.map (TLB.cache tl) !! x = Some y.
Proof.
  intros Hwf Hins.
  assert (∃ k : option Z,
            OrderedDict.map (TLB.cache tl')
            = <[v := f]> (from_option (λ k, delete k) id k
                            (OrderedDict.map (TLB.cache tl)))) as [k ->].
  { destruct (OrderedDict.map (TLB.cache tl) !! v) as [f'|] eqn:Hv.
    - rewrite (insert_cached v f f') in Hins by done.
      injection Hins as <-. by exists None.
    - destruct (Z.lt_ge_cases (OrderedDict.size (TLB.cache tl))
                  (Int.to_size_t (TLB.tlb_size tl))) as [Hroom|Hfull].
      + rewrite insert_below_capacity in Hins by done.
        injection Hins as <-. by exists None.
      + destruct (OrderedDict.order (TLB.cache tl)) as [|k o] eqn:Ho.
        * unfold TLB.insert, OrderedDict.contains in Hins.
          rewrite bool_decide_eq_false_2 in Hins
            by (rewrite Hv; by intros [? ?]).
          destruct (Z.geb_spec (OrderedDict.size (TLB.cache tl))
                      (Int.to_size_t (TLB.tlb_size tl))); [|lia].
          unfold OrderedDict.get_order in Hins. by rewrite Ho in Hins.
        * rewrite (insert_evicts v f k o) in Hins by (done || lia).
          injection Hins as <-. by exists (Some k). }
  rewrite lookup_insert. case_decide as Hx.
  - intros [= <-]. by left.
  - intros Hy. right. destruct k as [k|]; cbn in Hy; [|done].
    rewrite lookup_delete in Hy. by case_decide.
Qed.

Lemma mmu_ok_new pe : mmu_ok (MMU.new pe).
Proof.
  split; [by apply tlb_inv_new|]. intros v f. cbn.
  by rewrite lookup_empty.
Qed.

Lemma resolve_Some a m v :
  MMU.resolve a m = Some v →
  ∃ f page_size, MMU.page_table m !! v = Some (f, page_size).
Proof.
  unfold MMU.resolve, MMU.mapped_with. intros Hres.
  repeat match type of Hres with
    | context [MMU.page_table m !! ?k] =>
        destruct (MMU.page_table m !! k) as [[? ?]|] eqn:?
    | context [if ?b then _ else _] => destruct b eqn:?
    end; simplify_eq; eauto.
Qed.

(** [translate] on a coherent MMU: it throws exactly when [resolve] finds
    no page, and otherwise yields the frame that the page table records for
    the page resolved, whether the TLB hits or misses; it changes the TLB
    only, and leaves the MMU coherent. *)
Lemma translate_resolved a m :
  mmu_ok m →
  ∃ m',
    MMU.translate a m
      = Some (m', match MMU.resolve a m with
                  | None => Throws "Invalid virtual address"
                  | Some v => Normal (default (0, 0) (MMU.page_table m !! v)).1
                  end)
    ∧ mmu_ok m'
    ∧ MMU.page_table m' = MMU.page_table m
    ∧ MMU.physical_frames m' = MMU.physical_frames m
    ∧ MMU.policy_engine m' = MMU.policy_engine m
    ∧ MMU.internal_fragmentation m' = MMU.internal_fragmentation m.
Proof.
  intros [Hinv Hcoh]. unfold MMU.translate.
  destruct (MMU.resolve a m) as [v|] eqn:Hres; [|by exists m].
  destruct (resolve_Some a m v Hres) as (f & sz & Hv). rewrite Hv.
  change (default (0, 0) (Some (f, sz))).1 with f.
  pose proof (tlb_inv_lookup TLB_SIZE v _ Hinv) as Hinv1.
  assert (∀ x y, OrderedDict.map (TLB.cache (TLB.lookup v (MMU.tlb m)).1) !! x
                 = Some y → OrderedDict.map (TLB.cache (MMU.tlb m)) !! x = Some y)
    as Hsame.
  { intros x y.
    destruct (OrderedDict.map (TLB.cache (MMU.tlb m)) !! v) as [f'|] eqn:Hc.
    - rewrite (lookup_hit v f') by done. cbn. by rewrite map_move_to_end.
    - by rewrite lookup_miss by done. }
  assert (∀ tl', TLB.insert v f (TLB.lookup v (MMU.tlb m)).1 = Some tl' →
            mmu_ok (MMU.with_tlb m tl')) as Hins_ok.
  { intros tl' Hins. split; cbn.
    - by apply (tlb_inv_insert TLB_SIZE v f
                  (TLB.lookup v (MMU.tlb m)).1 tl').
    - intros x y Hxy.
      destruct (insert_map_lookup v f (TLB.lookup v (MMU.tlb m)).1 tl' x y
                  (proj1 (proj2 Hinv1)) Hins Hxy)
        as [[-> ->]|Hold]; [eauto|].
      apply Hcoh. by apply Hsame. }
  assert (is_Some (TLB.insert v f (TLB.lookup v (MMU.tlb m)).1)) as [tl' Hins].
  { apply (insert_defined TLB_SIZE); [done|done]. }
  destruct (TLB.lookup v (MMU.tlb m)) as [tl pf] eqn:Hlook. cbn [fst] in *.
  destruct (Z.eqb_spec pf (-1)) as [->|Hpf].
  - rewrite Hins. cbn. exists (MMU.with_tlb m tl'). split; [done|].
    split; [by apply Hins_ok|done].
  - exists (MMU.with_tlb m tl).
    destruct (OrderedDict.map (TLB.cache (MMU.tlb m)) !! v) as [f'|] eqn:Hc.
    + rewrite (lookup_hit v f') in Hlook by done. injection Hlook as <- <-.
      destruct (Hcoh v f' Hc) as [sz' Hv']. rewrite Hv in Hv'.
      injection Hv' as <- <-. split; [done|]. split; [|done].
      split; [exact Hinv1|]. intros x y Hxy. apply Hcoh. by apply Hsame.
    + rewrite lookup_miss in Hlook by done. by injection Hlook as <- <-.
Qed.

(** Page numbers are small. *)
Lemma quot_page_bound x page_size :
  page_size = SMALL_PAGE_SIZE ∨ page_size = LARGE_PAGE_SIZE →
  Int.in_range x → -524288 <= x ÷ page_size <= 524288.
Proof.
  intros Hps Hx.
  pose proof (Z.quot_rem' x page_size) as Hq.
  pose proof (Z.rem_bound_abs x page_size) as Hr.
  unfold Int.in_range, Int.min_signed, Int.max_signed in Hx.
  destruct Hps as [-> | ->]; unfold SMALL_PAGE_SIZE, LARGE_PAGE_SIZE in *;
    lia.
Qed.

Lemma allocate_pages_tlb page_size va n : ∀ i m,
  MMU.tlb (MMU.allocate_pages page_size va n i m).1 = MMU.tlb m.
Proof.
  induction n as [|n IH]; intros i m; cbn [MMU.allocate_pages]; [done|].
  destruct (MMU.page_table m !! _); [apply IH|].
  destruct (MMU.find_and_allocate_physical_frames _ _) as [frames f].
  destruct (f =? -1); [done|]. by rewrite IH.
Qed.

Lemma allocate_ok va size m : mmu_ok m → mmu_ok (MMU.allocate va size m).1.
Proof.
  intros [Hinv Hcoh]. rewrite allocate_unfold. split.
  - by rewrite allocate_pages_tlb.
  - intros v f. rewrite allocate_pages_tlb. intros Hv.
    destruct (Hcoh v f Hv) as [sz Hsz]. exists sz.
    by apply allocate_pages_keeps.
Qed.

Lemma allocate_uniform va size m :
  uniform_pages (decide_page_size (MMU.policy_engine m) size) m →
  uniform_pages (decide_page_size (MMU.policy_engine m) size)
    (MMU.allocate va size m).1.
Proof.
  intros Huni v e. rewrite allocate_unfold. intros Hv.
  apply allocate_pages_entries in Hv as [Hold|[_ Hnew]]; [|done].
  by apply (Huni v).
Qed.

(** While the page table holds pages of one size only, the size the policy
    selects for the request, C1 holds: after a successful [allocate],
    [translate] of an address of the request yields the frame that the page
    table records for the page covering the address, whatever the TLB
    caches. *)
Lemma translate_within_request_uniform (m m' : MMU.t) (va size a : Z) :
  let page_size := decide_page_size (MMU.policy_engine m) size in
  mmu_ok m →
  Z.of_nat (length (MMU.physical_frames m)) <= Int.max_signed →
  uniform_pages page_size m →
  Int.in_range va → Int.in_range size → Int.in_range (va + size - 1) →
  MMU.allocate va size m = (m', Normal tt) →
  va <= a <= va + size - 1 →
  ∃ m'' f,
    MMU.translate a m' = Some (m'', Normal f)
    ∧ MMU.page_table m' !! (a ÷ page_size) = Some (f, page_size)
    ∧ MMU.page_table m'' = MMU.page_table m'.
Proof.
  intros page_size Hok Hlen Huni Hva Hsize Hlast Hrun Ha.
  assert (page_size = SMALL_PAGE_SIZE ∨ page_size = LARGE_PAGE_SIZE) as Hps
    by apply decide_page_size_cases.
  assert (0 < page_size <= 2097152) as Hpos
    by (destruct Hps as [-> | ->]; done).
  assert (1 <= Int.div page_size SMALL_PAGE_SIZE) as Hk
    by (destruct Hps as [-> | ->]; done).
  assert (Int.in_range a) as Hain
    by (unfold Int.in_range in *; lia).
  pose proof (Z.quot_le_mono va a page_size ltac:(lia) ltac:(lia)) as Hlo.
  pose proof (Z.quot_le_mono a (va + size - 1) page_size ltac:(lia)
                ltac:(lia)) as Hhi.
  assert (Int.div va page_size = va ÷ page_size) as Hfirst
    by (apply div_pos_exact; [done|lia]).
  assert (Int.div (Int.sub (Int.add va size) 1) page_size
          = (va + size - 1) ÷ page_size) as Hlastq.
  { unfold Int.sub, Int.add. rewrite wrap_sub_l, wrap_id by done.
    apply div_pos_exact; [done|lia]. }
  assert (Int.in_range (va ÷ page_size)
          ∧ Int.in_range (a ÷ page_size)
          ∧ Int.in_range ((va + size - 1) ÷ page_size)) as (Hr1 & Hr2 & Hr3).
  { rewrite <- !(div_pos_exact _ page_size) by (done || lia).
    split_and!; apply wrap_in_range. }
  (* the page of [a] is the [j]-th page of the request *)
  set (j := Z.to_nat (a ÷ page_size - va ÷ page_size)).
  assert (request_vpn page_size va j = a ÷ page_size) as Hvpn.
  { unfold request_vpn, Int.add. rewrite Hfirst. unfold j.
    rewrite Z2Nat.id by lia. rewrite <- (wrap_id (a ÷ page_size)) at 2 by done.
    f_equal. lia. }
  assert (j < request_pages m va size)%nat as Hj.
  { unfold request_pages. fold page_size. rewrite Hfirst, Hlastq.
    unfold Int.add, Int.sub. rewrite wrap_add_l.
    pose proof (quot_page_bound va page_size Hps Hva).
    pose proof (quot_page_bound (va + size - 1) page_size Hps Hlast).
    rewrite wrap_id by (unfold Int.in_range, Int.min_signed,
      Int.max_signed; lia).
    unfold j. lia. }
  rewrite allocate_unfold in Hrun. fold page_size in Hrun.
  pose proof (request_pages_bound m va size) as Hn.
  destruct (allocate_pages_normal page_size va _ 0 (charged m va size) m'
              Hk Hlen Hn Hrun) as [Hall _].
  destruct (Hall j ltac:(lia)) as [[f sz] He]. rewrite Hvpn in He.
  (* every entry of the new page table has the size of the request *)
  assert (uniform_pages page_size m') as Huni'.
  { pose proof (allocate_uniform va size m Huni) as Hu.
    rewrite allocate_unfold in Hu. fold page_size in Hu.
    by rewrite Hrun in Hu. }
  pose proof (Huni' _ _ He) as Hsz. cbn in Hsz. subst sz.
  assert (mmu_ok m') as Hok'.
  { pose proof (allocate_ok va size m Hok) as Ho.
    rewrite allocate_unfold in Ho. fold page_size in Ho.
    by rewrite Hrun in Ho. }
  assert (MMU.resolve a m' = Some (a ÷ page_size)) as Hres.
  { unfold MMU.resolve, MMU.mapped_with.
    rewrite !div_pos_exact by (done || unfold SMALL_PAGE_SIZE,
      LARGE_PAGE_SIZE; lia).
    destruct Hps as [Hs|Hl].
    - (* small pages: no entry has the large size *)
      rewrite Hs in *.
      destruct (MMU.page_table m' !! (a ÷ LARGE_PAGE_SIZE))
        as [[f' sz']|] eqn:Hlarge.
      + pose proof (Huni' _ _ Hlarge) as Hsz'. cbn in Hsz'. subst sz'.
        change (SMALL_PAGE_SIZE =? LARGE_PAGE_SIZE) with false. cbn beta iota.
        rewrite He. by rewrite Z.eqb_refl.
      + rewrite He. by rewrite Z.eqb_refl.
    - rewrite Hl in *. rewrite He. by rewrite Z.eqb_refl. }
  destruct (translate_resolved a m' Hok') as (m'' & Htr & _ & Hpt & _).
  rewrite Hres, He in Htr. exists m'', f. by split_and!.
Qed.

(** ** A run of the whole MMU *)

(** Policy "small": [allocate(0x1000, 8192)] creates the entries of pages 1
    and 2 and charges nothing; [allocate(0x1000, 5000)] finds both pages
    and charges [8192 - 5000]; the first [translate(0x1000)] misses the TLB,
    the second hits it, both yield the frame of page 1, and the hit rate
    is 50. *)
Example small_policy_run :
  let m0 := MMU.new (PolicyEngine_new (Some "small"%string) None) in
  let a1 := MMU.allocate 4096 8192 m0 in
  let a2 := MMU.allocate 4096 5000 a1.1 in
  let t1 := MMU.translate 4096 a2.1 in
  let t2 := t1 ≫= λ r, MMU.translate 4096 r.1 in
  a1.2 = Normal tt
  ∧ MMU.page_table a1.1 = {[1 := (0, 4096); 2 := (1, 4096)]}
  ∧ MMU.get_internal_fragmentation a1.1 = 0
  ∧ a2.2 = Normal tt
  ∧ MMU.page_table a2.1 = MMU.page_table a1.1
  ∧ MMU.get_internal_fragmentation a2.1 = 3192
  ∧ snd <$> t1 = Some (Normal 0)
  ∧ (λ r, TLB.misses (MMU.tlb r.1)) <$> t1 = Some 1
  ∧ snd <$> t2 = Some (Normal 0)
  ∧ (λ r, MMU.get_tlb_hit_rate r.1) <$> t2 = Some 50.
Proof.
  vm_compute. repeat split.
Qed.

(** * Further properties *)

(** ** OrderedDict: the operations one by one *)

Section OrderedDictOperations.
Context {K : Type} `{Countable K} {V : Type}.
Implicit Types (d : OrderedDict.t K V) (l : list K) (k : K).

Lemma filter_not_in k l : k ∉ l → filter (λ x, x ≠ k) l = l.
Proof.
  induction l as [|x l IH]; intros Hk; [done|].
  rewrite filter_cons_True by set_solver. f_equal. apply IH. set_solver.
Qed.

Lemma erase_first_filter k l :
  NoDup l → OrderedDict.erase_first k l = filter (λ x, x ≠ k) l.
Proof.
  induction l as [|x l IH]; intros Hnd; [done|].
  apply NoDup_cons in Hnd as [Hx Hnd]. cbn [OrderedDict.erase_first].
  case_decide as Hxk.
  - subst x. rewrite filter_cons_False by naive_solver.
    by rewrite filter_not_in.
  - rewrite filter_cons_True by done. f_equal. by apply IH.
Qed.

Lemma od_wf_subscript dflt k d :
  od_wf d → od_wf (OrderedDict.subscript dflt k d).1.
Proof.
  intros Hwf. unfold OrderedDict.subscript.
  destruct (OrderedDict.map d !! k) as [v|] eqn:Hk; [done|].
  pose proof (od_wf_insert k dflt d Hwf) as Hins.
  unfold OrderedDict.insert in Hins. rewrite Hk in Hins.
  by rewrite decide_True in Hins by done.
Qed.

Lemma od_run_wf_from dflt (ops : list (od_op K V)) : ∀ d,
  od_wf d → ∃ d', od_run dflt ops d = Some d' ∧ od_wf d'.
Proof.
  induction ops as [|o ops IH]; intros d Hwf; [by exists d|].
  cbn [od_run]. destruct o as [k v|k|k|k]; cbn [od_step mbind option_bind].
  - apply IH. by apply od_wf_insert.
  - apply IH. by apply od_wf_subscript.
  - destruct (od_wf_erase k d Hwf) as (d1 & -> & Hwf1 & _). cbn. by apply IH.
  - apply IH. by apply od_wf_move_to_end.
Qed.

(** X1: whatever insertions, subscripts, erasures and moves to the end are
    applied to an empty dictionary, none of them reaches an undefined call,
    and in the dictionary they leave [order] lists the keys of [map], each
    once, so [size()] is the length of [get_order()]. *)
Theorem ordered_dict_representation (dflt : V) (ops : list (od_op K V)) :
  ∃ d,
    od_run dflt ops OrderedDict.empty = Some d
    ∧ NoDup (OrderedDict.get_order d)
    ∧ (∀ k, k ∈ OrderedDict.get_order d ↔ OrderedDict.contains k d = true)
    ∧ OrderedDict.size d = Z.of_nat (length (OrderedDict.get_order d)).
Proof.
  destruct (od_run_wf_from dflt ops OrderedDict.empty od_wf_empty)
    as (d & Hrun & Hwf).
  exists d. split; [done|]. pose proof Hwf as [Hnd Hk].
  split_and!; [done| |].
  - intros k. rewrite Hk. unfold OrderedDict.contains.
    by rewrite bool_decide_eq_true.
  - unfold OrderedDict.size, OrderedDict.get_order.
    by rewrite (od_wf_size d Hwf).
Qed.

(** X2: after [insert(key, value)] the key is contained and the subscript
    gives the value, leaving the dictionary as it is; the other keys keep
    their values; a key that was contained keeps its place in the order,
    and a new key goes to the end. *)
Theorem insert_then_subscript (dflt : V) k (v : V) d :
  OrderedDict.contains k (OrderedDict.insert k v d) = true
  ∧ OrderedDict.subscript dflt k (OrderedDict.insert k v d)
    = (OrderedDict.insert k v d, v)
  ∧ (∀ k', k' ≠ k →
       OrderedDict.map (OrderedDict.insert k v d) !! k'
       = OrderedDict.map d !! k')
  ∧ OrderedDict.get_order (OrderedDict.insert k v d)
    = (if OrderedDict.contains k d then OrderedDict.get_order d
       else OrderedDict.get_order d ++ [k]).
Proof.
  unfold OrderedDict.contains, OrderedDict.subscript, OrderedDict.get_order.
  cbn [OrderedDict.insert OrderedDict.map OrderedDict.order].
  rewrite lookup_insert_eq. split_and!.
  - apply bool_decide_eq_true_2. eauto.
  - done.
  - intros k' Hne. by rewrite lookup_insert_ne.
  - destruct (OrderedDict.map d !! k) as [v'|] eqn:Hk.
    + rewrite decide_False by done.
      by rewrite bool_decide_eq_true_2 by eauto.
    + rewrite decide_True by done.
      by rewrite bool_decide_eq_false_2 by (by intros [? ?]).
Qed.

(** X3: on a well-formed dictionary [erase(key)] is defined; afterwards the
    key is not contained, the other keys keep their values and their
    relative order, and the size went down by one if the key was contained
    and is unchanged otherwise. *)
Theorem erase_removes_key k d :
  od_wf d →
  ∃ d',
    OrderedDict.erase k d = Some d'
    ∧ OrderedDict.contains k d' = false
    ∧ (∀ k', k' ≠ k → OrderedDict.map d' !! k' = OrderedDict.map d !! k')
    ∧ OrderedDict.get_order d'
      = filter (λ x, x ≠ k) (OrderedDict.get_order d)
    ∧ OrderedDict.size d'
      = OrderedDict.size d - (if OrderedDict.contains k d then 1 else 0)
    ∧ (OrderedDict.contains k d = false → d' = d).
Proof.
  intros Hwf. destruct (od_wf_erase k d Hwf) as (d' & Herase & Hwf' & Hm & Ho).
  exists d'. split; [done|].
  unfold OrderedDict.contains, OrderedDict.get_order, OrderedDict.size.
  rewrite Hm, Ho. split_and!.
  - apply bool_decide_eq_false_2. rewrite lookup_delete_eq. by intros [? ?].
  - intros k' Hne. by rewrite lookup_delete_ne.
  - apply erase_first_filter, Hwf.
  - destruct (OrderedDict.map d !! k) as [v|] eqn:Hk.
    + rewrite bool_decide_eq_true_2 by eauto.
      rewrite map_size_delete_Some by eauto.
      assert (size (OrderedDict.map d) ≠ 0%nat) as Hsize.
      { intros Hz%map_size_empty_iff. rewrite Hz in Hk.
        by rewrite lookup_empty in Hk. }
      lia.
    + rewrite bool_decide_eq_false_2 by (by intros [? ?]).
      rewrite delete_id by done. lia.
  - intros Hc. apply bool_decide_eq_false_1 in Hc.
    apply eq_None_not_Some in Hc. unfold OrderedDict.erase in Herase.
    rewrite Hc in Herase. by injection Herase.
Qed.

(** X4: erasing a key just inserted as a new key gives back the dictionary
    as it was before the insertion. *)
Theorem insert_then_erase k (v : V) d :
  od_wf d → OrderedDict.contains k d = false →
  OrderedDict.erase k (OrderedDict.insert k v d) = Some d.
Proof.
  intros Hwf Hc. apply bool_decide_eq_false_1 in Hc.
  apply eq_None_not_Some in Hc.
  assert (k ∉ OrderedDict.order d) as Hnot.
  { intros Hin%Hwf. rewrite Hc in Hin. by destruct Hin. }
  unfold OrderedDict.erase, OrderedDict.insert.
  cbn [OrderedDict.map OrderedDict.order].
  rewrite lookup_insert_eq.
  rewrite !(decide_True (P := OrderedDict.map d !! k = None)) by done.
  rewrite decide_True by set_solver.
  rewrite delete_insert_eq, delete_id by done. f_equal.
  destruct d as [m o]. cbn in *. f_equal.
  rewrite erase_first_filter.
  - rewrite filter_app, filter_not_in by done.
    rewrite filter_cons_False by naive_solver. cbn.
    by rewrite app_nil_r.
  - apply NoDup_app. split_and!; [apply Hwf| |apply NoDup_singleton].
    intros x Hx ->%list_elem_of_singleton. done.
Qed.

(** X5: [move_to_end(key)] never changes the mapping. On a well-formed
    dictionary a contained key becomes the last of the order, the others
    keeping their relative order; a key that is not contained leaves the
    dictionary as it is; and moving a key twice is moving it once. *)
Theorem move_to_end_reorders k d :
  od_wf d →
  OrderedDict.map (OrderedDict.move_to_end k d) = OrderedDict.map d
  ∧ (OrderedDict.contains k d = true →
     OrderedDict.get_order (OrderedDict.move_to_end k d)
       = filter (λ x, x ≠ k) (OrderedDict.get_order d) ++ [k])
  ∧ (OrderedDict.contains k d = false → OrderedDict.move_to_end k d = d)
  ∧ OrderedDict.move_to_end k (OrderedDict.move_to_end k d)
    = OrderedDict.move_to_end k d.
Proof.
  intros Hwf. pose proof Hwf as [Hnd Hk]. split_and!.
  - apply map_move_to_end.
  - intros Hc%bool_decide_eq_true_1.
    unfold OrderedDict.get_order, OrderedDict.move_to_end.
    rewrite decide_True by by apply Hk. cbn.
    by rewrite erase_first_filter.
  - intros Hc%bool_decide_eq_false_1. unfold OrderedDict.move_to_end.
    by rewrite decide_False by (by rewrite Hk).
  - pose proof (od_wf_move_to_end k d Hwf) as [Hnd' _].
    unfold OrderedDict.move_to_end in *.
    case_decide as Hin; [|by rewrite decide_False].
    cbn [OrderedDict.order OrderedDict.map] in *.
    rewrite decide_True by set_solver. f_equal.
    rewrite (erase_first_filter k (_ ++ [k])) by done.
    rewrite filter_app, filter_cons_False by naive_solver.
    cbn. rewrite app_nil_r. f_equal.
    rewrite erase_first_filter by done.
    rewrite list_filter_filter. apply list_filter_iff. naive_solver.
Qed.

End OrderedDictOperations.

Lemma od_wf_two : od_wf (OrderedDict.insert 2 20 (OrderedDict.insert 1 10
                           (OrderedDict.empty : OrderedDict.t Z Z))).
Proof. apply od_wf_insert, od_wf_insert, od_wf_empty. Qed.

Lemma erase_removes_key_witness :
  ∃ d',
    OrderedDict.erase 1 (OrderedDict.insert 2 20 (OrderedDict.insert 1 10
                           (OrderedDict.empty : OrderedDict.t Z Z))) = Some d'
    ∧ OrderedDict.get_order d' = [2]
    ∧ OrderedDict.size d' = 1.
Proof.
  destruct (erase_removes_key 1 _ od_wf_two)
    as (d' & Herase & _ & _ & Horder & Hsize & _).
  exists d'. split_and!; [exact Herase|by rewrite Horder|by rewrite Hsize].
Defined.

Lemma insert_then_erase_witness :
  OrderedDict.erase 3
    (OrderedDict.insert 3 30
       (OrderedDict.insert 2 20 (OrderedDict.insert 1 10
          (OrderedDict.empty : OrderedDict.t Z Z))))
  = Some (OrderedDict.insert 2 20 (OrderedDict.insert 1 10
            (OrderedDict.empty : OrderedDict.t Z Z))).
Proof. apply (insert_then_erase 3 30 _ od_wf_two). reflexivity. Defined.

Lemma move_to_end_reorders_witness :
  OrderedDict.get_order
    (OrderedDict.move_to_end 1
       (OrderedDict.insert 2 20 (OrderedDict.insert 1 10
          (OrderedDict.empty : OrderedDict.t Z Z))))
  = [2; 1].
Proof.
  destruct (move_to_end_reorders 1 _ od_wf_two) as (_ & Hlast & _).
  rewrite Hlast; reflexivity.
Defined.

(** ** The TLB: round trips, counters and recency *)

Lemma insert_counters v f tl tl' :
  TLB.insert v f tl = Some tl' →
  TLB.hits tl' = TLB.hits tl ∧ TLB.misses tl' = TLB.misses tl
  ∧ TLB.tlb_size tl' = TLB.tlb_size tl.
Proof.
  unfold TLB.insert. intros Hins.
  repeat match type of Hins with
    | context [if ?b then _ else _] => destruct b
    | context [OrderedDict.erase ?k ?d] =>
        destruct (OrderedDict.erase k d); cbn in Hins
    | context [head ?l] => destruct (head l); cbn in Hins
    end; by simplify_eq.
Qed.

(** X6: what is inserted is found. On a TLB of positive capacity [insert]
    is defined, and a lookup of the page right after it hits: it yields the
    frame inserted, counts one hit, and finds the page at the back of the
    order, where [insert] had put it. *)
Theorem insert_then_lookup (c v f : Z) (tl : TLB.t) :
  1 <= c <= Int.max_signed → tlb_inv c tl →
  ∃ tl1,
    TLB.insert v f tl = Some tl1
    ∧ tlb_inv c tl1
    ∧ last (OrderedDict.get_order (TLB.cache tl1)) = Some v
    ∧ TLB.lookup v tl1
      = ({| TLB.tlb_size := c; TLB.cache := TLB.cache tl1;
            TLB.hits := Int.add (TLB.hits tl) 1;
            TLB.misses := TLB.misses tl |}, f).
Proof.
  intros Hc Hinv. destruct (insert_defined c v f tl Hc Hinv) as [tl1 Hins].
  pose proof (tlb_inv_insert c v f tl tl1 ltac:(lia) Hinv Hins) as Hinv1.
  destruct (insert_counters v f tl tl1 Hins) as (Hh & Hm & Hs).
  exists tl1. split; [done|]. split; [done|].
  destruct Hinv as (Hsz & Hwf & Hle).
  assert (∃ o, OrderedDict.order (TLB.cache tl1) = o ++ [v]
            ∧ OrderedDict.map (TLB.cache tl1) !! v = Some f) as (o & Ho & Hv).
  { destruct (OrderedDict.map (TLB.cache tl) !! v) as [f'|] eqn:Hv.
    - rewrite (insert_cached v f f') in Hins by done. injection Hins as <-.
      eexists. split; [done|]. apply lookup_insert_eq.
    - destruct (Z.lt_ge_cases (OrderedDict.size (TLB.cache tl))
                  (Int.to_size_t (TLB.tlb_size tl))) as [Hroom|Hfull].
      + rewrite insert_below_capacity in Hins by done. injection Hins as <-.
        eexists. split; [done|]. apply lookup_insert_eq.
      + destruct (OrderedDict.order (TLB.cache tl)) as [|k o] eqn:Ho.
        * unfold TLB.insert, OrderedDict.contains in Hins.
          rewrite bool_decide_eq_false_2 in Hins
            by (rewrite Hv; by intros [? ?]).
          destruct (Z.geb_spec (OrderedDict.size (TLB.cache tl))
                      (Int.to_size_t (TLB.tlb_size tl))); [|lia].
          unfold OrderedDict.get_order in Hins. by rewrite Ho in Hins.
        * rewrite (insert_evicts v f k o) in Hins by (done || lia).
          injection Hins as <-. eexists. split; [done|].
          apply lookup_insert_eq. }
  unfold OrderedDict.get_order. rewrite Ho. split; [apply last_snoc|].
  rewrite (lookup_hit v f) by done.
  destruct Hinv1 as (Hs1 & [Hnd1 _] & _). rewrite Hh, Hm, Hs1.
  f_equal. f_equal. unfold OrderedDict.move_to_end.
  rewrite Ho in *. rewrite decide_True by set_solver.
  destruct (TLB.cache tl1) as [m1 o1]. cbn in *. subst o1. f_equal.
  rewrite erase_first_filter by done.
  apply NoDup_app in Hnd1 as (_ & Hdisj & _).
  rewrite filter_app, filter_cons_False by naive_solver. cbn.
  rewrite app_nil_r. f_equal. apply filter_not_in.
  intros Hin. apply (Hdisj v Hin). set_solver.
Qed.

Lemma insert_then_lookup_witness :
  ∃ tl1,
    TLB.insert 7 70 (TLB.new 2) = Some tl1
    ∧ TLB.lookup 7 tl1
      = ({| TLB.tlb_size := 2; TLB.cache := TLB.cache tl1;
            TLB.hits := 1; TLB.misses := 0 |}, 70).
Proof.
  assert (1 <= 2 <= Int.max_signed) as Hc by (vm_compute; split; discriminate).
  destruct (insert_then_lookup 2 7 70 (TLB.new 2) Hc
              (tlb_inv_new 2 ltac:(lia))) as (tl1 & Hins & _ & _ & Hlook).
  exists tl1. split; [exact Hins|exact Hlook].
Defined.

Lemma tlb_run_counters ops : ∀ tl tl',
  tlb_run ops tl = Some tl' →
  0 <= TLB.hits tl → 0 <= TLB.misses tl →
  TLB.hits tl + TLB.misses tl + Z.of_nat (lookups ops) <= Int.max_signed →
  TLB.hits tl <= TLB.hits tl' ∧ TLB.misses tl <= TLB.misses tl'
  ∧ TLB.hits tl' + TLB.misses tl'
    = TLB.hits tl + TLB.misses tl + Z.of_nat (lookups ops).
Proof.
  induction ops as [|o ops IH]; intros tl tl' Hrun Hh Hm Hsum.
  - cbn in *. injection Hrun as <-. lia.
  - cbn [tlb_run] in Hrun.
    destruct (tlb_step o tl) as [tl1|] eqn:Hstep; cbn in Hrun; [|done].
    destruct o as [v|v f]; cbn [tlb_step lookups] in *.
    + injection Hstep as <-.
      assert (TLB.hits (TLB.lookup v tl).1 + TLB.misses (TLB.lookup v tl).1
              = TLB.hits tl + TLB.misses tl + 1
              ∧ TLB.hits tl <= TLB.hits (TLB.lookup v tl).1
              ∧ TLB.misses tl <= TLB.misses (TLB.lookup v tl).1)
        as (Hone & Hh1 & Hm1).
      { destruct (OrderedDict.map (TLB.cache tl) !! v) as [f|] eqn:Hv.
        - rewrite (lookup_hit v f) by done. cbn. unfold Int.add.
          rewrite wrap_id by (unfold Int.in_range, Int.min_signed,
            Int.max_signed in *; lia). lia.
        - rewrite lookup_miss by done. cbn. unfold Int.add.
          rewrite wrap_id by (unfold Int.in_range, Int.min_signed,
            Int.max_signed in *; lia). lia. }
      destruct (IH _ _ Hrun ltac:(lia) ltac:(lia) ltac:(lia)) as (? & ? & ?).
      lia.
    + destruct (insert_counters v f tl tl1 Hstep) as (Hh1 & Hm1 & _).
      destruct (IH _ _ Hrun ltac:(lia) ltac:(lia) ltac:(lia)) as (? & ? & ?).
      lia.
Qed.

(** X7: after a sequence of lookups and insertions on a new TLB with at
    most 21474836 lookups, [hits] and [misses] add up to the number of
    lookups (insertions count nothing), and [hit_rate()] is the percentage
    of hits rounded down, 0 when nothing was looked up, between 0 and 100. *)
Theorem hit_rate_of_run (c : Z) (ops : list tlb_op) (tl : TLB.t) :
  tlb_run ops (TLB.new c) = Some tl →
  Z.of_nat (lookups ops) <= 21474836 →
  0 <= TLB.hits tl ∧ 0 <= TLB.misses tl
  ∧ TLB.hits tl + TLB.misses tl = Z.of_nat (lookups ops)
  ∧ TLB.hit_rate tl
    = (if Z.of_nat (lookups ops) =? 0 then 0
       else (100 * TLB.hits tl) / Z.of_nat (lookups ops))
  ∧ 0 <= TLB.hit_rate tl <= 100.
Proof.
  intros Hrun Hn.
  destruct (tlb_run_counters ops _ _ Hrun) as (Hh & Hm & Hsum);
    cbn [TLB.new TLB.hits TLB.misses] in *;
    [lia|lia|unfold Int.max_signed; lia|].
  destruct (hit_rate_exact tl) as [Hrate Hrange];
    [lia|lia|unfold Int.max_signed; lia|unfold Int.max_signed; lia|].
  rewrite Hsum in Hrate. cbn in Hsum. by split_and!; try lia.
Qed.

Lemma hit_rate_of_run_witness :
  ∃ tl,
    tlb_run [Lookup 5; Insert 5 50; Lookup 5; Lookup 5] (TLB.new 4) = Some tl
    ∧ TLB.hit_rate tl = 66.
Proof.
  eexists. split; [reflexivity|].
  destruct (hit_rate_of_run 4 [Lookup 5; Insert 5 50; Lookup 5; Lookup 5] _
              eq_refl ltac:(cbn; lia)) as (_ & _ & _ & Hrate & _).
  rewrite Hrate. reflexivity.
Defined.

(** X8: a lookup never changes which pages are cached nor their frames
    (a miss creates no entry and leaves the order alone); it yields the
    frame cached for the page, -1 when there is none. *)
Theorem lookup_keeps_entries (v : Z) (tl : TLB.t) :
  OrderedDict.map (TLB.cache (TLB.lookup v tl).1)
    = OrderedDict.map (TLB.cache tl)
  ∧ TLB.tlb_size (TLB.lookup v tl).1 = TLB.tlb_size tl
  ∧ (TLB.lookup v tl).2 = default (-1) (OrderedDict.map (TLB.cache tl) !! v)
  ∧ (OrderedDict.contains v (TLB.cache tl) = false →
     TLB.cache (TLB.lookup v tl).1 = TLB.cache tl
     ∧ TLB.hits (TLB.lookup v tl).1 = TLB.hits tl).
Proof.
  destruct (OrderedDict.map (TLB.cache tl) !! v) as [f|] eqn:Hv.
  - rewrite (lookup_hit v f) by done. cbn. rewrite map_move_to_end.
    split_and!; [done..|]. intros Hc%bool_decide_eq_false_1.
    rewrite Hv in Hc. destruct Hc. eauto.
  - rewrite lookup_miss by done. by cbn.
Qed.

(** X9: a hit protects its page. In a full TLB whose two least recently
    used pages are [k1] and [k2], a lookup of [k1] followed by the
    insertion of a page that is not cached evicts [k2]; [k1] stays, now
    second from the back. *)
Theorem hit_protects_page (c k1 k2 v f : Z) (o : list Z) (tl : TLB.t) :
  1 <= c <= Int.max_signed → tlb_inv c tl →
  OrderedDict.get_order (TLB.cache tl) = k1 :: k2 :: o →
  OrderedDict.size (TLB.cache tl) = c →
  OrderedDict.contains v (TLB.cache tl) = false →
  ∃ tl2,
    TLB.insert v f (TLB.lookup k1 tl).1 = Some tl2
    ∧ OrderedDict.get_order (TLB.cache tl2) = o ++ [k1; v]
    ∧ OrderedDict.contains k1 (TLB.cache tl2) = true
    ∧ OrderedDict.contains k2 (TLB.cache tl2) = false.
Proof.
  intros Hc Hinv Ho Hfull Hv. pose proof Hinv as (Hsz & Hwf & Hle).
  unfold OrderedDict.get_order in Ho.
  apply bool_decide_eq_false_1 in Hv. apply eq_None_not_Some in Hv.
  pose proof Hwf as [Hnd Hkeys]. rewrite Ho in Hnd.
  apply NoDup_cons in Hnd as [Hk1 Hnd].
  assert (is_Some (OrderedDict.map (TLB.cache tl) !! k1)) as [f1 Hf1]
    by (apply Hkeys; rewrite Ho; set_solver).
  pose proof (tlb_inv_lookup c k1 tl Hinv) as Hinv1.
  rewrite (lookup_hit k1 f1) in * by done. cbn [fst] in *.
  assert (OrderedDict.move_to_end k1 (TLB.cache tl)
          = {| OrderedDict.map := OrderedDict.map (TLB.cache tl);
               OrderedDict.order := k2 :: (o ++ [k1]) |}) as Hmove.
  { unfold OrderedDict.move_to_end.
    rewrite decide_True by (rewrite Ho; set_solver).
    by rewrite Ho, erase_first_head. }
  rewrite Hmove in *.
  rewrite (insert_evicts v f k2 (o ++ [k1])); cbn [TLB.cache TLB.tlb_size
    OrderedDict.map OrderedDict.order]; [|apply Hinv1|done| |done].
  2: { unfold OrderedDict.size in *. cbn [OrderedDict.map].
       rewrite Hsz, to_size_t_id by lia. lia. }
  eexists. split; [done|].
  unfold OrderedDict.get_order, OrderedDict.contains. cbn.
  assert (k1 ≠ k2) by set_solver.
  assert (v ≠ k1) by (intros ->; congruence).
  split_and!.
  - by rewrite <- app_assoc.
  - apply bool_decide_eq_true_2.
    rewrite lookup_insert_ne, lookup_delete_ne by done. eauto.
  - apply bool_decide_eq_false_2.
    assert (is_Some (OrderedDict.map (TLB.cache tl) !! k2)) as [f2 Hf2]
      by (apply Hkeys; rewrite Ho; set_solver).
    rewrite lookup_insert_ne by (intros ->; congruence).
    rewrite lookup_delete_eq. by intros [? ?].
Qed.

Lemma hit_protects_page_witness :
  ∃ tl2,
    TLB.insert 3 30
      (TLB.lookup 1
         (TLB.with_cache (TLB.new 2)
            (OrderedDict.insert 2 20
               (OrderedDict.insert 1 10 OrderedDict.empty)))).1
    = Some tl2
    ∧ OrderedDict.get_order (TLB.cache tl2) = [1; 3]
    ∧ OrderedDict.contains 2 (TLB.cache tl2) = false.
Proof.
  assert (1 <= 2 <= Int.max_signed) as Hc by (vm_compute; split; discriminate).
  assert (tlb_run [Insert 1 10; Insert 2 20] (TLB.new 2)
          = Some (TLB.with_cache (TLB.new 2)
                    (OrderedDict.insert 2 20
                       (OrderedDict.insert 1 10 OrderedDict.empty))))
    as Hrun by reflexivity.
  pose proof (tlb_run_inv 2 _ _ _ ltac:(lia) (tlb_inv_new 2 ltac:(lia)) Hrun)
    as Hinv.
  destruct (hit_protects_page 2 1 2 3 30 [] _ Hc Hinv eq_refl eq_refl eq_refl)
    as (tl2 & Hins & Horder & _ & Hgone).
  exists tl2. split_and!; [exact Hins|exact Horder|exact Hgone].
Defined.

(** X10: inserting a page that is cached replaces its frame, moves the page
    to the back of the order and evicts nothing, whatever the capacity: the
    other pages keep their frames and their relative order, and the number
    of entries is unchanged. *)
Theorem reinsert_replaces_frame (v f : Z) (tl : TLB.t) :
  od_wf (TLB.cache tl) →
  OrderedDict.contains v (TLB.cache tl) = true →
  ∃ tl1,
    TLB.insert v f tl = Some tl1
    ∧ OrderedDict.map (TLB.cache tl1)
      = <[v := f]> (OrderedDict.map (TLB.cache tl))
    ∧ OrderedDict.get_order (TLB.cache tl1)
      = filter (λ x, x ≠ v) (OrderedDict.get_order (TLB.cache tl)) ++ [v]
    ∧ OrderedDict.size (TLB.cache tl1) = OrderedDict.size (TLB.cache tl).
Proof.
  intros Hwf Hc. apply bool_decide_eq_true_1 in Hc as [f' Hf'].
  rewrite (insert_cached v f f') by done. eexists. split; [done|].
  unfold OrderedDict.get_order, OrderedDict.size. cbn. split_and!; [done| |].
  - rewrite erase_first_filter; [done|apply Hwf].
  - by rewrite map_size_insert_Some by eauto.
Qed.

Lemma reinsert_replaces_frame_witness :
  ∃ tl1,
    TLB.insert 1 11
      (TLB.with_cache (TLB.new 2)
         (OrderedDict.insert 2 20
            (OrderedDict.insert 1 10 OrderedDict.empty))) = Some tl1
    ∧ OrderedDict.get_order (TLB.cache tl1) = [2; 1]
    ∧ OrderedDict.map (TLB.cache tl1) !! 1 = Some 11.
Proof.
  destruct (reinsert_replaces_frame 1 11
              (TLB.with_cache (TLB.new 2)
                 (OrderedDict.insert 2 20
                    (OrderedDict.insert 1 10 OrderedDict.empty)))
              od_wf_two eq_refl) as (tl1 & Hins & Hmap & Horder & _).
  exists tl1. split_and!; [exact Hins|by rewrite Horder|by rewrite Hmap].
Defined.

(** ** The frame allocator at its edges *)

Lemma scan_nothing k rest : ∀ (i : nat) (cnt start : Z),
  k <= 0 → 0 <= cnt → cnt + Z.of_nat (length rest) <= Int.max_signed →
  MMU.scan k rest i cnt start = None ∨ MMU.scan k rest i cnt start = Some (-1).
Proof.
  induction rest as [|b rest IH]; intros i cnt start Hk Hcnt Hlen;
    cbn [MMU.scan]; [by left|].
  cbn [length] in Hlen. destruct b.
  - destruct (Z.eqb_spec 0 k); [by right|]. apply IH; lia.
  - unfold Int.add. rewrite wrap_id
      by (unfold Int.in_range, Int.min_signed, Int.max_signed in *; lia).
    destruct (Z.eqb_spec (cnt + 1) k); [lia|]. apply IH; lia.
Qed.

(** X11: asked for no frames, or for a negative number of them, the
    allocator reports a failure and leaves the bitmap as it is. *)
Theorem find_and_allocate_nothing (k : Z) (frames : list bool) :
  k <= 0 → Z.of_nat (length frames) <= Int.max_signed →
  MMU.find_and_allocate_physical_frames k frames = (frames, -1).
Proof.
  intros Hk Hlen. unfold MMU.find_and_allocate_physical_frames.
  destruct (Z.eqb_spec k 1); [lia|].
  destruct (scan_nothing k frames 0 0 (-1) Hk ltac:(lia) ltac:(lia))
    as [-> | ->]; [done|].
  by replace (Z.to_nat k) with 0%nat by lia.
Qed.

Lemma find_and_allocate_nothing_witness :
  MMU.find_and_allocate_physical_frames 0 [false; true; false]
  = ([false; true; false], -1).
Proof.
  apply find_and_allocate_nothing; [lia|vm_compute; discriminate].
Defined.

(** ** The bitmap and the page table *)

Lemma frames_inv_length m :
  frames_inv m → Z.of_nat (length (MMU.physical_frames m)) <= Int.max_signed.
Proof. intros [-> _]. vm_compute. discriminate. Qed.

Lemma frames_inv_new pe : frames_inv (MMU.new pe).
Proof.
  unfold frames_inv. cbn [MMU.new MMU.physical_frames MMU.page_table].
  split_and!.
  - rewrite length_replicate. apply Z2Nat.id. vm_compute. discriminate.
  - intros v e. by rewrite lookup_empty.
  - intros v1 v2 e1 e2 j. by rewrite lookup_empty.
  - intros j Hj. apply lookup_replicate in Hj as [? _]. done.
Qed.

(** The step of the loop of [allocate] that creates an entry. *)
Lemma frames_inv_created page_size m vpn :
  page_size = SMALL_PAGE_SIZE ∨ page_size = LARGE_PAGE_SIZE →
  frames_inv m →
  MMU.page_table m !! vpn = None →
  (MMU.find_and_allocate_physical_frames (Int.div page_size SMALL_PAGE_SIZE)
     (MMU.physical_frames m)).2 ≠ -1 →
  frames_inv
    (MMU.with_page
       (MMU.with_frames m
          (MMU.find_and_allocate_physical_frames
             (Int.div page_size SMALL_PAGE_SIZE) (MMU.physical_frames m)).1)
       vpn
       ((MMU.find_and_allocate_physical_frames
           (Int.div page_size SMALL_PAGE_SIZE) (MMU.physical_frames m)).2,
        page_size)).
Proof.
  intros Hps Hinv Hnone Hok.
  pose proof (frames_inv_length m Hinv) as Hlen.
  destruct Hinv as (Hl & Hent & Hdisj & Hown).
  assert (1 <= Int.div page_size SMALL_PAGE_SIZE
          ∧ Int.div page_size SMALL_PAGE_SIZE = page_size ÷ SMALL_PAGE_SIZE)
    as [Hk Hkq] by (destruct Hps as [-> | ->]; done).
  destruct (find_and_allocate_spec _ _ Hk Hlen) as (_ & _ & Hfound).
  destruct (Hfound Hok) as (s & Hr & Hrun & _ & Hl' & Hin & Hout).
  set (frames' := (MMU.find_and_allocate_physical_frames _ _).1) in *.
  rewrite Hr in *. clear Hfound Hok.
  assert (∀ j : nat, owns (Z.of_nat s, page_size) j
                     ↔ (s <= j < s + Z.to_nat (Int.div page_size
                                                  SMALL_PAGE_SIZE))%nat)
    as Hnew.
  { intros j. unfold owns. cbn [fst snd]. rewrite <- Hkq. lia. }
  unfold frames_inv.
  cbn [MMU.with_page MMU.with_frames MMU.physical_frames MMU.page_table].
  split_and!.
  - by rewrite Hl'.
  - intros v e. rewrite lookup_insert. case_decide as Hv.
    + intros [= <-]. cbn [fst snd]. split_and!; [done|lia|].
      intros j Hj. apply Hin. by apply Hnew.
    + intros He. destruct (Hent v e He) as (Hsz & Hpos & Hall).
      split_and!; [done..|]. intros j Hj.
      destruct (decide (s <= j < s + Z.to_nat (Int.div page_size
                                                 SMALL_PAGE_SIZE))%nat).
      * by apply Hin.
      * rewrite Hout by done. by apply Hall.
  - intros v1 v2 e1 e2 j. rewrite !lookup_insert.
    repeat case_decide; try congruence.
    + intros [= <-] He2 Hj1 Hj2. exfalso.
      apply Hnew in Hj1. specialize (Hrun j Hj1).
      destruct (Hent v2 e2 He2) as (_ & _ & Hall).
      rewrite (Hall j Hj2) in Hrun. done.
    + intros He1 [= <-] Hj1 Hj2. exfalso.
      apply Hnew in Hj2. specialize (Hrun j Hj2).
      destruct (Hent v1 e1 He1) as (_ & _ & Hall).
      rewrite (Hall j Hj1) in Hrun. done.
    + apply Hdisj.
  - intros j Hj.
    destruct (decide (s <= j < s + Z.to_nat (Int.div page_size
                                               SMALL_PAGE_SIZE))%nat)
      as [Hrunj|Hrunj].
    + exists vpn, (Z.of_nat s, page_size). rewrite lookup_insert_eq.
      split; [done|]. by apply Hnew.
    + rewrite Hout in Hj by done. destruct (Hown j Hj) as (v & e & He & Ho).
      exists v, e. split; [|done]. rewrite lookup_insert_ne; [done|].
      intros <-. congruence.
Qed.

Lemma frames_inv_allocate_pages page_size va n : ∀ i m,
  page_size = SMALL_PAGE_SIZE ∨ page_size = LARGE_PAGE_SIZE →
  frames_inv m → frames_inv (MMU.allocate_pages page_size va n i m).1.
Proof.
  induction n as [|n IH]; intros i m Hps Hinv; [done|].
  assert (1 <= Int.div page_size SMALL_PAGE_SIZE) as Hk
    by (destruct Hps as [-> | ->]; done).
  destruct (MMU.page_table m !! Int.add (Int.div va page_size) i)
    as [e|] eqn:He.
  - rewrite (allocate_pages_present _ _ _ _ _ e) by done. by apply IH.
  - destruct (decide ((MMU.find_and_allocate_physical_frames
        (Int.div page_size SMALL_PAGE_SIZE) (MMU.physical_frames m)).2 = -1))
      as [Hfail|Hok].
    + rewrite allocate_pages_fails; [done..|by apply frames_inv_length|done|done].
    + rewrite allocate_pages_creates by done. apply IH; [done|].
      by apply frames_inv_created.
Qed.

Lemma frames_inv_allocate va size m :
  frames_inv m → frames_inv (MMU.allocate va size m).1.
Proof.
  intros Hinv. rewrite allocate_unfold.
  apply frames_inv_allocate_pages; [apply decide_page_size_cases|done].
Qed.

Lemma translate_frame a m m' r :
  MMU.translate a m = Some (m', r) →
  MMU.page_table m' = MMU.page_table m
  ∧ MMU.physical_frames m' = MMU.physical_frames m
  ∧ MMU.policy_engine m' = MMU.policy_engine m
  ∧ MMU.internal_fragmentation m' = MMU.internal_fragmentation m.
Proof.
  unfold MMU.translate.
  destruct (MMU.resolve a m) as [vpn|]; [|by intros [= <- _]].
  destruct (TLB.lookup vpn (MMU.tlb m)) as [tl pf].
  destruct (pf =? -1); [|by intros [= <- _]].
  destruct (TLB.insert _ _ tl); [|done]. by intros [= <- _].
Qed.

Lemma frames_inv_translate a m m' r :
  MMU.translate a m = Some (m', r) → frames_inv m → frames_inv m'.
Proof.
  intros (Hpt & Hfr & _)%translate_frame. unfold frames_inv.
  by rewrite Hpt, Hfr.
Qed.

Lemma mmu_run_inv ops : ∀ m,
  mmu_ok m → frames_inv m →
  ∃ m', mmu_run ops m = Some m' ∧ mmu_ok m' ∧ frames_inv m'
        ∧ MMU.policy_engine m' = MMU.policy_engine m.
Proof.
  induction ops as [|o ops IH]; intros m Hok Hinv; [by exists m|].
  cbn [mmu_run]. destruct o as [va size|a]; cbn [mmu_step mbind option_bind].
  - destruct (IH (MMU.allocate va size m).1) as (m' & -> & ? & ? & Hpe);
      [by apply allocate_ok|by apply frames_inv_allocate|].
    exists m'. split_and!; [done..|]. by rewrite Hpe, allocate_policy.
  - destruct (translate_resolved a m Hok) as (m1 & Htr & Hok1 & _).
    rewrite Htr. cbn.
    destruct (IH m1 Hok1 (frames_inv_translate _ _ _ _ Htr Hinv))
      as (m' & -> & ? & ? & Hpe).
    exists m'. split_and!; [done..|].
    rewrite Hpe. by apply translate_frame in Htr as (_ & _ & -> & _).
Qed.

(** X12: whatever [allocate] and [translate] calls are made on a new MMU,
    whether they throw or not and [int] arithmetic wrapping around where it
    overflows, the TLB is never asked for the [front()] of an empty order
    nor to erase [order.end()], and afterwards the bitmap still has its
    262144 frames; every page-table entry has the small or the large page
    size and a frame number that is not negative, and all the frames it
    spans are marked allocated; no frame belongs to two entries; and every
    frame marked allocated belongs to an entry. *)
Theorem frames_belong_to_one_page (pe : PolicyEngine) (ops : list mmu_op) :
  ∃ m,
    mmu_run ops (MMU.new pe) = Some m
    ∧ Z.of_nat (length (MMU.physical_frames m)) = 262144
    ∧ (∀ v e, MMU.page_table m !! v = Some e →
         (e.2 = SMALL_PAGE_SIZE ∨ e.2 = LARGE_PAGE_SIZE)
         ∧ 0 <= e.1
         ∧ ∀ j : nat, owns e j → MMU.physical_frames m !! j = Some true)
    ∧ (∀ v1 v2 e1 e2 (j : nat),
         MMU.page_table m !! v1 = Some e1 →
         MMU.page_table m !! v2 = Some e2 →
         owns e1 j → owns e2 j → v1 = v2)
    ∧ (∀ j : nat, MMU.physical_frames m !! j = Some true →
         ∃ v e, MMU.page_table m !! v = Some e ∧ owns e j).
Proof.
  destruct (mmu_run_inv ops (MMU.new pe) (mmu_ok_new pe) (frames_inv_new pe))
    as (m & Hrun & _ & (Hlen & Hent & Hdisj & Hown) & _).
  exists m. by split_and!.
Qed.

(** ** What a successful allocation leaves *)

Lemma allocate_pages_covers page_size va n : ∀ (i : nat) m m',
  Z.of_nat (i + n) <= Int.max_signed →
  MMU.allocate_pages page_size va n (Z.of_nat i) m = (m', Normal tt) →
  ∀ j : nat, (i <= j < i + n)%nat →
    is_Some (MMU.page_table m' !! request_vpn page_size va j).
Proof.
  induction n as [|n IH]; intros i m m' Hin Hrun j Hj; [lia|].
  assert (Z.of_nat (S i + n) <= Int.max_signed) as Hin' by lia.
  cbn [MMU.allocate_pages] in Hrun. rewrite loop_var_succ in Hrun by lia.
  fold (request_vpn page_size va i) in Hrun.
  destruct (MMU.page_table m !! request_vpn page_size va i) as [e|] eqn:He.
  - destruct (decide (j = i)) as [->|Hne].
    + exists e.
      pose proof (allocate_pages_keeps page_size va n (Z.of_nat (S i))
                    m _ e He) as Hkeep.
      by rewrite Hrun in Hkeep.
    + apply (IH (S i) m m' Hin' Hrun). lia.
  - destruct (MMU.find_and_allocate_physical_frames _ _) as [frames f].
    destruct (f =? -1); [done|].
    destruct (decide (j = i)) as [->|Hne].
    + exists (f, page_size).
      pose proof (allocate_pages_keeps page_size va n (Z.of_nat (S i))
                    (MMU.with_page (MMU.with_frames m frames)
                       (request_vpn page_size va i) (f, page_size))
                    (request_vpn page_size va i) (f, page_size)
                    (lookup_insert_eq _ _ _)) as Hkeep.
      by rewrite Hrun in Hkeep.
    + apply (IH (S i) _ m' Hin' Hrun). lia.
Qed.

(** The loop adds at most one entry for each of its pages. *)
Lemma allocate_pages_size page_size va n : ∀ i m,
  (size (MMU.page_table m)
   <= size (MMU.page_table (MMU.allocate_pages page_size va n i m).1)
   <= size (MMU.page_table m) + n)%nat.
Proof.
  induction n as [|n IH]; intros i m; cbn [MMU.allocate_pages];
    [cbn [fst]; lia|].
  destruct (MMU.page_table m !! Int.add (Int.div va page_size) i) eqn:He.
  - specialize (IH (Int.add i 1) m). lia.
  - destruct (MMU.find_and_allocate_physical_frames _ _) as [frames f].
    destruct (f =? -1); [cbn; lia|].
    specialize (IH (Int.add i 1)
                  (MMU.with_page (MMU.with_frames m frames)
                     (Int.add (Int.div va page_size) i) (f, page_size))).
    cbn [MMU.with_page MMU.with_frames MMU.page_table] in IH.
    rewrite map_size_insert_None in IH by done. lia.
Qed.

(** The page of an address of the request is one of the pages of the loop. *)
Lemma page_of_address m va size a :
  let page_size := decide_page_size (MMU.policy_engine m) size in
  Int.in_range va → Int.in_range size → Int.in_range (va + size - 1) →
  va <= a <= va + size - 1 →
  ∃ j : nat, (j < request_pages m va size)%nat
             ∧ request_vpn page_size va j = a ÷ page_size.
Proof.
  intros page_size Hva Hsize Hlast Ha.
  assert (page_size = SMALL_PAGE_SIZE ∨ page_size = LARGE_PAGE_SIZE) as Hps
    by apply decide_page_size_cases.
  assert (0 < page_size <= 2097152) as Hpos
    by (destruct Hps as [-> | ->]; done).
  assert (Int.in_range a) as Hain by (unfold Int.in_range in *; lia).
  pose proof (Z.quot_le_mono va a page_size ltac:(lia) ltac:(lia)) as Hlo.
  pose proof (Z.quot_le_mono a (va + size - 1) page_size ltac:(lia)
                ltac:(lia)) as Hhi.
  pose proof (quot_page_bound va page_size Hps Hva).
  pose proof (quot_page_bound a page_size Hps Hain).
  pose proof (quot_page_bound (va + size - 1) page_size Hps Hlast).
  assert (Int.div va page_size = va ÷ page_size) as Hfirst
    by (apply div_pos_exact; [done|lia]).
  assert (Int.div (Int.sub (Int.add va size) 1) page_size
          = (va + size - 1) ÷ page_size) as Hlastq.
  { unfold Int.sub, Int.add. rewrite wrap_sub_l, wrap_id by done.
    apply div_pos_exact; [done|lia]. }
  exists (Z.to_nat (a ÷ page_size - va ÷ page_size)). split.
  - unfold request_pages. fold page_size. rewrite Hfirst, Hlastq.
    unfold Int.add, Int.sub. rewrite wrap_add_l.
    rewrite wrap_id by (unfold Int.in_range, Int.min_signed,
      Int.max_signed; lia). lia.
  - unfold request_vpn, Int.add. rewrite Hfirst, Z2Nat.id by lia.
    rewrite wrap_id by (unfold Int.in_range, Int.min_signed,
      Int.max_signed; lia). lia.
Qed.

(** X13: when [allocate] returns normally and the addresses of the request
    fit an [int], every address of the request has a page-table entry at
    its page number under the page size selected; the call added at most
    one entry for each page it counted and removed none. *)
Theorem allocate_success_covers (m m' : MMU.t) (va size : Z) :
  MMU.allocate va size m = (m', Normal tt) →
  Int.in_range va → Int.in_range size → Int.in_range (va + size - 1) →
  let page_size := decide_page_size (MMU.policy_engine m) size in
  (∀ a, va <= a <= va + size - 1 →
        is_Some (MMU.page_table m' !! (a ÷ page_size)))
  ∧ MMU.get_page_table_size m <= MMU.get_page_table_size m'
    <= MMU.get_page_table_size m + Z.of_nat (request_pages m va size).
Proof.
  intros Hrun Hva Hsize Hlast page_size. split.
  - intros a Ha.
    destruct (page_of_address m va size a Hva Hsize Hlast Ha)
      as (j & Hj & Hvpn). fold page_size in Hvpn. rewrite <- Hvpn.
    rewrite allocate_unfold in Hrun. fold page_size in Hrun.
    apply (allocate_pages_covers page_size va _ 0 _ m'
             (request_pages_bound m va size) Hrun). lia.
  - pose proof (allocate_pages_size page_size va (request_pages m va size)
                  (Z.of_nat 0) (charged m va size)) as Hsz.
    rewrite allocate_unfold in Hrun. fold page_size in Hrun.
    rewrite Hrun in Hsz. unfold MMU.get_page_table_size.
    cbn [fst charged MMU.with_fragmentation MMU.page_table] in Hsz. lia.
Qed.

Lemma allocate_success_covers_witness :
  let m :=
    {| MMU.tlb := TLB.new TLB_SIZE;
       MMU.page_table := ∅;
       MMU.policy_engine := mkPolicyEngine "small" 1048576;
       MMU.physical_frames := [false; false; false];
       MMU.internal_fragmentation := 0 |} in
  (MMU.allocate 4000 200 m).2 = Normal tt
  ∧ is_Some (MMU.page_table (MMU.allocate 4000 200 m).1 !! 0)
  ∧ is_Some (MMU.page_table (MMU.allocate 4000 200 m).1 !! 1).
Proof.
  intros m.
  assert (MMU.allocate 4000 200 m = ((MMU.allocate 4000 200 m).1, Normal tt))
    as Hrun by reflexivity.
  destruct (allocate_success_covers m _ 4000 200 Hrun) as [Hcov _];
    [vm_compute; split; discriminate..|].
  split_and!; [reflexivity|apply (Hcov 4000); lia|apply (Hcov 4100); lia].
Defined.

(** ** What the fragmentation counter measures *)

Lemma charge_unused_bytes page_size va size :
  page_size = SMALL_PAGE_SIZE ∨ page_size = LARGE_PAGE_SIZE →
  plain_request (va, size) →
  fragmentation_charge page_size va size
  = va `rem` page_size + (page_size - 1 - (va + size - 1) `rem` page_size)
  ∧ 0 <= va `rem` page_size < page_size
  ∧ 0 <= (va + size - 1) `rem` page_size < page_size.
Proof.
  intros Hps (Hva & Hsize & Hlast). cbn [fst snd] in *.
  unfold Int.max_signed in Hsize, Hlast.
  rewrite fragmentation_charge_exact;
    [|done|unfold Int.in_range, Int.min_signed, Int.max_signed; lia..].
  pose proof (Z.quot_rem' va page_size) as Hq1.
  pose proof (Z.quot_rem' (va + size - 1) page_size) as Hq2.
  assert (0 < page_size) as Hpos by (destruct Hps as [-> | ->]; done).
  pose proof (Z.rem_bound_pos va page_size Hva Hpos).
  assert (0 <= va + size - 1) as Hnn by lia.
  pose proof (Z.rem_bound_pos (va + size - 1) page_size Hnn Hpos).
  split; [|done]. destruct Hps as [-> | ->];
    unfold SMALL_PAGE_SIZE, LARGE_PAGE_SIZE in *; lia.
Qed.

(** X14: for a request of at least one byte whose addresses are not
    negative and fit an [int], what [allocate] adds to the fragmentation
    counter is the number of bytes of the first page that lie before the
    request plus the number of bytes of the last page that lie after it:
    never negative, less than two pages, and less than one page when the
    request starts on a page boundary. *)
Theorem allocate_charges_unused_bytes (m : MMU.t) (va size : Z) :
  plain_request (va, size) →
  let page_size := decide_page_size (MMU.policy_engine m) size in
  let before := va `rem` page_size in
  let after := page_size - 1 - (va + size - 1) `rem` page_size in
  MMU.get_internal_fragmentation (MMU.allocate va size m).1
  = Int.add (MMU.get_internal_fragmentation m) (before + after)
  ∧ 0 <= before + after <= 2 * page_size - 2
  ∧ (before = 0 → before + after < page_size).
Proof.
  intros Hreq page_size before after.
  destruct (charge_unused_bytes page_size va size
              (decide_page_size_cases _ _) Hreq) as (Hcharge & Hb & Ha).
  unfold MMU.get_internal_fragmentation. rewrite allocate_fragmentation.
  fold page_size. rewrite Hcharge. fold before after.
  subst before after. split; [done|]. lia.
Qed.

Lemma allocate_charges_unused_bytes_witness :
  MMU.get_internal_fragmentation
    (MMU.allocate 4000 200
       {| MMU.tlb := TLB.new TLB_SIZE;
          MMU.page_table := ∅;
          MMU.policy_engine := mkPolicyEngine "small" 1048576;
          MMU.physical_frames := [false; false; false];
          MMU.internal_fragmentation := 10 |}).1
  = 10 + (4000 + 3992).
Proof.
  assert (plain_request (4000, 200)) as Hreq
    by (split_and!; vm_compute; discriminate).
  destruct (allocate_charges_unused_bytes
              {| MMU.tlb := TLB.new TLB_SIZE;
                 MMU.page_table := ∅;
                 MMU.policy_engine := mkPolicyEngine "small" 1048576;
                 MMU.physical_frames := [false; false; false];
                 MMU.internal_fragmentation := 10 |} 4000 200 Hreq)
    as (Hfrag & _).
  rewrite Hfrag. reflexivity.
Defined.

(** ** Addresses without a page *)

Lemma mapped_with_spec m vpn page_size :
  MMU.mapped_with m vpn page_size = true
  ↔ ∃ f, MMU.page_table m !! vpn = Some (f, page_size).
Proof.
  unfold MMU.mapped_with.
  destruct (MMU.page_table m !! vpn) as [[f second]|].
  - rewrite Z.eqb_eq. split; [intros ->; by exists f|by intros (? & [= _ ->])].
  - split; [done|by intros [? ?]].
Qed.

Lemma resolve_None a m :
  Int.in_range a →
  MMU.resolve a m = None
  ↔ (¬ ∃ f, MMU.page_table m !! (a ÷ LARGE_PAGE_SIZE)
             = Some (f, LARGE_PAGE_SIZE))
    ∧ (¬ ∃ f, MMU.page_table m !! (a ÷ SMALL_PAGE_SIZE)
               = Some (f, SMALL_PAGE_SIZE)).
Proof.
  intros Ha. unfold MMU.resolve.
  rewrite !div_pos_exact by done.
  rewrite <- !mapped_with_spec.
  destruct (MMU.mapped_with m (a ÷ LARGE_PAGE_SIZE) LARGE_PAGE_SIZE),
    (MMU.mapped_with m (a ÷ SMALL_PAGE_SIZE) SMALL_PAGE_SIZE);
    intuition congruence.
Qed.

(** X15: [translate] throws exactly when the address has neither a large
    page (an entry of the large size at [address / LARGE_PAGE_SIZE]) nor a
    small page (an entry of the small size at [address / SMALL_PAGE_SIZE]).
    The message is "Invalid virtual address" and the MMU is left as it
    was: no TLB lookup was made, so the failure counts neither as a hit nor
    as a miss. *)
Theorem translate_invalid_address (a : Z) (m m' : MMU.t) (what : string) :
  Int.in_range a →
  MMU.translate a m = Some (m', Throws what)
  ↔ m' = m ∧ what = "Invalid virtual address"%string
    ∧ (¬ ∃ f, MMU.page_table m !! (a ÷ LARGE_PAGE_SIZE)
               = Some (f, LARGE_PAGE_SIZE))
    ∧ (¬ ∃ f, MMU.page_table m !! (a ÷ SMALL_PAGE_SIZE)
               = Some (f, SMALL_PAGE_SIZE)).
Proof.
  intros Ha. rewrite <- (resolve_None a m Ha). unfold MMU.translate.
  destruct (MMU.resolve a m) as [vpn|].
  - split; [|by intros (_ & _ & ?)].
    destruct (TLB.lookup vpn (MMU.tlb m)) as [tl pf].
    destruct (pf =? -1); [|done].
    by destruct (TLB.insert _ _ tl).
  - split; [by intros [= <- <-]|by intros (-> & -> & _)].
Qed.

Lemma translate_invalid_address_witness :
  MMU.translate 8192
    {| MMU.tlb := TLB.new TLB_SIZE;
       MMU.page_table := {[ 0 := (0, 4096) ]};
       MMU.policy_engine := mkPolicyEngine "small" 1048576;
       MMU.physical_frames := [true; false; false];
       MMU.internal_fragmentation := 0 |}
  = Some ({| MMU.tlb := TLB.new TLB_SIZE;
             MMU.page_table := {[ 0 := (0, 4096) ]};
             MMU.policy_engine := mkPolicyEngine "small" 1048576;
             MMU.physical_frames := [true; false; false];
             MMU.internal_fragmentation := 0 |},
          Throws "Invalid virtual address").
Proof.
  assert (Int.in_range 8192) as Ha by (vm_compute; split; discriminate).
  apply (translate_invalid_address 8192 _ _ _ Ha).
  split_and!; [done|done|..]; intros [f Hf]; vm_compute in Hf; discriminate.
Defined.

(** ** Translation and the TLB *)

Lemma insert_stores v f tl tl' :
  TLB.insert v f tl = Some tl' →
  OrderedDict.map (TLB.cache tl') !! v = Some f.
Proof.
  unfold TLB.insert. intros Hins.
  repeat match type of Hins with
    | context [if ?b then _ else _] => destruct b
    | context [OrderedDict.erase ?k ?d] =>
        destruct (OrderedDict.erase k d); cbn in Hins
    | context [head ?l] => destruct (head l); cbn in Hins
    end; simplify_eq; apply lookup_insert_eq.
Qed.

(** A translation whose page is cached. *)
Lemma translate_hit a m v f :
  MMU.resolve a m = Some v →
  OrderedDict.map (TLB.cache (MMU.tlb m)) !! v = Some f → f ≠ -1 →
  MMU.translate a m
  = Some (MMU.with_tlb m
            {| TLB.tlb_size := TLB.tlb_size (MMU.tlb m);
               TLB.cache := OrderedDict.move_to_end v (TLB.cache (MMU.tlb m));
               TLB.hits := Int.add (TLB.hits (MMU.tlb m)) 1;
               TLB.misses := TLB.misses (MMU.tlb m) |}, Normal f).
Proof.
  intros Hres Hv Hf. unfold MMU.translate.
  rewrite Hres, (lookup_hit v f) by done.
  by destruct (Z.eqb_spec f (-1)).
Qed.

(** A translation whose page is not cached. *)
Lemma translate_miss a m v e :
  mmu_ok m → MMU.resolve a m = Some v →
  MMU.page_table m !! v = Some e →
  OrderedDict.map (TLB.cache (MMU.tlb m)) !! v = None →
  ∃ tl',
    MMU.translate a m = Some (MMU.with_tlb m tl', Normal e.1)
    ∧ OrderedDict.map (TLB.cache tl') !! v = Some e.1
    ∧ TLB.hits tl' = TLB.hits (MMU.tlb m)
    ∧ TLB.misses tl' = Int.add (TLB.misses (MMU.tlb m)) 1.
Proof.
  intros [Hinv _] Hres He Hv. unfold MMU.translate.
  rewrite Hres, lookup_miss, He by done.
  change (default (0, 0) (Some e)) with e.
  change (-1 =? -1) with true. cbn match.
  pose proof (tlb_inv_lookup TLB_SIZE v _ Hinv) as Hinv1.
  rewrite lookup_miss in Hinv1 by done. cbn [fst] in Hinv1.
  destruct (insert_defined TLB_SIZE v e.1 _ ltac:(done) Hinv1)
    as [tl' Hins].
  rewrite Hins. exists tl'. split; [done|].
  split; [by apply insert_stores in Hins|].
  by apply insert_counters in Hins as (-> & -> & _).
Qed.

(** The two cases together, on an MMU whose cached frames are those of the
    page table and whose frame numbers are not negative. *)
Lemma translate_counts a m v :
  mmu_ok m → frames_inv m → MMU.resolve a m = Some v →
  ∃ f tl',
    MMU.translate a m = Some (MMU.with_tlb m tl', Normal f)
    ∧ 0 <= f
    ∧ OrderedDict.map (TLB.cache tl') !! v = Some f
    ∧ ((TLB.hits tl' = Int.add (TLB.hits (MMU.tlb m)) 1
        ∧ TLB.misses tl' = TLB.misses (MMU.tlb m))
       ∨ (TLB.hits tl' = TLB.hits (MMU.tlb m)
          ∧ TLB.misses tl' = Int.add (TLB.misses (MMU.tlb m)) 1)).
Proof.
  intros Hok Hinv Hres.
  destruct (resolve_Some a m v Hres) as (f & sz & He).
  destruct Hinv as (_ & Hent & _). destruct (Hent v _ He) as (_ & Hf & _).
  cbn [fst] in Hf. exists f.
  destruct (OrderedDict.map (TLB.cache (MMU.tlb m)) !! v) as [f'|] eqn:Hv.
  - destruct Hok as [_ Hcoh]. destruct (Hcoh v f' Hv) as [sz' Hv'].
    rewrite He in Hv'. injection Hv' as <- <-.
    eexists. split; [apply (translate_hit a m v f); [done|done|lia]|].
    split; [done|]. cbn. rewrite map_move_to_end. split; [done|]. by left.
  - destruct (translate_miss a m v (f, sz) Hok Hres He Hv)
      as (tl' & Htr & Hc & Hh & Hm).
    exists tl'. split_and!; [done..|]. by right.
Qed.

(** The counters of the TLB of an MMU. *)
Lemma allocate_tlb va size m : MMU.tlb (MMU.allocate va size m).1 = MMU.tlb m.
Proof. by rewrite allocate_unfold, allocate_pages_tlb. Qed.

(** A translation makes one TLB lookup when it succeeds and none when it
    fails. *)
Lemma translate_counters a m m1 r :
  MMU.translate a m = Some (m1, r) →
  0 <= TLB.hits (MMU.tlb m) → 0 <= TLB.misses (MMU.tlb m) →
  TLB.hits (MMU.tlb m) + TLB.misses (MMU.tlb m) + 1 <= Int.max_signed →
  TLB.hits (MMU.tlb m) <= TLB.hits (MMU.tlb m1)
  ∧ TLB.misses (MMU.tlb m) <= TLB.misses (MMU.tlb m1)
  ∧ TLB.hits (MMU.tlb m1) + TLB.misses (MMU.tlb m1)
    = TLB.hits (MMU.tlb m) + TLB.misses (MMU.tlb m)
      + match r with Normal _ => 1 | Throws _ => 0 end.
Proof.
  intros Htr Hh Hm Hsum. unfold MMU.translate in Htr.
  destruct (MMU.resolve a m) as [v|]; [|injection Htr as <- <-; lia].
  assert (TLB.hits (TLB.lookup v (MMU.tlb m)).1
          + TLB.misses (TLB.lookup v (MMU.tlb m)).1
          = TLB.hits (MMU.tlb m) + TLB.misses (MMU.tlb m) + 1
          ∧ TLB.hits (MMU.tlb m) <= TLB.hits (TLB.lookup v (MMU.tlb m)).1
          ∧ TLB.misses (MMU.tlb m)
            <= TLB.misses (TLB.lookup v (MMU.tlb m)).1)
    as (Hone & Hh1 & Hm1).
  { destruct (OrderedDict.map (TLB.cache (MMU.tlb m)) !! v) as [f|] eqn:Hv.
    - rewrite (lookup_hit v f) by done. cbn. unfold Int.add.
      rewrite wrap_id by (unfold Int.in_range, Int.min_signed,
        Int.max_signed in *; lia). lia.
    - rewrite lookup_miss by done. cbn. unfold Int.add.
      rewrite wrap_id by (unfold Int.in_range, Int.min_signed,
        Int.max_signed in *; lia). lia. }
  destruct (TLB.lookup v (MMU.tlb m)) as [tl pf]. cbn [fst] in *.
  destruct (pf =? -1).
  - destruct (TLB.insert v _ tl) as [tl'|] eqn:Hins; [|done].
    cbn in Htr. injection Htr as <- <-.
    apply insert_counters in Hins as (Hh2 & Hm2 & _). cbn. lia.
  - injection Htr as <- <-. cbn. lia.
Qed.

Lemma mmu_run_counters ops : ∀ m m',
  mmu_run ops m = Some m' →
  0 <= TLB.hits (MMU.tlb m) → 0 <= TLB.misses (MMU.tlb m) →
  TLB.hits (MMU.tlb m) + TLB.misses (MMU.tlb m)
    + Z.of_nat (translations ops) <= Int.max_signed →
  TLB.hits (MMU.tlb m) <= TLB.hits (MMU.tlb m')
  ∧ TLB.misses (MMU.tlb m) <= TLB.misses (MMU.tlb m')
  ∧ TLB.hits (MMU.tlb m') + TLB.misses (MMU.tlb m')
    <= TLB.hits (MMU.tlb m) + TLB.misses (MMU.tlb m)
       + Z.of_nat (translations ops).
Proof.
  induction ops as [|o ops IH]; intros m m' Hrun Hh Hm Hsum.
  - cbn in *. injection Hrun as <-. lia.
  - cbn [mmu_run] in Hrun.
    destruct (mmu_step o m) as [m1|] eqn:Hstep; cbn in Hrun; [|done].
    destruct o as [va size|a]; cbn [mmu_step translations] in *.
    + apply (inj Some) in Hstep. subst m1.
      specialize (IH _ _ Hrun). rewrite allocate_tlb in IH. apply IH; lia.
    + destruct (MMU.translate a m) as [[m2 r]|] eqn:Htr; [|done].
      cbn in Hstep. injection Hstep as ->.
      assert (TLB.hits (MMU.tlb m) + TLB.misses (MMU.tlb m) + 1
              <= Int.max_signed) as Hroom by lia.
      destruct (translate_counters a m m1 r Htr Hh Hm Hroom)
        as (Hh1 & Hm1 & Hone).
      assert (TLB.hits (MMU.tlb m1) + TLB.misses (MMU.tlb m1)
              <= TLB.hits (MMU.tlb m) + TLB.misses (MMU.tlb m) + 1) as Hle
        by (destruct r; lia).
      assert (0 <= TLB.hits (MMU.tlb m1)) as Hh' by lia.
      assert (0 <= TLB.misses (MMU.tlb m1)) as Hm' by lia.
      assert (TLB.hits (MMU.tlb m1) + TLB.misses (MMU.tlb m1)
              + Z.of_nat (translations ops) <= Int.max_signed) as Hsum'
        by lia.
      destruct (IH _ _ Hrun Hh' Hm' Hsum') as (? & ? & ?). lia.
Qed.

(** X16: on an MMU reached from a new one by calls of [allocate] and
    [translate] of which at most 2147483645 are translations, a translation
    that succeeds yields a frame number that is not negative, and repeating
    it at once yields the same frame from the TLB: after the second call
    [hits] is one more and [misses] is the same, no counter having
    overflowed (the two counters add up to at most [INT_MAX]). A
    translation that throws leaves the MMU as it was. The [int] arithmetic
    of the [allocate] calls wraps around where it overflows. *)
Theorem translate_again_hits (pe : PolicyEngine) (ops : list mmu_op)
    (m : MMU.t) (a : Z) :
  Z.of_nat (translations ops) <= 2147483645 →
  mmu_run ops (MMU.new pe) = Some m →
  ∃ m1 r,
    MMU.translate a m = Some (m1, r)
    ∧ (∀ what, r = Throws what → m1 = m)
    ∧ (∀ f, r = Normal f →
         0 <= f
         ∧ ∃ m2,
             MMU.translate a m1 = Some (m2, Normal f)
             ∧ TLB.hits (MMU.tlb m2) = TLB.hits (MMU.tlb m1) + 1
             ∧ TLB.misses (MMU.tlb m2) = TLB.misses (MMU.tlb m1)
             ∧ 0 <= TLB.hits (MMU.tlb m1) ∧ 0 <= TLB.misses (MMU.tlb m1)
             ∧ TLB.hits (MMU.tlb m2) + TLB.misses (MMU.tlb m2)
               <= Int.max_signed).
Proof.
  intros Hn Hrun.
  destruct (mmu_run_inv ops (MMU.new pe) (mmu_ok_new pe) (frames_inv_new pe))
    as (m0 & Hrun0 & Hok & Hinv & _).
  rewrite Hrun in Hrun0. apply (inj Some) in Hrun0. subst m0.
  destruct (mmu_run_counters ops _ _ Hrun) as (Hh & Hm & Hsum);
    cbn [MMU.new MMU.tlb TLB.new TLB.hits TLB.misses] in *;
    [lia|lia|unfold Int.max_signed; lia|].
  destruct (MMU.resolve a m) as [v|] eqn:Hres.
  - destruct (translate_counts a m v Hok Hinv Hres)
      as (f & tl' & Htr & Hf & Hc & _).
    assert (TLB.hits (MMU.tlb m) + TLB.misses (MMU.tlb m) + 1
            <= Int.max_signed) as Hroom by (unfold Int.max_signed; lia).
    destruct (translate_counters a m _ _ Htr Hh Hm Hroom)
      as (Hh1 & Hm1 & Hone).
    cbn [MMU.with_tlb MMU.tlb] in Hh1, Hm1, Hone.
    exists (MMU.with_tlb m tl'), (Normal f).
    split; [done|]. split; [done|]. intros ? [= <-]. split; [done|].
    eexists.
    split; [apply (translate_hit a (MMU.with_tlb m tl') v f);
            [done|done|lia]|].
    cbn [MMU.with_tlb MMU.tlb TLB.hits TLB.misses].
    assert (Int.add (TLB.hits tl') 1 = TLB.hits tl' + 1) as ->.
    { apply wrap_id. unfold Int.in_range, Int.min_signed, Int.max_signed.
      lia. }
    unfold Int.max_signed. split_and!; try done; lia.
  - exists m, (Throws "Invalid virtual address").
    unfold MMU.translate. rewrite Hres. by split_and!.
Qed.

Lemma translate_again_hits_witness :
  ∃ m1 r,
    MMU.translate 100
      (MMU.allocate 0 4096 (MMU.new (mkPolicyEngine "small" 0))).1
    = Some (m1, r)
    ∧ (∀ f, r = Normal f → ∃ m2, MMU.translate 100 m1 = Some (m2, Normal f)).
Proof.
  assert (Z.of_nat (translations [Allocate 0 4096]) <= 2147483645) as Hn
    by (cbn; lia).
  destruct (translate_again_hits (mkPolicyEngine "small" 0)
              [Allocate 0 4096] _ 100 Hn eq_refl)
    as (m1 & r & Htr & _ & Hagain).
  exists m1, r. split; [exact Htr|].
  intros f Hf. destruct (Hagain f Hf) as (_ & m2 & Htr2 & _).
  by exists m2.
Defined.

(** ** The hit rate of an MMU *)

(** X17: after any calls of [allocate] and [translate] on a new MMU, of
    which at most 21474836 are translations, the TLB has counted at most
    one hit or miss for each translation, and [get_tlb_hit_rate()] is the
    percentage of hits rounded down, 0 when nothing was looked up: a
    number between 0 and 100. *)
Theorem mmu_hit_rate_in_range (pe : PolicyEngine) (ops : list mmu_op) :
  Z.of_nat (translations ops) <= 21474836 →
  ∃ m,
    mmu_run ops (MMU.new pe) = Some m
    ∧ 0 <= TLB.hits (MMU.tlb m) ∧ 0 <= TLB.misses (MMU.tlb m)
    ∧ TLB.hits (MMU.tlb m) + TLB.misses (MMU.tlb m)
      <= Z.of_nat (translations ops)
    ∧ MMU.get_tlb_hit_rate m
      = (if TLB.hits (MMU.tlb m) + TLB.misses (MMU.tlb m) =? 0 then 0
         else (100 * TLB.hits (MMU.tlb m))
              / (TLB.hits (MMU.tlb m) + TLB.misses (MMU.tlb m)))
    ∧ 0 <= MMU.get_tlb_hit_rate m <= 100.
Proof.
  intros Hn.
  destruct (mmu_run_inv ops (MMU.new pe) (mmu_ok_new pe) (frames_inv_new pe))
    as (m & Hrun & _).
  exists m. split; [done|].
  destruct (mmu_run_counters ops _ _ Hrun) as (Hh & Hm & Hsum);
    cbn [MMU.new MMU.tlb TLB.new TLB.hits TLB.misses] in *;
    [lia|lia|unfold Int.max_signed; lia|].
  destruct (hit_rate_exact (MMU.tlb m)) as [Hrate Hrange];
    [lia|lia|unfold Int.max_signed; lia|unfold Int.max_signed; lia|].
  unfold MMU.get_tlb_hit_rate. split_and!; try done; lia.
Qed.

Lemma mmu_hit_rate_in_range_witness :
  ∃ m,
    mmu_run [Allocate 0 4096; Translate 0; Translate 1; Translate 4096]
      (MMU.new (mkPolicyEngine "small" 0)) = Some m
    ∧ 0 <= MMU.get_tlb_hit_rate m <= 100.
Proof.
  destruct (mmu_hit_rate_in_range (mkPolicyEngine "small" 0)
              [Allocate 0 4096; Translate 0; Translate 1; Translate 4096])
    as (m & Hrun & _ & _ & _ & _ & Hrange); [cbn; lia|].
  exists m. split; [exact Hrun|exact Hrange].
Defined.

(** ** One page size *)

Lemma fixed_page_size pe s s' :
  mode pe ≠ "dynamic"%string →
  decide_page_size pe s = decide_page_size pe s'.
Proof.
  intros Hmode. unfold decide_page_size.
  destruct (String.eqb_spec (mode pe) "small"); [done|].
  destruct (String.eqb_spec (mode pe) "large"); [done|].
  by destruct (String.eqb_spec (mode pe) "dynamic").
Qed.

(** X18: the page size selected never shrinks when the request grows, and
    unless the mode is "dynamic" it does not depend on the request at
    all. *)
Theorem decide_page_size_monotone (pe : PolicyEngine) (s1 s2 : Z) :
  s1 <= s2 →
  decide_page_size pe s1 <= decide_page_size pe s2
  ∧ (mode pe ≠ "dynamic"%string →
     decide_page_size pe s1 = decide_page_size pe s2).
Proof.
  intros Hle. split; [|apply fixed_page_size].
  unfold decide_page_size.
  destruct (String.eqb (mode pe) "small"); [done|].
  destruct (String.eqb (mode pe) "large"); [done|].
  destruct (String.eqb (mode pe) "dynamic"); [|done].
  destruct (Z.gtb_spec s1 (threshold pe)), (Z.gtb_spec s2 (threshold pe));
    try done. lia.
Qed.

Lemma decide_page_size_monotone_witness :
  decide_page_size (PolicyEngine_new None None) 4096
  <= decide_page_size (PolicyEngine_new None None) 2097152.
Proof.
  assert (4096 <= 2097152) as Hle by lia.
  destruct (decide_page_size_monotone (PolicyEngine_new None None)
              4096 2097152 Hle) as [Hmono _].
  exact Hmono.
Defined.

Lemma allocate_keeps va size m v e :
  MMU.page_table m !! v = Some e →
  MMU.page_table (MMU.allocate va size m).1 !! v = Some e.
Proof.
  intros He. rewrite allocate_unfold. by apply allocate_pages_keeps.
Qed.

Lemma mmu_run_entries ops : ∀ m m' v e,
  mmu_run ops m = Some m' →
  MMU.page_table m !! v = Some e → MMU.page_table m' !! v = Some e.
Proof.
  induction ops as [|o ops IH]; intros m m' v e Hrun He.
  - cbn in Hrun. by injection Hrun as <-.
  - cbn [mmu_run] in Hrun.
    destruct (mmu_step o m) as [m1|] eqn:Hstep; cbn in Hrun; [|done].
    apply (IH m1 m' v e Hrun).
    destruct o as [va size|a]; cbn [mmu_step] in Hstep.
    + apply (inj Some) in Hstep. subst m1. by apply allocate_keeps.
    + destruct (MMU.translate a m) as [[m2 r]|] eqn:Htr; [|done].
      cbn in Hstep. injection Hstep as ->.
      apply translate_frame in Htr as (-> & _). done.
Qed.

Lemma mmu_run_uniform page_size ops : ∀ m m',
  (∀ s, decide_page_size (MMU.policy_engine m) s = page_size) →
  uniform_pages page_size m →
  mmu_run ops m = Some m' → uniform_pages page_size m'.
Proof.
  induction ops as [|o ops IH]; intros m m' Hps Huni Hrun.
  - cbn in Hrun. by injection Hrun as <-.
  - cbn [mmu_run] in Hrun.
    destruct (mmu_step o m) as [m1|] eqn:Hstep; cbn in Hrun; [|done].
    destruct o as [va size|a]; cbn [mmu_step] in Hstep.
    + apply (inj Some) in Hstep. subst m1.
      apply (IH (MMU.allocate va size m).1 m'); [| |done].
      * intros s. by rewrite allocate_policy.
      * rewrite <- (Hps size). apply allocate_uniform. by rewrite Hps.
    + destruct (MMU.translate a m) as [[m2 r]|] eqn:Htr; [|done].
      cbn in Hstep. injection Hstep as ->.
      apply translate_frame in Htr as (Hpt & _ & Hpe & _).
      apply (IH m1 m'); [by rewrite Hpe| |done].
      unfold uniform_pages. by rewrite Hpt.
Qed.

(** Where every page has the size [page_size], an address whose page has
    an entry resolves to it. *)
Lemma resolve_covered page_size m a f :
  page_size = SMALL_PAGE_SIZE ∨ page_size = LARGE_PAGE_SIZE →
  uniform_pages page_size m → Int.in_range a →
  MMU.page_table m !! (a ÷ page_size) = Some (f, page_size) →
  MMU.resolve a m = Some (a ÷ page_size).
Proof.
  intros Hps Huni Ha He. unfold MMU.resolve.
  rewrite !div_pos_exact by done.
  destruct Hps as [-> | ->].
  - destruct (MMU.mapped_with m (a ÷ LARGE_PAGE_SIZE) LARGE_PAGE_SIZE)
      eqn:Hlarge.
    + apply mapped_with_spec in Hlarge as [f' Hf'].
      by apply Huni in Hf'.
    + by rewrite (proj2 (mapped_with_spec m _ _) (ex_intro _ f He)).
  - by rewrite (proj2 (mapped_with_spec m _ _) (ex_intro _ f He)).
Qed.

(** X19: with a policy whose mode is not "dynamic", the addresses of a
    request that [allocate] accepted stay translatable: whatever calls
    came before the request and whatever calls follow it, [translate]
    does not throw for an address of the request and yields the frame that
    the page table records for the page of the address. *)
Theorem fixed_policy_translates (pe : PolicyEngine) (ops1 ops2 : list mmu_op)
    (m m1 m2 : MMU.t) (va size a : Z) :
  mode pe ≠ "dynamic"%string →
  mmu_run ops1 (MMU.new pe) = Some m →
  MMU.allocate va size m = (m1, Normal tt) →
  Int.in_range va → Int.in_range size → Int.in_range (va + size - 1) →
  mmu_run ops2 m1 = Some m2 →
  va <= a <= va + size - 1 →
  ∃ m3 f,
    MMU.translate a m2 = Some (m3, Normal f)
    ∧ MMU.page_table m2 !! (a ÷ decide_page_size pe size)
      = Some (f, decide_page_size pe size)
    ∧ 0 <= f.
Proof.
  intros Hmode Hrun1 Halloc Hva Hsize Hlast Hrun2 Ha.
  set (page_size := decide_page_size pe size).
  destruct (mmu_run_inv ops1 (MMU.new pe) (mmu_ok_new pe)
              (frames_inv_new pe)) as (m0 & Hrun0 & Hok & Hinv & Hpe).
  rewrite Hrun1 in Hrun0. injection Hrun0 as <-.
  cbn [MMU.new MMU.policy_engine] in Hpe.
  assert (∀ s, decide_page_size pe s = page_size) as Hfixed
    by (intros s; by apply fixed_page_size).
  assert (uniform_pages page_size m) as Huni.
  { apply (mmu_run_uniform page_size ops1 (MMU.new pe) m); [done| |done].
    intros v e. cbn. by rewrite lookup_empty. }
  assert (uniform_pages page_size m1) as Huni1.
  { pose proof (allocate_uniform va size m) as Hu.
    rewrite Hpe, Halloc in Hu. by apply Hu. }
  destruct (translate_within_request_uniform m m1 va size a)
    as (_ & f & _ & He & _); try done.
  { by apply frames_inv_length. }
  { by rewrite Hpe. }
  rewrite Hpe in He. fold page_size in He.
  assert (mmu_ok m1 ∧ frames_inv m1 ∧ MMU.policy_engine m1 = pe)
    as (Hok1 & Hinv1 & Hpe1).
  { pose proof (allocate_ok va size m Hok) as H1.
    pose proof (frames_inv_allocate va size m Hinv) as H2.
    pose proof (allocate_policy va size m) as H3.
    rewrite Halloc in H1, H2, H3. by rewrite <- Hpe. }
  destruct (mmu_run_inv ops2 m1 Hok1 Hinv1) as (m2' & Hrun2' & Hok2 & Hinv2 & _).
  rewrite Hrun2 in Hrun2'. injection Hrun2' as <-.
  pose proof (mmu_run_entries ops2 m1 m2 _ _ Hrun2 He) as He2.
  assert (uniform_pages page_size m2) as Huni2.
  { apply (mmu_run_uniform page_size ops2 m1 m2); [|done..].
    by rewrite Hpe1. }
  assert (Int.in_range a) as Hain by (unfold Int.in_range in *; lia).
  pose proof (resolve_covered page_size m2 a f
                (decide_page_size_cases _ _) Huni2 Hain He2) as Hres.
  destruct (translate_resolved a m2 Hok2) as (m3 & Htr & _).
  rewrite Hres, He2 in Htr. exists m3, f. split; [done|]. split; [done|].
  destruct Hinv2 as (_ & Hent & _). by destruct (Hent _ _ He2) as (_ & ? & _).
Qed.

Lemma fixed_policy_translates_witness :
  ∃ m3 f,
    MMU.translate 100
      (MMU.allocate 8192 4096
         (MMU.allocate 0 4096 (MMU.new (mkPolicyEngine "small" 0))).1).1
    = Some (m3, Normal f)
    ∧ 0 <= f.
Proof.
  set (pe := mkPolicyEngine "small" 0).
  assert (mode pe ≠ "dynamic"%string) as Hmode by discriminate.
  assert (Int.in_range 0 ∧ Int.in_range 4096 ∧ Int.in_range (0 + 4096 - 1))
    as (H0 & H1 & H2) by (split_and!; vm_compute; split; discriminate).
  assert (0 <= 100 <= 0 + 4096 - 1) as Ha by lia.
  set (m1 := (MMU.allocate 0 4096 (MMU.new pe)).1).
  assert (mmu_run [] (MMU.new pe) = Some (MMU.new pe)) as Hrun1
    by reflexivity.
  assert (mmu_run [Allocate 8192 4096] m1
          = Some (MMU.allocate 8192 4096 m1).1) as Hrun2 by reflexivity.
  assert (MMU.allocate 0 4096 (MMU.new pe) = (m1, Normal tt)) as Halloc.
  { rewrite (surjective_pairing (MMU.allocate 0 4096 (MMU.new pe))) at 1.
    f_equal; vm_compute; reflexivity. }
  destruct (fixed_policy_translates pe [] [Allocate 8192 4096]
              (MMU.new pe) m1 (MMU.allocate 8192 4096 m1).1
              0 4096 100 Hmode Hrun1 Halloc H0 H1 H2 Hrun2 Ha)
    as (m3 & f & Htr & _ & Hf).
  exists m3, f. split; [exact Htr|exact Hf].
Defined.

(** ** The driver *)

Lemma allocate_normal_tt va size m m' u :
  MMU.allocate va size m = (m', Normal u) →
  MMU.allocate va size m = (m', Normal tt).
Proof. by destruct u. Qed.

Lemma plain_request_in_range request :
  plain_request request →
  Int.in_range request.1 ∧ Int.in_range request.2
  ∧ Int.in_range (request.1 + request.2 - 1).
Proof.
  unfold plain_request, Int.in_range, Int.min_signed, Int.max_signed. lia.
Qed.

(** The allocation phase on a workload whose requests all get the page
    size [page_size]. *)
Lemma allocation_phase_covers page_size workload : ∀ m m' r,
  mmu_ok m → frames_inv m → uniform_pages page_size m →
  Forall (λ request : Z * Z,
            plain_request request
            ∧ decide_page_size (MMU.policy_engine m) request.2 = page_size)
    workload →
  allocation_phase workload m = (m', r) →
  MMU.tlb m' = MMU.tlb m
  ∧ match r with
    | Throws what => what = "Out of physical memory"%string
    | Normal _ =>
        m' = allocate_all workload m
        ∧ mmu_ok m' ∧ frames_inv m' ∧ uniform_pages page_size m'
        ∧ (∀ v e, MMU.page_table m !! v = Some e →
                  MMU.page_table m' !! v = Some e)
        ∧ Forall (covered page_size m') workload
    end.
Proof.
  induction workload as [|[va size] rest IH];
    intros m m' r Hok Hinv Huni Hall Hrun.
  - cbn in Hrun. injection Hrun as <- <-. by split_and!.
  - apply Forall_cons in Hall as [[Hplain Hps] Hall]. cbn [fst snd] in Hps.
    cbn [allocation_phase fst snd] in Hrun.
    destruct (MMU.allocate va size m) as [m1 r1] eqn:Halloc.
    pose proof (allocate_tlb va size m) as Htlb.
    pose proof (allocate_ok va size m Hok) as Hok1.
    pose proof (frames_inv_allocate va size m Hinv) as Hinv1.
    pose proof (allocate_policy va size m) as Hpe1.
    pose proof (allocate_uniform va size m) as Huni1.
    rewrite Hps in Huni1. specialize (Huni1 Huni).
    rewrite Halloc in Htlb, Hok1, Hinv1, Hpe1, Huni1. cbn [fst] in *.
    destruct r1 as [u|what].
    + apply allocate_normal_tt in Halloc.
      assert (Forall (λ request : Z * Z,
                plain_request request
                ∧ decide_page_size (MMU.policy_engine m1) request.2
                  = page_size) rest) as Hall1 by (by rewrite Hpe1).
      destruct (IH m1 m' r Hok1 Hinv1 Huni1 Hall1 Hrun) as [Htlb' Hr].
      split; [congruence|]. destruct r as [u'|what]; [|done].
      destruct Hr as (Heq & Hok' & Hinv' & Huni' & Hkeep & Hcov).
      split_and!; [|done..| |].
      * cbn [allocate_all foldl fst snd]. by rewrite Halloc.
      * intros v e He. apply Hkeep.
        pose proof (allocate_keeps va size m v e He) as Hk.
        by rewrite Halloc in Hk.
      * apply Forall_cons. split; [|done].
        intros a Ha. cbn [fst snd] in Ha.
        destruct (plain_request_in_range _ Hplain) as (Hr1 & Hr2 & Hr3).
        cbn [fst snd] in *.
        destruct (translate_within_request_uniform m m1 va size a)
          as (_ & f & _ & He & _); try done.
        { by apply frames_inv_length. }
        { by rewrite Hps. }
        rewrite Hps in He. exists f. by apply Hkeep.
    + injection Hrun as <- <-. split; [done|].
      rewrite allocate_unfold in Halloc.
      pose proof (request_pages_bound m va size) as Hn.
      apply (allocate_pages_throws _ va _ 0) in Halloc as [-> _];
        [done| |by apply frames_inv_length|done].
      destruct (decide_page_size_cases (MMU.policy_engine m) size)
        as [-> | ->]; done.
Qed.

(** The address of an access lies in a request of the workload. *)
Lemma access_address_in_request workload i :
  workload ≠ [] → Forall plain_request workload →
  0 <= i <= Int.max_signed →
  ∃ request a,
    request ∈ workload
    ∧ access_address workload i = Some a
    ∧ request.1 <= a <= request.1 + request.2 - 1.
Proof.
  intros Hne Hall Hi. unfold access_address.
  assert (0 < Z.of_nat (length workload)) as Hlen
    by (destruct workload; [done|cbn; lia]).
  destruct (Z.eqb_spec (Z.of_nat (length workload)) 0) as [|_]; [lia|].
  rewrite to_size_t_id by done.
  pose proof (Z.rem_bound_pos i (Z.of_nat (length workload))
                (proj1 Hi) Hlen) as Hrem.
  destruct (lookup_lt_is_Some_2 workload
              (Z.to_nat (i `rem` Z.of_nat (length workload))))
    as [request Hreq]; [lia|].
  rewrite Hreq. cbn [mbind option_bind].
  pose proof (proj1 (Forall_lookup _ _) Hall _ _ Hreq)
    as (Hva & Hsize & Hlast).
  destruct (Z.eqb_spec request.2 0) as [|_]; [lia|].
  assert (0 < request.2) as Hpos by lia.
  pose proof (Z.rem_bound_pos i request.2 (proj1 Hi) Hpos) as Hoff.
  exists request, (request.1 + i `rem` request.2).
  split; [by eapply list_elem_of_lookup_2|].
  split; [|lia]. f_equal. apply wrap_id.
  unfold Int.in_range, Int.min_signed, Int.max_signed in *. lia.
Qed.

(** The access phase on a workload whose requests are covered: every
    translation succeeds and makes one TLB lookup. *)
Lemma access_phase_covered page_size workload n : ∀ i m errors,
  workload ≠ [] → Forall plain_request workload →
  page_size = SMALL_PAGE_SIZE ∨ page_size = LARGE_PAGE_SIZE →
  mmu_ok m → uniform_pages page_size m →
  Forall (covered page_size m) workload →
  0 <= i → i + Z.of_nat n <= Int.max_signed →
  0 <= TLB.hits (MMU.tlb m) → 0 <= TLB.misses (MMU.tlb m) →
  TLB.hits (MMU.tlb m) + TLB.misses (MMU.tlb m) + Z.of_nat n
    <= Int.max_signed →
  ∃ m',
    access_phase n i workload m errors = Some (m', errors)
    ∧ MMU.page_table m' = MMU.page_table m
    ∧ MMU.internal_fragmentation m' = MMU.internal_fragmentation m
    ∧ 0 <= TLB.hits (MMU.tlb m') ∧ 0 <= TLB.misses (MMU.tlb m')
    ∧ TLB.hits (MMU.tlb m') + TLB.misses (MMU.tlb m')
      = TLB.hits (MMU.tlb m) + TLB.misses (MMU.tlb m) + Z.of_nat n.
Proof.
  induction n as [|n IH];
    intros i m errors Hne Hall Hps Hok Huni Hcov Hi Hin Hh Hm Hsum.
  - exists m. cbn [access_phase]. split_and!; [done..|lia].
  - cbn [access_phase].
    assert (0 <= i <= Int.max_signed) as Hi' by lia.
    destruct (access_address_in_request workload i Hne Hall Hi')
      as (request & a & Hreq & -> & Ha).
    cbn [mbind option_bind].
    destruct (proj1 (Forall_forall _ _) Hcov request Hreq a Ha) as [f He].
    pose proof (proj1 (Forall_forall _ _) Hall request Hreq)
      as (Hva & Hsize & Hlast).
    assert (Int.in_range a) as Hain
      by (unfold Int.in_range, Int.min_signed, Int.max_signed in *; lia).
    pose proof (resolve_covered page_size m a f Hps Huni Hain He) as Hres.
    destruct (translate_resolved a m Hok) as (m1 & Htr & Hok1 & Hpt & _).
    rewrite Hres, He in Htr. rewrite Htr. cbn [mbind option_bind fst snd].
    assert (TLB.hits (MMU.tlb m) + TLB.misses (MMU.tlb m) + 1
            <= Int.max_signed) as Hroom by lia.
    destruct (translate_counters a m m1 _ Htr Hh Hm Hroom)
      as (Hh1 & Hm1 & Hone).
    apply translate_frame in Htr as (_ & _ & _ & Hfrag).
    assert (Int.add i 1 = i + 1) as ->.
    { apply wrap_id. unfold Int.in_range, Int.min_signed, Int.max_signed in *.
      lia. }
    destruct (IH (i + 1) m1 errors) as (m' & Hrun & Hpt' & Hfrag' & ? & ? & ?);
      try done; try lia.
    { unfold uniform_pages. by rewrite Hpt. }
    { unfold covered. by rewrite Hpt. }
    exists m'. split; [done|]. split; [congruence|]. split; [congruence|].
    split; [done|]. split; [done|]. lia.
Qed.

(** X20: [run_simulation] on a workload that is not empty, whose requests
    have at least one byte and addresses that are not negative and fit an
    [int], and all get the same page size from the policy (as with the
    modes "small" and "large", and with "dynamic" when the sizes lie on one
    side of the threshold); [int] arithmetic wraps around where it
    overflows. Either the allocation phase throws "Out of physical memory"
    and that error is all the run prints; or the allocation phase returns
    normally, all the 100000 translations of the access phase succeed, each
    with one TLB lookup, and no translation error is printed: in the MMU the
    access phase ends with, [hits] and [misses] add up to 100000, the hit
    rate printed is [100 * hits / 100000] for that [hits], the
    fragmentation printed is the sum of the contributions of the requests
    wrapped to 32 bits, and the page table, which the access phase left as
    the allocation phase built it, is not empty. *)
Theorem run_simulation_reports (policy_mode : string)
    (workload : list (Z * Z)) (page_size : Z) :
  workload ≠ [] →
  Forall (λ request : Z * Z,
            plain_request request
            ∧ decide_page_size (PolicyEngine_new (Some policy_mode) None)
                request.2 = page_size) workload →
  let pe := PolicyEngine_new (Some policy_mode) None in
  ((allocation_phase workload (MMU.new pe)).2
   = Throws "Out of physical memory"
   ∧ run_simulation policy_mode workload
     = Some (AllocationError "Out of physical memory"))
  ∨ ∃ m1 m2,
      allocation_phase workload (MMU.new pe) = (m1, Normal tt)
      ∧ access_phase (Z.to_nat 100000) 0 workload m1 [] = Some (m2, [])
      ∧ 0 <= TLB.hits (MMU.tlb m2) ∧ 0 <= TLB.misses (MMU.tlb m2)
      ∧ TLB.hits (MMU.tlb m2) + TLB.misses (MMU.tlb m2) = 100000
      ∧ MMU.page_table m2 = MMU.page_table m1
      ∧ run_simulation policy_mode workload
        = Some (Report [] ((100 * TLB.hits (MMU.tlb m2)) / 100000)
                  (Int.wrap (total_contribution pe workload))
                  (MMU.get_page_table_size m1))
      ∧ 1 <= MMU.get_page_table_size m1.
Proof.
  intros Hne Hall pe. unfold run_simulation. fold pe.
  assert (page_size = SMALL_PAGE_SIZE ∨ page_size = LARGE_PAGE_SIZE) as Hps.
  { destruct workload as [|request rest]; [done|].
    apply Forall_cons in Hall as [[_ <-] _]. apply decide_page_size_cases. }
  assert (uniform_pages page_size (MMU.new pe)) as Huni0
    by (intros v e; cbn; by rewrite lookup_empty).
  destruct (allocation_phase workload (MMU.new pe)) as [m1 r] eqn:Hphase.
  destruct (allocation_phase_covers page_size workload (MMU.new pe) m1 r
              (mmu_ok_new pe) (frames_inv_new pe) Huni0 Hall Hphase)
    as [Htlb Hr].
  destruct r as [[]|what]; [|left; by rewrite Hr].
  destruct Hr as (Heq & Hok & Hinv & Huni & _ & Hcov). right.
  assert (Forall plain_request workload) as Hplain
    by (eapply Forall_impl; [exact Hall|by intros ? [? _]]).
  destruct (access_phase_covered page_size workload (Z.to_nat 100000) 0 m1 []
              Hne Hplain Hps Hok Huni Hcov)
    as (m2 & Hacc & Hpt & Hfrag & Hh & Hm & Hsum);
    rewrite ?Htlb; cbn [MMU.new MMU.tlb TLB.new TLB.hits TLB.misses];
    try (unfold Int.max_signed; lia).
  rewrite Htlb in Hsum.
  cbn [MMU.new MMU.tlb TLB.new TLB.hits TLB.misses] in Hsum.
  rewrite Hacc. cbn [mbind option_bind fst snd].
  exists m1, m2. split; [done|]. split; [done|].
  split; [done|]. split; [done|]. split; [lia|]. split; [done|].
  split.
  - f_equal. f_equal.
    + unfold MMU.get_tlb_hit_rate.
      destruct (hit_rate_exact (MMU.tlb m2)) as [-> _];
        [lia|lia|unfold Int.max_signed; lia..|].
      rewrite Hsum. reflexivity.
    + unfold MMU.get_internal_fragmentation. rewrite Hfrag, Heq.
      rewrite cumulative_fragmentation.
      * reflexivity.
      * cbn. vm_compute. split; discriminate.
      * eapply Forall_impl; [exact Hplain|].
        intros request. apply plain_request_in_range.
    + unfold MMU.get_page_table_size. by rewrite Hpt.
  - unfold MMU.get_page_table_size.
    destruct workload as [|request rest]; [done|].
    apply Forall_cons in Hcov as [Hcov _].
    apply Forall_cons in Hplain as [(Hva & Hsize & _) _].
    assert (request.1 <= request.1 <= request.1 + request.2 - 1) as Hfirst
      by lia.
    destruct (Hcov request.1 Hfirst) as [f He].
    destruct (decide (size (MMU.page_table m1) = 0)%nat) as [Hz|]; [|lia].
    apply map_size_empty_iff in Hz. rewrite Hz in He.
    by rewrite lookup_empty in He.
Qed.

Lemma run_simulation_reports_witness :
  let pe := PolicyEngine_new (Some "large"%string) None in
  ((allocation_phase database_workload (MMU.new pe)).2
   = Throws "Out of physical memory"
   ∧ run_simulation "large" database_workload
     = Some (AllocationError "Out of physical memory"))
  ∨ ∃ m1 m2,
      allocation_phase database_workload (MMU.new pe) = (m1, Normal tt)
      ∧ access_phase (Z.to_nat 100000) 0 database_workload m1 []
        = Some (m2, [])
      ∧ 0 <= TLB.hits (MMU.tlb m2) ∧ 0 <= TLB.misses (MMU.tlb m2)
      ∧ TLB.hits (MMU.tlb m2) + TLB.misses (MMU.tlb m2) = 100000
      ∧ MMU.page_table m2 = MMU.page_table m1
      ∧ run_simulation "large" database_workload
        = Some (Report [] ((100 * TLB.hits (MMU.tlb m2)) / 100000)
                  (Int.wrap (total_contribution pe database_workload))
                  (MMU.get_page_table_size m1))
      ∧ 1 <= MMU.get_page_table_size m1.
Proof.
  apply (run_simulation_reports "large" database_workload LARGE_PAGE_SIZE).
  - discriminate.
  - repeat constructor; vm_compute; discriminate.
Defined.

(** ** Allocating a request again *)

(** X21: allocating again a request that [allocate] accepted succeeds
    without creating a page or taking a frame: the page table, the bitmap,
    the TLB and the policy stay as they are, and only the fragmentation
    counter moves, the request being charged a second time. *)
Theorem allocate_again_only_charges (m m1 : MMU.t) (va size : Z) :
  MMU.allocate va size m = (m1, Normal tt) →
  MMU.allocate va size m1
  = (MMU.with_fragmentation m1
       (Int.add (MMU.internal_fragmentation m1)
          (fragmentation_charge
             (decide_page_size (MMU.policy_engine m1) size) va size)),
     Normal tt).
Proof.
  intros Hrun.
  pose proof (allocate_policy va size m) as Hpe. rewrite Hrun in Hpe.
  cbn [fst] in Hpe.
  change (MMU.with_fragmentation m1 _) with (charged m1 va size).
  rewrite allocate_unfold in Hrun. rewrite allocate_unfold.
  assert (request_pages m1 va size = request_pages m va size) as ->
    by (unfold request_pages; by rewrite Hpe).
  rewrite Hpe. apply allocate_pages_all_present.
  - apply request_pages_bound.
  - intros j Hj.
    apply (allocate_pages_covers _ va _ 0 _ m1
             (request_pages_bound m va size) Hrun j Hj).
Qed.

Lemma allocate_again_only_charges_witness :
  let m :=
    {| MMU.tlb := TLB.new TLB_SIZE;
       MMU.page_table := ∅;
       MMU.policy_engine := mkPolicyEngine "small" 1048576;
       MMU.physical_frames := [false; false; false];
       MMU.internal_fragmentation := 0 |} in
  MMU.allocate 4000 200 (MMU.allocate 4000 200 m).1
  = ({| MMU.tlb := TLB.new TLB_SIZE;
        MMU.page_table := {[ 0 := (0, 4096); 1 := (1, 4096) ]};
        MMU.policy_engine := mkPolicyEngine "small" 1048576;
        MMU.physical_frames := [true; true; false];
        MMU.internal_fragmentation := 7992 + 7992 |}, Normal tt).
Proof.
  intros m.
  assert (MMU.allocate 4000 200 m = ((MMU.allocate 4000 200 m).1, Normal tt))
    as Hrun by reflexivity.
  rewrite (allocate_again_only_charges m _ 4000 200 Hrun).
  vm_compute. reflexivity.
Defined.

(** ** The TLB of an MMU *)

(** X22: whatever [allocate] and [translate] calls are made on a new MMU,
    its TLB never holds more than [TLB_SIZE] = 64 pages, and every frame it
    caches is the frame that the page table records for the page: a TLB
    hit never yields a stale frame. *)
Theorem mmu_tlb_coherent (pe : PolicyEngine) (ops : list mmu_op) :
  ∃ m,
    mmu_run ops (MMU.new pe) = Some m
    ∧ OrderedDict.size (TLB.cache (MMU.tlb m)) <= 64
    ∧ ∀ v f, OrderedDict.map (TLB.cache (MMU.tlb m)) !! v = Some f →
             ∃ page_size, MMU.page_table m !! v = Some (f, page_size).
Proof.
  destruct (mmu_run_inv ops (MMU.new pe) (mmu_ok_new pe) (frames_inv_new pe))
    as (m & Hrun & [(_ & _ & Hsize) Hcoh] & _).
  exists m. by split_and!.
Qed.

(** ** Counting frames *)

(** The indices of the allocated frames, counted from the length of
    [pre]. *)
Lemma allocated_indices (l : list bool) : ∀ pre,
  length (filter (λ j : nat, (pre ++ l) !! j = Some true)
            (seq (length pre) (length l)))
  = length (filter (λ b : bool, b = true) l).
Proof.
  induction l as [|b l IH]; intros pre; [done|].
  cbn [length seq].
  specialize (IH (pre ++ [b])).
  rewrite length_app, <- app_assoc in IH. cbn [length app] in IH.
  replace (length pre + 1)%nat with (S (length pre)) in IH by lia.
  assert ((pre ++ b :: l) !! length pre = Some b) as Hb
    by apply list_lookup_middle, eq_refl.
  destruct b.
  - rewrite !filter_cons_True by done. cbn [length]. by rewrite IH.
  - rewrite !filter_cons_False by (rewrite ?Hb; done). done.
Qed.

Lemma owns_seq e (j : nat) :
  0 <= e.1 → 0 <= e.2 ÷ SMALL_PAGE_SIZE →
  owns e j ↔ j ∈ seq (Z.to_nat e.1) (Z.to_nat (e.2 ÷ SMALL_PAGE_SIZE)).
Proof. intros ? ?. rewrite elem_of_seq. unfold owns. lia. Qed.

(** Where the bitmap and the page table agree, the frames of the pages
    are the allocated frames. *)
Lemma frames_inv_count m :
  frames_inv m →
  mapped_frames m = allocated_frames m
  ∧ (size (MMU.page_table m) <= mapped_frames m)%nat
  ∧ (allocated_frames m <= length (MMU.physical_frames m))%nat.
Proof.
  intros (Hlen & Hent & Hdisj & Hown).
  set (span := λ entry : Z * (Z * Z),
         seq (Z.to_nat entry.2.1)
           (Z.to_nat (entry.2.2 ÷ SMALL_PAGE_SIZE))).
  assert (∀ v e, MMU.page_table m !! v = Some e →
            0 <= e.1 ∧ 1 <= e.2 ÷ SMALL_PAGE_SIZE) as Hpos.
  { intros v e He. destruct (Hent v e He) as ([-> | ->] & ? & _); done. }
  assert (∀ v e j, MMU.page_table m !! v = Some e →
            owns e j ↔ j ∈ span (v, e)) as Hspan.
  { intros v e j He. destruct (Hpos v e He). apply owns_seq; lia. }
  split_and!.
  - unfold mapped_frames, allocated_frames.
    rewrite <- (allocated_indices (MMU.physical_frames m) []).
    cbn [app length].
    transitivity (length (map_to_list (MMU.page_table m) ≫= span)).
    { induction (map_to_list (MMU.page_table m)) as [|entry l IH]; [done|].
      cbn [sum_list_with]. rewrite IH. cbn.
      unfold span at 2. by rewrite length_app, length_seq. }
    apply Permutation_length, NoDup_Permutation.
    + apply NoDup_bind.
      * intros [v1 e1] [v2 e2] j H1%elem_of_map_to_list
          H2%elem_of_map_to_list Hj1 Hj2.
        apply Hspan in Hj1, Hj2; [|done..].
        pose proof (Hdisj v1 v2 e1 e2 j H1 H2 Hj1 Hj2) as <-.
        congruence.
      * intros. apply NoDup_seq.
      * apply NoDup_map_to_list.
    + apply NoDup_filter, NoDup_seq.
    + intros j. rewrite list_elem_of_bind, list_elem_of_filter, elem_of_seq.
      split.
      * intros ([v e] & Hj & He%elem_of_map_to_list).
        apply Hspan in Hj; [|done].
        destruct (Hent v e He) as (_ & _ & Hall).
        pose proof (Hall j Hj) as Htrue. split; [done|].
        apply lookup_lt_Some in Htrue. lia.
      * intros [Htrue _]. destruct (Hown j Htrue) as (v & e & He & Hj).
        exists (v, e). split; [by apply Hspan|by apply elem_of_map_to_list].
  - unfold mapped_frames. rewrite <- length_map_to_list.
    assert (Forall (λ entry : Z * (Z * Z),
                      1 <= entry.2.2 ÷ SMALL_PAGE_SIZE)
              (map_to_list (MMU.page_table m))) as Hall.
    { apply Forall_forall. intros [v e] He%elem_of_map_to_list.
      by apply (Hpos v e). }
    induction Hall as [|entry l Hentry _ IH]; [done|].
    cbn [sum_list_with length]. lia.
  - unfold allocated_frames. apply length_filter.
Qed.

(** X23: frames are conserved. Whatever [allocate] and [translate] calls
    are made on a new MMU, the number of frames that the bitmap marks
    allocated is the number of frames that the pages of the page table
    take (1 for a small page, 512 for a large one). So the pages never
    take more than the 262144 frames of the physical memory, and the page
    table never has more than 262144 entries. *)
Theorem frames_are_conserved (pe : PolicyEngine) (ops : list mmu_op) :
  ∃ m,
    mmu_run ops (MMU.new pe) = Some m
    ∧ allocated_frames m = mapped_frames m
    ∧ Z.of_nat (mapped_frames m) <= 262144
    ∧ MMU.get_page_table_size m <= 262144.
Proof.
  destruct (mmu_run_inv ops (MMU.new pe) (mmu_ok_new pe) (frames_inv_new pe))
    as (m & Hrun & _ & Hinv & _).
  exists m. split; [done|].
  destruct (frames_inv_count m Hinv) as (Heq & Hsize & Hle).
  destruct Hinv as (Hlen & _).
  change (PHYSICAL_MEMORY_SIZE ÷ SMALL_PAGE_SIZE) with 262144 in Hlen.
  unfold MMU.get_page_table_size. split; [done|]. lia.
Qed.

(** ** A failed request on a counter that is nearly full *)

(** A page table that has an entry for each of the page numbers
    [0], ..., [n - 1] has at least [n] entries. *)
Lemma first_pages_size {V} (pt : gmap Z V) (n : nat) :
  (∀ j : nat, (j < n)%nat → is_Some (pt !! Z.of_nat j)) → (n <= size pt)%nat.
Proof.
  intros Hall.
  set (l := Z.of_nat <$> seq 0 n).
  assert (length l = n) as Hl by (unfold l; by rewrite length_fmap, length_seq).
  rewrite <- Hl, <- length_map_to_list, <- (length_fmap fst (map_to_list pt)).
  apply submseteq_length, NoDup_submseteq; unfold l.
  - apply NoDup_fmap; [apply Nat2Z.inj'|apply NoDup_seq].
  - intros v (j & -> & Hj%elem_of_seq)%list_elem_of_fmap.
    destruct (Hall j) as [e He]; [lia|].
    apply list_elem_of_fmap. exists (Z.of_nat j, e).
    split; [done|]. by apply elem_of_map_to_list.
Qed.

(** Where all the pages are large, the physical memory has room for 512
    of them. *)
Lemma large_pages_bound m :
  frames_inv m → uniform_pages LARGE_PAGE_SIZE m →
  (size (MMU.page_table m) <= 512)%nat.
Proof.
  intros Hinv Huni.
  destruct (frames_inv_count m Hinv) as (Heq & _ & Hle).
  destruct Hinv as (Hlen & _).
  change (PHYSICAL_MEMORY_SIZE ÷ SMALL_PAGE_SIZE) with 262144 in Hlen.
  assert (mapped_frames m = 512 * size (MMU.page_table m))%nat as Hmapped.
  { unfold mapped_frames. rewrite <- length_map_to_list.
    assert (Forall (λ entry : Z * (Z * Z), entry.2.2 = LARGE_PAGE_SIZE)
              (map_to_list (MMU.page_table m))) as Hall.
    { apply Forall_forall. intros [v e] He%elem_of_map_to_list.
      by apply (Huni v e). }
    induction Hall as [|entry l Hentry _ IH]; [done|].
    cbn [sum_list_with length]. rewrite IH, Hentry.
    change (Z.to_nat (LARGE_PAGE_SIZE ÷ SMALL_PAGE_SIZE)) with 512%nat.
    lia. }
  lia.
Qed.

(** What a sequence of calls of [allocate] keeps, under a policy that
    selects the page size [page_size] for every request. *)
Lemma allocate_all_inv page_size requests : ∀ m,
  (∀ s, decide_page_size (MMU.policy_engine m) s = page_size) →
  frames_inv m → uniform_pages page_size m →
  frames_inv (allocate_all requests m)
  ∧ uniform_pages page_size (allocate_all requests m)
  ∧ MMU.policy_engine (allocate_all requests m) = MMU.policy_engine m.
Proof.
  induction requests as [|[va size] rest IH]; intros m Hps Hinv Huni; [done|].
  change (allocate_all ((va, size) :: rest) m)
    with (allocate_all rest (MMU.allocate va size m).1).
  destruct (IH (MMU.allocate va size m).1) as (? & ? & Hpe).
  - intros s. by rewrite allocate_policy.
  - by apply frames_inv_allocate.
  - rewrite <- (Hps size). apply allocate_uniform. by rewrite Hps.
  - split_and!; [done..|]. by rewrite Hpe, allocate_policy.
Qed.

(** Under such a policy for large pages a request of 1 GiB and one byte at
    address 0 has 513 pages, one more than the memory can hold: the call
    throws, whatever was allocated before. *)
Lemma oversized_request_throws m :
  (∀ s, decide_page_size (MMU.policy_engine m) s = LARGE_PAGE_SIZE) →
  frames_inv m → uniform_pages LARGE_PAGE_SIZE m →
  (MMU.allocate 0 1073741825 m).2 = Throws "Out of physical memory".
Proof.
  intros Hps Hinv Huni.
  pose proof (frames_inv_allocate 0 1073741825 m Hinv) as Hinv'.
  pose proof (allocate_uniform 0 1073741825 m) as Huni'.
  rewrite Hps in Huni'. specialize (Huni' Huni).
  pose proof (frames_inv_length m Hinv) as Hlen.
  pose proof (request_pages_bound m 0 1073741825) as Hbound.
  assert (request_pages m 0 1073741825 = 513%nat) as Hpages
    by (unfold request_pages; by rewrite Hps).
  rewrite allocate_unfold in *. rewrite Hps, Hpages in *.
  destruct (MMU.allocate_pages LARGE_PAGE_SIZE 0 513 (Z.of_nat 0)
              (charged m 0 1073741825)) as [m' [[]|what]] eqn:Hrun;
    cbn [fst snd] in *.
  - exfalso.
    pose proof (large_pages_bound m' Hinv' Huni') as Hsmall.
    assert (513 <= size (MMU.page_table m'))%nat as Hbig; [|lia].
    apply first_pages_size. intros j Hj.
    assert (Z.of_nat j = request_vpn LARGE_PAGE_SIZE 0 j) as ->.
    { unfold request_vpn, Int.add.
      change (Int.div 0 LARGE_PAGE_SIZE) with 0.
      symmetry. apply wrap_id.
      unfold Int.in_range, Int.min_signed, Int.max_signed. lia. }
    apply (allocate_pages_covers LARGE_PAGE_SIZE 0 513 0 _ m' Hbound Hrun).
    lia.
  - f_equal.
    by apply (allocate_pages_throws LARGE_PAGE_SIZE 0 513 0) in Hrun
      as [-> _].
Qed.

(** The contributions of [n] copies of a request. *)
Lemma total_contribution_replicate pe request (n : nat) :
  total_contribution pe (replicate n request)
  = Z.of_nat n * contribution pe request.
Proof.
  induction n as [|n IH]; [done|].
  cbn [replicate total_contribution foldr].
  fold (total_contribution pe (replicate n request)). lia.
Qed.

(** The counter through 1024 calls [allocate(0, 1)] and a call
    [allocate(0, 1073741825)] under a policy for large pages, from a
    counter at 0. *)
Lemma nearly_full_counter m :
  (∀ s, decide_page_size (MMU.policy_engine m) s = LARGE_PAGE_SIZE) →
  frames_inv m → uniform_pages LARGE_PAGE_SIZE m →
  MMU.internal_fragmentation m = 0 →
  contribution (MMU.policy_engine m) (0, 1) = 2097151
  ∧ contribution (MMU.policy_engine m) (0, 1073741825) = 2097151
  ∧ MMU.internal_fragmentation (allocate_all (replicate 1024 (0, 1)) m)
    = 2147482624
  ∧ (MMU.allocate 0 1073741825 (allocate_all (replicate 1024 (0, 1)) m)).2
    = Throws "Out of physical memory"
  ∧ MMU.internal_fragmentation
      (MMU.allocate 0 1073741825
         (allocate_all (replicate 1024 (0, 1)) m)).1
    = -2145387521.
Proof.
  intros Hps Hinv Huni Hzero.
  assert (contribution (MMU.policy_engine m) (0, 1) = 2097151) as Hone
    by (unfold contribution; cbn [fst snd]; by rewrite Hps).
  assert (contribution (MMU.policy_engine m) (0, 1073741825) = 2097151)
    as Hbig by (unfold contribution; cbn [fst snd]; by rewrite Hps).
  destruct (allocate_all_inv LARGE_PAGE_SIZE (replicate 1024 (0, 1)) m
              Hps Hinv Huni) as (Hinv' & Huni' & Hpe).
  assert (MMU.internal_fragmentation (allocate_all (replicate 1024 (0, 1)) m)
          = 2147482624) as Hbefore.
  { rewrite cumulative_fragmentation.
    - rewrite Hzero, total_contribution_replicate, Hone. reflexivity.
    - rewrite Hzero. vm_compute. split; discriminate.
    - apply Forall_replicate. vm_compute. repeat split; discriminate. }
  split; [done|]. split; [done|]. split; [done|]. split.
  - apply oversized_request_throws; [|done..].
    intros s. by rewrite Hpe.
  - rewrite allocate_fragmentation, Hbefore, Hpe, Hps. reflexivity.
Qed.

(** C9 on a counter that is nearly full. Under the policy "large" the call
    [allocate(0, 1)] has the contribution [1 * 2097152 - 1 = 2097151]
    whether its page exists or not; 1024 such calls on a new MMU leave the
    counter at 2147482624. The request [allocate(0, 1073741825)] then has
    513 pages where the physical memory holds 512: the call throws "Out of
    physical memory". Its contribution is [513 * 2097152 - 1073741825 =
    2097151], and the counter it leaves is -2145387521, which is [2^32]
    less than the counter before the call plus the contribution. *)
Theorem failed_allocate_counter_wraps :
  let pe := PolicyEngine_new (Some "large"%string) None in
  let before := allocate_all (replicate 1024 (0, 1)) (MMU.new pe) in
  let after := MMU.allocate 0 1073741825 before in
  contribution pe (0, 1) = 2097151
  ∧ MMU.get_internal_fragmentation before = 2147482624
  ∧ after.2 = Throws "Out of physical memory"
  ∧ contribution pe (0, 1073741825) = 2097151
  ∧ MMU.get_internal_fragmentation after.1 = -2145387521
  ∧ MMU.get_internal_fragmentation after.1
    ≠ MMU.get_internal_fragmentation before
      + contribution pe (0, 1073741825).
Proof.
  intros pe before after.
  destruct (nearly_full_counter (MMU.new pe))
    as (Hone & Hbig & Hbefore & Hthrows & Hafter).
  - intros s. reflexivity.
  - apply frames_inv_new.
  - intros v e. cbn [MMU.new MMU.page_table]. by rewrite lookup_empty.
  - reflexivity.
  - unfold MMU.get_internal_fragmentation.
    split; [exact Hone|]. split; [exact Hbefore|]. split; [exact Hthrows|].
    split; [exact Hbig|]. split; [exact Hafter|].
    intros Heq.
    assert (-2145387521 = 2147482624 + 2097151) as Habs; [|lia].
    rewrite <- Hafter, <- Hbefore, <- Hbig. exact Heq.
Qed.
